(** * astroML plotting helpers: [smooth_contour.py] and [scatter_contour.py]

    A shallow embedding of the two modules of [astroML/plotting] and the
    properties of their functions.

    Conventions of the embedding.
    - A numpy [float64] (and every other numeric dtype) is idealised as an
      exact rational [Qc]; no rounding, no NaN.  A 1-D array is a [list Qc];
      a 2-D array is the list of its rows.
    - A Python [int] is a [Z]; an index into a sequence is a [nat].
    - A Python exception is a value of [exn]; a call that may raise returns
      a [result].
    - Calls into numpy's histogram, scipy's spline routines and matplotlib
      are oracles: fields of a class, with arbitrary results.  Every such
      call is recorded, with its arguments and outcome, in a log. *)

From Stdlib Require Import QArith Qcanon ZArith.
From stdpp Require Import gmap strings list sorting numbers.

(** ** Exceptions and results *)

Inductive exn : Type :=
  | IndexError
  | ValueError
  | TypeError
  | AttributeError
  | LibraryError (tag : string).

Inductive result (A : Type) : Type :=
  | Ok (a : A)
  | Raise (e : exn).
Arguments Ok {A} a.
Arguments Raise {A} e.

#[global] Instance exn_eq_dec : EqDecision exn.
Proof. solve_decision. Defined.

#[global] Instance result_ret : MRet result := λ A a, Ok a.
#[global] Instance result_bind : MBind result := λ A B f r,
  match r with
  | Ok a => f a
  | Raise e => Raise e
  end.
#[global] Instance result_fmap : FMap result := λ A B f r,
  match r with
  | Ok a => Ok (f a)
  | Raise e => Raise e
  end.

(** Sequence indexing [l[i]]: out of range raises [IndexError]. *)
Definition index {A} (l : list A) (i : nat) : result A :=
  match l !! i with
  | Some a => Ok a
  | None => Raise IndexError
  end.

(** ** numpy on lists *)

Module np.

(** [a.T] of a 2-D array given by its rows: the columns, as many as the
    first row has entries. *)
Definition T (a : list (list Qc)) : list (list Qc) :=
  match a with
  | [] => []
  | r :: _ => (λ j, omap (λ row : list Qc, row !! j) a) <$> seq 0 (length r)
  end.

(** [np.vstack(arrs)] of 1-D arrays: they must be at least one and of one
    length. *)
Definition vstack (arrs : list (list Qc)) : result (list (list Qc)) :=
  match arrs with
  | [] => Raise ValueError
  | r :: rest =>
      if bool_decide (Forall (λ r', length r' = length r) rest)
      then Ok arrs else Raise ValueError
  end.

(** [np.sort] of an array of indices. *)
Definition sort (l : list nat) : list nat := merge_sort Nat.le l.

(** [A[gdx]] with an index array: the rows at those indices. *)
Definition take_rows {A} (a : list A) (gdx : list nat) : result (list A) :=
  mapM (index a) gdx.

(** [np.linspace(a, b, n)]: [n] evenly spaced values from [a] to [b]. *)
Definition linspace (a b : Qc) (n : Z) : result (list Qc) :=
  if bool_decide (n < 0)%Z then Raise ValueError
  else if bool_decide (n = 1)%Z then Ok [a]
  else
    let step := ((b - a) / Qc_of_Z (n - 1))%Qc in
    Ok ((λ i : nat, (a + Qc_of_Z (Z.of_nat i) * step)%Qc) <$> seq 0 (Z.to_nat n)).

(** [np.ones(n)]: a negative length is rejected. *)
Definition ones (n : Z) : result (list Qc) :=
  if bool_decide (n < 0)%Z then Raise ValueError
  else Ok (replicate (Z.to_nat n) 1%Qc).

(** [np.dstack([a, b]).mean(axis=2)]: the entrywise mean of two arrays of
    one shape. *)
Definition mean2 (a b : list (list Qc)) : result (list (list Qc)) :=
  if bool_decide (length <$> a = length <$> b)
  then Ok (zip_with (zip_with (λ p q : Qc, ((p + q) / 2)%Qc)) a b)
  else Raise ValueError.

(** [np.vstack([a, b])] of two 2-D arrays: their rows one after the
    other; the rows must be of one length. *)
Definition vstack2 (a b : list (list Qc)) : result (list (list Qc)) :=
  match a, b with
  | r :: _, r' :: _ =>
      if bool_decide (length r = length r') then Ok (a ++ b)
      else Raise ValueError
  | _, _ => Ok (a ++ b)
  end.

(** [np.where(a == v)]: the indices of the entries equal to [v]. *)
Definition where_eq (a : list Qc) (v : Qc) : list nat :=
  filter (λ i, a !! i = Some v) (seq 0 (length a)).

(** [(a == v).sum()] *)
Definition count_eq (a : list Qc) (v : Qc) : nat :=
  length (filter (λ q, q = v) a).

(** [a[lo:hi]] *)
Definition slice {A} (lo hi : nat) (a : list A) : list A :=
  take (hi - lo) (drop lo a).

(** [H.max()] of a 2-D array: an array without entries has none. *)
Definition max (H : list (list Qc)) : result Qc :=
  match mjoin H with
  | [] => Raise ValueError
  | h :: rest =>
      Ok (foldl (λ m v : Qc, if bool_decide (m < v)%Qc then v else m) h rest)
  end.

(** [np.argmin(l)]: the first index of the least entry. *)
Fixpoint argmin_from (l : list Qc) (i : nat) (best : Qc) (ibest : nat) : nat :=
  match l with
  | [] => ibest
  | v :: l =>
      if bool_decide (v < best)%Qc then argmin_from l (S i) v i
      else argmin_from l (S i) best ibest
  end.
Definition argmin (l : list Qc) : result nat :=
  match l with
  | [] => Raise ValueError
  | v :: l => Ok (argmin_from l 1 v 0)
  end.

(** [np.where(cond)] on a 2-D array, as the pairs [zip(wx, wy)] of row and
    column indices, row by row. *)
Definition where2 (cond : Qc → bool) (H : list (list Qc)) : list (nat * nat) :=
  mjoin (imap (λ i row,
                 omap id (imap (λ j h, if cond h then Some (i, j) else None) row))
              H).

(** [a & b] and [a | b] on boolean arrays: they must be of one length. *)
Definition logical_and (a b : list bool) : result (list bool) :=
  if bool_decide (length a = length b) then Ok (zip_with andb a b)
  else Raise ValueError.
Definition logical_or (a b : list bool) : result (list bool) :=
  if bool_decide (length a = length b) then Ok (zip_with orb a b)
  else Raise ValueError.

(** [a[mask]] with a boolean array: the entries where the mask holds; the
    mask must be as long as the array. *)
Definition compress {A} (mask : list bool) (a : list A) : result (list A) :=
  if bool_decide (length mask = length a)
  then Ok ((filter (λ p : bool * A, p.1 = true) (zip mask a)).*2)
  else Raise IndexError.

(** [a[:, j]] *)
Definition column (j : nat) (a : list (list Qc)) : result (list Qc) :=
  mapM (λ row, index row j) a.

End np.

(** ** [unique_vec] *)

(** Python 2's [dict.values()] lists the values in an order the language
    does not fix: an instance is any enumeration of the values. *)
Class DictOrder := {
  dict_values : gmap (list Qc) nat → list nat;
  dict_values_perm : ∀ ud, dict_values ud ≡ₚ (map_to_list ud).*2
}.

(** The order in which stdpp lists a map. *)
Definition map_order : DictOrder :=
  {| dict_values := λ ud, (map_to_list ud).*2;
     dict_values_perm := λ ud, reflexivity _ |}.

(** The opposite order. *)
Definition reverse_map_order : DictOrder :=
  {| dict_values := λ ud, reverse (map_to_list ud).*2;
     dict_values_perm := λ ud, reverse_Permutation _ |}.

(** [ud.setdefault(k, d)] *)
Definition setdefault (k : list Qc) (d : nat) (ud : gmap (list Qc) nat)
  : gmap (list Qc) nat :=
  match ud !! k with
  | Some _ => ud
  | None => <[k := d]> ud
  end.

(** The loop of [unique_vec]: each row, as a tuple, is mapped to the index
    at which it was seen last. *)
Definition unique_vec_loop (A : list (list Qc)) : gmap (list Qc) nat :=
  foldl (λ ud '(idx, i), let k := i in <[k := idx]> (setdefault k 0 ud))
        ∅ (imap pair A).

Definition unique_vec `{DictOrder} (A : list (list Qc))
  : result (list (list Qc) * Z) :=
  let ud := unique_vec_loop A in
  let per := 0%Z in
  let gdx := np.sort (dict_values ud) in
  g0 ← index gdx 0;
  let '(gdx, per) :=
    if bool_decide (g0 ≠ 0) then (0 :: gdx, 1%Z) else (gdx, per) in
  useg ← np.take_rows A gdx;
  mret (useg, per).

(** ** Python values and keyword arguments *)

Inductive Value : Type :=
  | VNone
  | VBool (b : bool)
  | VInt (n : Z)
  | VFloat (q : Qc)
  | VStr (s : string)
  | VList (l : list Qc)
  | VArr1 (a : list Qc)
  | VArr2 (a : list (list Qc))
  | VAxes (ax : nat)
  | VObj (id : nat).

#[global] Instance Value_eq_dec : EqDecision Value.
Proof. solve_decision. Defined.

(** [kwargs.pop(key, default)] *)
Definition pop (key : string) (dflt : Value) (kwargs : gmap string Value)
  : Value * gmap string Value :=
  (default dflt (kwargs !! key), delete key kwargs).

(** A number given where a float is used. *)
Definition as_float (v : Value) : result Qc :=
  match v with
  | VInt n => Ok (Qc_of_Z n)
  | VFloat q => Ok q
  | _ => Raise TypeError
  end.

(** An axes given where one is used. *)
Definition as_axes (v : Value) : result nat :=
  match v with
  | VAxes ax => Ok ax
  | _ => Raise AttributeError
  end.

(** The truth value of what is given as a flag: the axes keep the object
    given to [ax.hold] and the plotting library reads it as a truth value,
    which is what the hold flag of the model is.  An array of several
    entries has no truth value. *)
Definition as_bool (v : Value) : result bool :=
  match v with
  | VNone => Ok false
  | VBool b => Ok b
  | VInt n => Ok (bool_decide (n ≠ 0%Z))
  | VFloat q => Ok (bool_decide (q ≠ 0%Qc))
  | VStr s => Ok (bool_decide (s ≠ EmptyString))
  | VList l => Ok (bool_decide (l ≠ []))
  | VArr1 [] | VArr2 [] => Ok false
  | VArr1 [q] | VArr2 [[q]] => Ok (bool_decide (q ≠ 0%Qc))
  | VArr1 _ | VArr2 _ => Raise ValueError
  | VAxes _ | VObj _ => Ok true
  end.

(** [f(key=value, ..., **kwargs)]: a keyword given twice is a [TypeError]. *)
Definition keywords (explicit kwargs : gmap string Value)
  : result (gmap string Value) :=
  if bool_decide (explicit ##ₘ kwargs) then Ok (explicit ∪ kwargs)
  else Raise TypeError.

(** An integer given where an integer is required. *)
Definition as_int (v : Value) : result Z :=
  match v with
  | VInt n => Ok n
  | _ => Raise TypeError
  end.

(** An array as the contour tracer hands it out: the points of a segment
    (N x 2) or the path codes of one (N). *)
Inductive ndarray : Type :=
  | Arr1 (a : list Qc)
  | Arr2 (a : list (list Qc)).

#[global] Instance ndarray_eq_dec : EqDecision ndarray.
Proof. solve_decision. Defined.

Definition as_seg (a : ndarray) : result (list (list Qc)) :=
  match a with
  | Arr2 s => Ok s
  | Arr1 _ => Raise TypeError
  end.

Definition as_kind (a : ndarray) : result (list Qc) :=
  match a with
  | Arr1 c => Ok c
  | Arr2 _ => Raise TypeError
  end.

(** ** [SmoothContour] *)

Module SmoothContour.

(** The attributes [__init__] sets itself. *)
Record Smoothing : Type := {
  smooth : Qc;
  k : Z;
  int_number : Z;
  kinds_fill : list Qc;
  unew : list Qc
}.

(** The object: those and the attributes of [QuadContourSet] that
    [_get_allsegs_and_allkinds] reads.  [Cntr_trace] is the C tracer
    [self.Cntr.trace(level, level_upper, nchunk=)]. *)
Record t : Type := {
  smoothing :> Smoothing;
  filled : bool;
  levels : list Qc;
  nchunk : Z;
  Cntr_trace : Qc → option Qc → option Z → result (list ndarray);
  _get_lowers_and_uppers : result (list Qc * list Qc)
}.

End SmoothContour.
Import SmoothContour.

(** ** The libraries *)

(** scipy's spline representation [(t, c, k)]. *)
Record Tck : Type := { tck_t : list Qc; tck_c : list (list Qc); tck_k : Z }.

(** [scipy.interpolate]: [splprep(x, s=, k=, per=)] returns [(tck, u)];
    [splev(u, tck)] returns one array per coordinate. *)
Class Scipy := {
  splprep : list (list Qc) → Qc → Z → Z → result (Tck * list Qc);
  splev : list Qc → Tck → result (list (list Qc))
}.

(** What scipy documents of the shapes: [splev] returns as many arrays as
    the curve has coordinates, each as long as the parameter array. *)
Class ScipyShapes `{Scipy} : Prop :=
  splev_shape : ∀ x s k per tck u un arrs,
    splprep x s k per = Ok (tck, u) →
    splev un tck = Ok arrs →
    length arrs = length x ∧ Forall (λ a, length a = length un) arrs.

(** The contour set a plotting call returns, as far as this code reads it. *)
Record ContourSet : Type := {
  allsegs : list (list (list (list Qc)));
  _A : option (list Qc);
  cs_id : nat
}.

(** The calls into the libraries. *)
Inductive Call : Type :=
  | call_splprep (x : list (list Qc)) (s : Qc) (k per : Z)
  | call_splev (u : list Qc) (tck : Tck)
  | call_trace (level : Qc) (level_upper : option Qc) (nchunk : option Z)
  | call_get_lowers_and_uppers
  | call_histogram2d (x y : list Qc) (kwargs : gmap string Value)
  | call_gca
  | call_contour (ax : nat) (filled : bool) (args : list Value)
                 (kwargs : gmap string Value)
  | call_ContourSet_init (self : Smoothing) (ax : nat)
                         (args : list Value) (kwargs : gmap string Value)
  | call_draw_if_interactive
  | call_sci (cs : ContourSet)
  | call_contains_points (poly X : list (list Qc))
  | call_points_inside_poly (X poly : list (list Qc))
  | call_plot (ax : nat) (xs ys : list Qc) (kwargs : gmap string Value).

(** A call and the exception it raised, if any. *)
Record Event : Type := { called : Call; raised : option exn }.

Definition exn_of {A} (r : result A) : option exn :=
  match r with
  | Ok _ => None
  | Raise e => Some e
  end.

(** ** Computations: the plotting library's world and the log of calls *)

Section Computations.
Context {Host : Type}.

(** The hold flag of each axes (matplotlib's default is on) and whatever
    else the plotting library keeps. *)
Record World : Type := { holds : gmap nat bool; host : Host }.

(** A computation acts on the world, returns or raises, and logs the
    library calls it made. *)
Definition M (A : Type) : Type := World → result A * World * list Event.

#[global] Instance M_ret : MRet M := λ A a w, (Ok a, w, []).
#[global] Instance M_bind : MBind M := λ A B f m w,
  match m w with
  | (Ok a, w', evs) => let '(r, w'', evs') := f a w' in (r, w'', evs ++ evs')
  | (Raise e, w', evs) => (Raise e, w', evs)
  end.

(** A pure computation that may raise. *)
Definition lift {A} (r : result A) : M A := λ w, (r, w, []).

(** [try: body finally: fin] *)
Definition try_finally {A} (body : M A) (fin : M unit) : M A := λ w,
  let '(r, w', evs) := body w in
  match fin w' with
  | (Ok _, w'', evs') => (r, w'', evs ++ evs')
  | (Raise e, w'', evs') => (Raise e, w'', evs ++ evs')
  end.

(** [try: body except: handler], the bare [except] that catches all. *)
Definition try_except {A} (body handler : M A) : M A := λ w,
  match body w with
  | (Ok a, w', evs) => (Ok a, w', evs)
  | (Raise _, w', evs) =>
      let '(r, w'', evs') := handler w' in (r, w'', evs ++ evs')
  end.

(** A library call without effect on the world, logged. *)
Definition call {A} (c : Call) (r : result A) : M A := λ w,
  (r, w, [{| called := c; raised := exn_of r |}]).

(** A library call that acts on the world, logged. *)
Definition call_world {A} (c : Call) (f : World → result A * World) : M A :=
  λ w, let '(r, w') := f w in (r, w', [{| called := c; raised := exn_of r |}]).

(** [ax.ishold()] and [ax.hold(b)] for a [b] that is not [None]: they
    read and write the hold flag of the axes, which is all they are
    modelled to do; they are not logged, and the log of a computation is
    that of its other library calls. *)
Definition ax_ishold (ax : nat) : M bool := λ w,
  (Ok (default true (holds w !! ax)), w, []).
Definition ax_hold (ax : nat) (b : bool) : M unit := λ w,
  (Ok (), {| holds := <[ax := b]> (holds w); host := host w |}, []).

(** What a computation returns or raises, the world it leaves and the
    calls it logs, from the world [w]. *)
Definition result_of {A} (m : M A) (w : World) : result A := (m w).1.1.
Definition world_after {A} (m : M A) (w : World) : World := (m w).1.2.
Definition new_events {A} (m : M A) (w : World) : list Event := (m w).2.

End Computations.
Arguments World : clear implicits.
Arguments M : clear implicits.

(** ** [SmoothContour.__init__] *)

(** The assignments of [SmoothContour.__init__] before it calls
    [ContourSet.__init__]; returns the attributes and the keywords left.
    [smooth] is read as a number, [k] and [int_number] as integers, which
    are their documented types; the code stores whatever it is given, and
    a keyword of another type (where this definition raises [TypeError])
    is outside what is modelled: the properties that depend on it state
    the types as hypotheses. *)
Definition __init__ (kwargs : gmap string Value)
  : result (Smoothing * gmap string Value) :=
  let '(v_smooth, kwargs) := pop "smooth" (VInt 0) kwargs in
  let '(v_k, kwargs) := pop "k" (VInt 3) kwargs in
  let '(v_int_number, kwargs) := pop "int_number" (VInt 100) kwargs in
  smooth ← as_float v_smooth;
  k ← as_int v_k;
  int_number ← as_int v_int_number;
  ones ← np.ones int_number;
  let kinds_fill := (λ q : Qc, (q * 2)%Qc) <$> ones in
  _ ← index kinds_fill 0;
  let kinds_fill := <[0 := 1%Qc]> kinds_fill in
  unew ← np.linspace 0 1 int_number;
  mret ({| smooth := smooth; k := k; int_number := int_number;
           kinds_fill := kinds_fill; unew := unew |}, kwargs).

Section Methods.
Context `{DictOrder} `{Scipy} {Host : Type}.

Definition _smooth_segs (self : Smoothing) (seg : list (list Qc))
    (kind : option (list Qc)) (avg : bool)
  : M Host (list (list Qc) * option (list Qc)) :=
  '(useg, per) ← lift (unique_vec seg);
  if bool_decide (k self < Z.of_nat (length useg))%Z then
    '(tck, u) ← call (call_splprep (np.T useg) (smooth self) (k self) per)
                     (splprep (np.T useg) (smooth self) (k self) per);
    arrs ← call (call_splev (unew self) tck) (splev (unew self) tck);
    seg ← lift (np.T <$> np.vstack arrs);
    seg ← (if bool_decide (0 < smooth self)%Qc && avg then
             '(tck2, u2) ←
               call (call_splprep (np.T (reverse useg)) (smooth self) (k self) per)
                    (splprep (np.T (reverse useg)) (smooth self) (k self) per);
             arrs2 ← call (call_splev (reverse (unew self)) tck2)
                          (splev (reverse (unew self)) tck2);
             seg2 ← lift (np.T <$> np.vstack arrs2);
             lift (np.mean2 seg seg2)
           else mret seg);
    let kind := if kind is Some _ then Some (kinds_fill self) else kind in
    mret (seg, kind)
  else mret (seg, kind).

(** A statement-level loop: the body is run on each element in turn and
    threads the variables it assigns. *)
Fixpoint for_each {A V} (body : V → A → M Host V) (l : list A) (vars : V)
  : M Host V :=
  match l with
  | [] => mret vars
  | a :: l => vars ← body vars a; for_each body l vars
  end.

(** One pass of the inner loop of the filled branch,
    [for j in range(1, len(ndx))]: a piece of the path between two breaks
    is smoothed and put after the pieces before it.  The variables are
    [segs_tmp] and [kinds_tmp], unbound before the first pass. *)
Definition smooth_piece (self : Smoothing) (seg : list (list Qc))
    (kind : list Qc) (ndx : list nat)
    (tmp : option (list (list Qc) * option (list Qc))) (j : nat)
  : M Host (option (list (list Qc) * option (list Qc))) :=
  lo ← lift (index ndx (j - 1));
  hi ← lift (index ndx j);
  let current_seg := np.slice lo hi seg in
  let current_kind := np.slice lo hi kind in
  '(s, k) ← _smooth_segs self current_seg (Some current_kind) true;
  if bool_decide (j = 1) then mret (Some (s, k))
  else
    match tmp with
    | Some (segs_tmp, Some kinds_tmp) =>
        segs_tmp ← lift (np.vstack2 segs_tmp s);
        k ← lift (if k is Some k then Ok k else Raise TypeError);
        mret (Some (segs_tmp, Some (kinds_tmp ++ k)))
    | _ => lift (Raise TypeError)
    end.

Definition smooth_pieces (self : Smoothing) (seg : list (list Qc))
    (kind : list Qc) (ndx : list nat)
  : M Host (option (list (list Qc) * option (list Qc))) :=
  for_each (smooth_piece self seg kind ndx) (seq 1 (length ndx - 1)) None.

(** One pass of [for i in range(len(segs))] in the filled branch. *)
Definition smooth_filled (self : Smoothing)
    (vars : list ndarray * list ndarray) (i : nat)
  : M Host (list ndarray * list ndarray) :=
  let '(segs, kinds) := vars in
  kinds_i ← lift (index kinds i ≫= as_kind);
  if bool_decide (1 < np.count_eq kinds_i 1) then
    let ndx := np.where_eq kinds_i 1 in
    let ndx := ndx ++ [length kinds_i] in
    segs_i ← lift (index segs i ≫= as_seg);
    tmp ← smooth_pieces self segs_i kinds_i ndx;
    match tmp with
    | Some (segs_tmp, Some kinds_tmp) =>
        mret (<[i := Arr2 segs_tmp]> segs, <[i := Arr1 kinds_tmp]> kinds)
    | _ => lift (Raise TypeError)
    end
  else
    segs_i ← lift (index segs i ≫= as_seg);
    '(s, k) ← _smooth_segs self segs_i (Some kinds_i) false;
    match k with
    | Some k => mret (<[i := Arr2 s]> segs, <[i := Arr1 k]> kinds)
    | None => lift (Raise TypeError)
    end.

(** One pass of [for i in range(len(segs))] in the line branch. *)
Definition smooth_lines (self : Smoothing)
    (vars : list ndarray * option (list Qc)) (i : nat)
  : M Host (list ndarray * option (list Qc)) :=
  let '(segs, kinds) := vars in
  segs_i ← lift (index segs i ≫= as_seg);
  '(s, kinds) ← _smooth_segs self segs_i kinds true;
  mret (<[i := Arr2 s]> segs, kinds).

Definition _get_allsegs_and_allkinds (self : SmoothContour.t)
  : M Host (list (list ndarray) * option (list (list ndarray))) :=
  let allsegs := [] in
  if filled self then
    '(lowers, uppers) ← call call_get_lowers_and_uppers
                             (_get_lowers_and_uppers self);
    let allkinds := [] in
    '(allsegs, allkinds) ←
      for_each
        (λ '(allsegs, allkinds) '(level, level_upper),
           nlist ← call (call_trace level (Some level_upper) (Some (nchunk self)))
                        (Cntr_trace self level (Some level_upper)
                                    (Some (nchunk self)));
           let nseg := length nlist / 2 in
           let segs := take nseg nlist in
           let kinds := drop nseg nlist in
           '(segs, kinds) ←
             for_each (smooth_filled self) (seq 0 (length segs)) (segs, kinds);
           mret (allsegs ++ [segs], allkinds ++ [kinds]))
        (zip lowers uppers) (allsegs, allkinds);
    mret (allsegs, Some allkinds)
  else
    let allkinds := None in
    allsegs ←
      for_each
        (λ allsegs level,
           nlist ← call (call_trace level None None)
                        (Cntr_trace self level None None);
           let nseg := length nlist / 2 in
           let segs := take nseg nlist in
           let kinds := None in
           '(segs, kinds) ←
             for_each (smooth_lines self) (seq 0 (length segs)) (segs, kinds);
           mret (allsegs ++ [segs]))
        (levels self) allsegs;
    mret (allsegs, allkinds).

(** The method of matplotlib's [QuadContourSet] that [SmoothContour]
    overrides, for comparison: the tracer's segments and kinds as they
    come. *)
Definition QuadContourSet_get_allsegs_and_allkinds (self : SmoothContour.t)
  : M Host (list (list ndarray) * option (list (list ndarray))) :=
  if filled self then
    '(lowers, uppers) ← call call_get_lowers_and_uppers
                             (_get_lowers_and_uppers self);
    '(allsegs, allkinds) ←
      for_each
        (λ '(allsegs, allkinds) '(level, level_upper),
           nlist ← call (call_trace level (Some level_upper) (Some (nchunk self)))
                        (Cntr_trace self level (Some level_upper)
                                    (Some (nchunk self)));
           let nseg := length nlist / 2 in
           mret (allsegs ++ [take nseg nlist], allkinds ++ [drop nseg nlist]))
        (zip lowers uppers) ([], []);
    mret (allsegs, Some allkinds)
  else
    allsegs ←
      for_each
        (λ allsegs level,
           nlist ← call (call_trace level None None)
                        (Cntr_trace self level None None);
           let nseg := length nlist / 2 in
           mret (allsegs ++ [take nseg nlist]))
        (levels self) [];
    mret (allsegs, None).

End Methods.

(** ** pyplot, [Axes] and numpy's histogram *)

(** [np.histogram2d(x, y, **kwargs)] returns [(H, xbins, ybins)];
    [np.log10] on one entry. *)
Class Numpy := {
  histogram2d : list Qc → list Qc → gmap string Value →
                result (list (list Qc) * list Qc * list Qc);
  log10 : Qc → Qc
}.

(** matplotlib: [pyplot.gca], [pyplot.draw_if_interactive], [pyplot.sci],
    [ContourSet.__init__] as [SmoothContour.__init__] calls it (the object
    under construction carries the attributes set before), [ax.contour],
    [ax.contourf], [ax.plot], [Path(poly).contains_points(X)] with the
    import of [Path], and [nxutils.points_inside_poly(X, poly)] with the
    import of [nxutils]. *)
Class Matplotlib (Host : Type) := {
  gca : World Host → result nat * World Host;
  draw_if_interactive : World Host → result () * World Host;
  sci : ContourSet → World Host → result () * World Host;
  ContourSet_init : Smoothing → nat → list Value → gmap string Value →
                    World Host → result ContourSet * World Host;
  ax_contour : nat → list Value → gmap string Value →
               World Host → result ContourSet * World Host;
  ax_contourf : nat → list Value → gmap string Value →
                World Host → result ContourSet * World Host;
  ax_plot : nat → list Qc → list Qc → gmap string Value →
            World Host → result Value * World Host;
  contains_points : list (list Qc) → list (list Qc) → result (list bool);
  points_inside_poly : list (list Qc) → list (list Qc) → result (list bool)
}.

(** [levels]: an integer or an array. *)
Inductive Levels : Type :=
  | LevelsInt (n : Z)
  | LevelsArr (l : list Qc).

Section Plotting.
Context `{!Numpy} {Host : Type} `{!Matplotlib Host}.

(** [SmoothContour(ax, *args, **kwargs)] *)
Definition SmoothContour_new (ax : nat) (args : list Value)
    (kwargs : gmap string Value) : M Host ContourSet :=
  '(self, kwargs) ← lift (__init__ kwargs);
  call_world (call_ContourSet_init self ax args kwargs)
             (ContourSet_init self ax args kwargs).

Definition smooth_contour (args : list Value) (kwargs : gmap string Value)
  : M Host ContourSet :=
  let kwargs := <["filled" := VBool false]> kwargs in
  current ← call_world call_gca gca;
  let '(ax, kwargs) := pop "ax" (VAxes current) kwargs in
  ax ← lift (as_axes ax);
  washold ← ax_ishold ax;
  let '(hold, kwargs) := pop "hold" VNone kwargs in
  _ ← (if bool_decide (hold ≠ VNone)
       then b ← lift (as_bool hold); ax_hold ax b
       else mret ());
  ret ← try_finally
          (ret ← SmoothContour_new ax args kwargs;
           _ ← call_world call_draw_if_interactive draw_if_interactive;
           mret ret)
          (ax_hold ax washold);
  _ ← (if _A ret is Some _ then call_world (call_sci ret) (sci ret)
       else mret ());
  mret ret.

Definition smooth_contourf (args : list Value) (kwargs : gmap string Value)
  : M Host ContourSet :=
  let kwargs := <["filled" := VBool true]> kwargs in
  current ← call_world call_gca gca;
  let '(ax, kwargs) := pop "ax" (VAxes current) kwargs in
  ax ← lift (as_axes ax);
  washold ← ax_ishold ax;
  let '(hold, kwargs) := pop "hold" VNone kwargs in
  _ ← (if bool_decide (hold ≠ VNone)
       then b ← lift (as_bool hold); ax_hold ax b
       else mret ());
  ret ← try_finally
          (ret ← SmoothContour_new ax args kwargs;
           _ ← call_world call_draw_if_interactive draw_if_interactive;
           mret ret)
          (ax_hold ax washold);
  _ ← (if _A ret is Some _ then call_world (call_sci ret) (sci ret)
       else mret ());
  mret ret.

(** [smooth_contour] and [smooth_contourf] differ in the flag alone. *)
Definition smooth_contour_with (fill : bool) : list Value → gmap string Value →
                                               M Host ContourSet :=
  if fill then smooth_contourf else smooth_contour.

(** The mask of the points to scatter: one pass of
    [for i, j in zip(wx, wy)]. *)
Definition mark_bin (x y xbins ybins : list Qc) (points_outside : list bool)
    (ij : nat * nat) : result (list bool) :=
  let '(i, j) := ij in
  xlo ← index xbins i;
  xhi ← index xbins (i + 1);
  idx ← np.logical_and ((λ v, bool_decide (xlo ≤ v)%Qc) <$> x)
                       ((λ v, bool_decide (v < xhi)%Qc) <$> x);
  ylo ← index ybins j;
  idx ← np.logical_and idx ((λ v, bool_decide (ylo ≤ v)%Qc) <$> y);
  yhi ← index ybins (j + 1);
  idx ← np.logical_and idx ((λ v, bool_decide (v < yhi)%Qc) <$> y);
  np.logical_or points_outside idx.

Fixpoint mark_bins (x y xbins ybins : list Qc) (points_outside : list bool)
    (w : list (nat * nat)) : result (list bool) :=
  match w with
  | [] => Ok points_outside
  | ij :: w =>
      points_outside ← mark_bin x y xbins ybins points_outside ij;
      mark_bins x y xbins ybins points_outside w
  end.

Definition scatter_contour (x y : list Qc) (levels : Levels) (threshold : Qc)
    (log_counts : bool)
    (histogram2d_args plot_args contour_args : option (gmap string Value))
    (filled_contour : bool) (smooth : option Qc) (ax : option nat)
  : M Host (Value * ContourSet) :=
  let default_plot_args : gmap string Value :=
    {[ "marker" := VStr "."; "linestyle" := VStr "none" ]} in
  let plot_args :=
    match plot_args with
    | Some plot_args => plot_args ∪ default_plot_args
    | None => default_plot_args
    end in
  let histogram2d_args := default ∅ histogram2d_args in
  let contour_args := default ∅ contour_args in
  ax ← match ax with
       | Some ax => mret ax
       | None => call_world call_gca gca
       end;
  '(H, xbins, ybins) ← call (call_histogram2d x y histogram2d_args)
                            (histogram2d x y histogram2d_args);
  let '(H, threshold) :=
    if log_counts
    then ((λ row : list Qc, (λ h : Qc, log10 (1 + h)%Qc) <$> row) <$> H,
          log10 (1 + threshold)%Qc)
    else (H, threshold) in
  levels ← match levels with
           | LevelsInt n =>
               top ← lift (np.max H); lift (np.linspace threshold top n)
           | LevelsArr [v] =>
               top ← lift (np.max H);
               lift (np.linspace threshold top (Qnum v `quot` Z.pos (Qden v)))
           | LevelsArr l => mret l
           end;
  x0 ← lift (index xbins 0);
  x1 ← lift (index xbins (length xbins - 1));
  y0 ← lift (index ybins 0);
  y1 ← lift (index ybins (length ybins - 1));
  let extent := [x0; x1; y0; y1] in
  i_min ← lift (np.argmin levels);
  let '(cont, contf, contour_args) :=
    match smooth with
    | Some smooth =>
        (smooth_contour, smooth_contourf,
         <["ax" := VAxes ax]> (<["smooth" := VFloat smooth]> contour_args))
    | None =>
        (λ args kwargs, call_world (call_contour ax false args kwargs)
                                   (ax_contour ax args kwargs),
         λ args kwargs, call_world (call_contour ax true args kwargs)
                                   (ax_contourf ax args kwargs),
         contour_args)
    end in
  outline ← cont [VArr2 (np.T H); VArr1 (np.slice i_min (i_min + 1) levels)]
                 {[ "linewidths" := VInt 0; "extent" := VList extent ]};
  kwargs ← lift (keywords {[ "extent" := VList extent ]} contour_args);
  contours ← (if filled_contour then contf else cont)
               [VArr2 (np.T H); VArr1 levels] kwargs;
  let points_outside := replicate (length x) false in
  let w := np.where2 (λ h, bool_decide (h < threshold)%Qc && bool_decide (0 < h)%Qc)
                     H in
  points_outside ← lift (mark_bins x y xbins ybins points_outside w);
  xs ← lift (np.compress points_outside x);
  ys ← lift (np.compress points_outside y);
  X ← lift (np.T <$> np.vstack [xs; ys]);
  segs ← lift (index (allsegs outline) 0);
  Xplot ← (if bool_decide (0 < length segs) then
             outer_poly ← lift (index segs 0);
             points_inside ←
               try_except
                 (call (call_contains_points outer_poly X)
                       (contains_points outer_poly X))
                 (call (call_points_inside_poly X outer_poly)
                       (points_inside_poly X outer_poly));
             lift (np.compress (negb <$> points_inside) X)
           else mret X);
  col0 ← lift (np.column 0 Xplot);
  col1 ← lift (np.column 1 Xplot);
  kwargs ← lift (keywords {[ "zorder" := VInt 1 ]} plot_args);
  points ← call_world (call_plot ax col0 col1 kwargs) (ax_plot ax col0 col1 kwargs);
  mret (points, contours).

End Plotting.

(** ** numpy's histogram, as documented *)

(** Whether [v] falls in bin [i] of the bin edges: every bin is half-open,
    [edges[i] <= v < edges[i+1]], but the last, which includes its right
    edge. *)
Definition in_bin (edges : list Qc) (i : nat) (v : Qc) : bool :=
  match edges !! i, edges !! S i with
  | Some lo, Some hi =>
      bool_decide (lo ≤ v)%Qc &&
      (bool_decide (v < hi)%Qc ||
       (bool_decide (S i = length edges - 1) && bool_decide (v = hi)))
  | _, _ => false
  end.

(** The counts of the points [(x[m], y[m])] in the bins of the edges. *)
Definition histogram_counts (xedges yedges x y : list Qc) : list (list Qc) :=
  (λ i,
     (λ j, Qc_of_Z (Z.of_nat (length
             (filter (λ p : Qc * Qc,
                        in_bin xedges i p.1 = true ∧ in_bin yedges j p.2 = true)
                     (zip x y)))))
     <$> seq 0 (length yedges - 1))
  <$> seq 0 (length xedges - 1).

(** The edges of [bins] bins of equal width over the range of the data;
    without data the range is from 0 to 1.  The edges are exact, where
    numpy rounds them to floats. *)
Definition data_edges (bins : Z) (v : list Qc) : result (list Qc) :=
  match v with
  | [] => np.linspace 0 1 (bins + 1)
  | a :: rest =>
      let lo := foldl (λ m u : Qc, if bool_decide (u < m)%Qc then u else m) a rest in
      let hi := foldl (λ m u : Qc, if bool_decide (m < u)%Qc then u else m) a rest in
      if bool_decide (lo = hi)
      then np.linspace (lo - 1 / 2)%Qc (hi + 1 / 2)%Qc (bins + 1)
      else np.linspace lo hi (bins + 1)
  end.

(** [np.histogram2d(x, y, bins=...)] for a number of bins (default 10),
    which must be positive, and the range of the data. *)
Definition numpy_histogram2d (x y : list Qc) (kwargs : gmap string Value)
  : result (list (list Qc) * list Qc * list Qc) :=
  if bool_decide (length x = length y) then
    bins ← as_int (default (VInt 10) (kwargs !! "bins"));
    _ ← (if bool_decide (bins ≤ 0)%Z then Raise ValueError else Ok ());
    xedges ← data_edges bins x;
    yedges ← data_edges bins y;
    mret (histogram_counts xedges yedges x y, xedges, yedges)
  else Raise ValueError.

(** numpy with that histogram and a given logarithm. *)
Definition numpy_with (log10 : Qc → Qc) : Numpy :=
  {| histogram2d := numpy_histogram2d; log10 := log10 |}.

(** ** Notions the properties are stated with *)

(** The number of distinct points of a segment. *)
Definition unique_points (seg : list (list Qc)) : nat :=
  size (list_to_set seg : gset (list Qc)).

(** A segment is closed when its first point occurs again later. *)
Definition closed (seg : list (list Qc)) : bool :=
  match seg with
  | [] => false
  | p :: rest => bool_decide (p ∈ rest)
  end.

(** The number of rows of [unique_vec(seg)[0]]: the distinct points, and
    the first point once more when the segment is closed. *)
Definition useg_length (seg : list (list Qc)) : nat :=
  unique_points seg + (if closed seg then 1 else 0).

(** The pieces a filled path is smoothed in: the stretches from one path
    code 1 to the next, when there are several, and the whole path
    otherwise. *)
Definition pieces (seg : list (list Qc)) (kind : list Qc)
  : list (list (list Qc)) :=
  if bool_decide (1 < np.count_eq kind 1) then
    let ndx := np.where_eq kind 1 ++ [length kind] in
    zip_with (λ lo hi, np.slice lo hi seg) ndx (tail ndx)
  else [seg].

(** A traced list to which no smoothing applies: it holds segments of
    points in the plane and as many arrays of path codes, one code per
    point; no segment is empty; and each line, or each piece of a filled
    path, which starts with the code 1, has at most [k] distinct points,
    the first counted twice when the line or piece is closed. *)
Definition short_trace (self : SmoothContour.t) (nlist : list ndarray) : Prop :=
  ∃ segs kinds,
    nlist = (Arr2 <$> segs) ++ (Arr1 <$> kinds) ∧
    Forall2 (λ seg kind,
      length kind = length seg ∧ seg ≠ [] ∧
      Forall (λ p, length p = 2) seg ∧
      (filled self → kind !! 0 = Some 1%Qc) ∧
      Forall (λ piece, (Z.of_nat (useg_length piece) ≤ k self)%Z)
             (if filled self then pieces seg kind else [seg]))
      segs kinds.

(** What the inner loop of the filled branch needs of a path and its
    breaks. *)
Definition short_pieces (self : Smoothing) (seg : list (list Qc))
  (kind : list Qc) (ndx : list nat) : Prop :=
  length kind = length seg ∧
  Forall (λ p, length p = 2) seg ∧
  Forall (λ x, x ≤ length seg) ndx ∧
  ∀ j lo hi, ndx !! j = Some lo → ndx !! S j = Some hi →
             lo < hi ∧ (Z.of_nat (useg_length (np.slice lo hi seg)) ≤ k self)%Z.

(** The axes a call of [smooth_contour] draws on: the keyword [ax], or the
    current axes. *)
Definition target_axes `{!Matplotlib Host} (kwargs : gmap string Value)
    (w : World Host) : result nat :=
  match kwargs !! "ax" with
  | Some v => as_axes v
  | None => (gca w).1
  end.

(** What matplotlib's [gca] and [sci] leave alone: the hold flags. *)
Class KeepsHolds `{!Matplotlib Host} : Prop := {
  gca_holds : ∀ w, holds (gca w).2 = holds w;
  sci_holds : ∀ cs w, holds (sci cs w).2 = holds w
}.

(** [Q] holds of what [m] returns or raises, of the world it leaves and of
    the calls it logs, from the world [w]. *)
Definition wp {Host A} (m : M Host A) (w : World Host)
    (Q : result A → World Host → list Event → Prop) : Prop :=
  Q (result_of m w) (world_after m w) (new_events m w).


(** The positional arguments and the keywords of a call that draws
    contours: [ax.contour], [ax.contourf], or the [ContourSet] constructor
    that [smooth_contour] and [smooth_contourf] call. *)
Definition contour_inputs (c : Call) : option (list Value * gmap string Value) :=
  match c with
  | call_contour _ _ args kwargs => Some (args, kwargs)
  | call_ContourSet_init _ _ args kwargs => Some (args, kwargs)
  | _ => None
  end.

Definition is_histogram2d (c : Call) : bool :=
  match c with
  | call_histogram2d _ _ _ => true
  | _ => false
  end.

Definition is_plot (c : Call) : bool :=
  match c with
  | call_plot _ _ _ _ => true
  | _ => false
  end.

(** The points of the sparse regions: the [(x[m], y[m])] that fall in a bin
    of the histogram, as the histogram bins them, whose count is positive
    and below the threshold. *)
Definition sparse_points (H : list (list Qc)) (xbins ybins : list Qc)
    (threshold : Qc) (x y : list Qc) : list (Qc * Qc) :=
  let sparse_bins :=
    np.where2 (λ h, bool_decide (0 < h)%Qc && bool_decide (h < threshold)%Qc) H in
  filter (λ p : Qc * Qc,
            existsb (λ ij : nat * nat, in_bin xbins ij.1 p.1 && in_bin ybins ij.2 p.2)
                    sparse_bins = true)
         (zip x y).

(** The density [scatter_contour] contours, and the threshold that goes
    with it: the counts, or their logarithms. *)
Definition density `{!Numpy} (log_counts : bool) (H : list (list Qc))
  : list (list Qc) :=
  if log_counts then (λ row : list Qc, (λ h : Qc, log10 (1 + h)%Qc) <$> row) <$> H
  else H.
Definition density_threshold `{!Numpy} (log_counts : bool) (threshold : Qc) : Qc :=
  if log_counts then log10 (1 + threshold)%Qc else threshold.

(** What a contour call of [scatter_contour] is given, when the histogram
    call returned [(H, xbins, ybins)]: the transposed density, the extent
    of the bin edges and, when [levels] is a number [n], the [n] levels
    from the threshold to the greatest density, or the least of them. *)
Definition density_inputs `{!Numpy} (log_counts : bool) (threshold : Qc)
    (levels : Levels) (H : list (list Qc)) (xbins ybins : list Qc)
    (args : list Value) (kwargs : gmap string Value) : Prop :=
  args !! 0 = Some (VArr2 (np.T (density log_counts H))) ∧
  (∃ x0 x1 y0 y1,
     xbins !! 0 = Some x0 ∧ xbins !! (length xbins - 1) = Some x1 ∧
     ybins !! 0 = Some y0 ∧ ybins !! (length ybins - 1) = Some y1 ∧
     kwargs !! "extent" = Some (VList [x0; x1; y0; y1])) ∧
  (∀ n, levels = LevelsInt n →
     ∃ top all i,
       np.max (density log_counts H) = Ok top ∧
       np.linspace (density_threshold log_counts threshold) top n = Ok all ∧
       (args !! 1 = Some (VArr1 all) ∨
        args !! 1 = Some (VArr1 (np.slice i (i + 1) all)))).

(** The calls [smooth_contour] and [smooth_contourf] make. *)
Definition smooth_contour_call (args : list Value) (kwargs : gmap string Value)
    (c : Call) : Prop :=
  match c with
  | call_gca | call_draw_if_interactive | call_sci _ => True
  | call_ContourSet_init _ _ args' kwargs' =>
      args' = args ∧ ∀ key, key ∉ ["smooth"; "k"; "int_number"; "ax"; "hold"; "filled"] →
                            kwargs' !! key = kwargs !! key
  | _ => False
  end.

(** Every event a computation logs, from whatever world, satisfies [P]. *)
Definition all_events {Host A} (P : Event → Prop) (m : M Host A) : Prop :=
  ∀ w, Forall P (new_events m w).


(** [n] parameter values from 0 on, each a step of [1/(n-1)] after the one
    before. *)
Definition evenly_spaced (l : list Qc) (n : Z) : Prop :=
  length l = Z.to_nat n ∧
  (0 < length l → l !! 0 = Some 0%Qc) ∧
  ∀ i a b, l !! i = Some a → l !! S i = Some b →
           (b - a = 1 / Qc_of_Z (n - 1))%Qc.

(** From every world, [m] yields [r], logs [evs] and leaves the world as
    it is. *)
Definition runs_to {Host A} (m : M Host A) (r : result A) (evs : list Event)
  : Prop :=
  ∀ w, m w = (r, w, evs).

(** [m] only logs: its result and the events it logs are the same from
    every world, and it leaves the world as it is. *)
Definition logs_only {Host A} (m : M Host A) : Prop :=
  ∃ r evs, runs_to m r evs.

Section Fits.
Context `{Scipy}.

(** The arguments of the spline fits of one call. *)
Definition fit_of (self : Smoothing) (useg : list (list Qc)) (per : Z)
  (c : Call) : Prop :=
  match c with
  | call_splprep x s k' per' =>
      (x = np.T useg ∨ x = np.T (reverse useg)) ∧
      s = smooth self ∧ k' = k self ∧ per' = per
  | call_splev u _ => u = unew self ∨ u = reverse (unew self)
  | _ => False
  end.

(** What the smoothed segment is, in terms of what scipy returned. *)
Definition smoothed (self : Smoothing) (useg : list (list Qc)) (per : Z)
  (avg : bool) (seg' : list (list Qc)) : Prop :=
  ∃ tck u arrs,
    splprep (np.T useg) (smooth self) (k self) per = Ok (tck, u) ∧
    splev (unew self) tck = Ok arrs ∧ arrs ≠ [] ∧
    if bool_decide (0 < smooth self)%Qc && avg then
      ∃ tck2 u2 arrs2,
        splprep (np.T (reverse useg)) (smooth self) (k self) per = Ok (tck2, u2) ∧
        splev (reverse (unew self)) tck2 = Ok arrs2 ∧ arrs2 ≠ [] ∧
        np.mean2 (np.T arrs) (np.T arrs2) = Ok seg'
    else seg' = np.T arrs.

(** Where numpy can refuse the arrays scipy returned. *)
Definition misshapen (self : Smoothing) (useg : list (list Qc)) (per : Z)
  : Prop :=
  ∃ tck u arrs,
    splprep (np.T useg) (smooth self) (k self) per = Ok (tck, u) ∧
    splev (unew self) tck = Ok arrs ∧
    (np.vstack arrs = Raise ValueError ∨
     ∃ tck2 u2 arrs2,
       splprep (np.T (reverse useg)) (smooth self) (k self) per = Ok (tck2, u2) ∧
       splev (reverse (unew self)) tck2 = Ok arrs2 ∧
       (np.vstack arrs2 = Raise ValueError ∨
        np.mean2 (np.T arrs) (np.T arrs2) = Raise ValueError)).

End Fits.

(** A stand-in for scipy to run examples with: the curve fitted to points
    is the constant curve at the first of them. *)
Definition constant_spline : Scipy :=
  {| splprep := λ x s k per,
       Ok ({| tck_t := []; tck_c := x; tck_k := k |}, []);
     splev := λ u tck,
       Ok ((λ c : list Qc, (λ _, default 0%Qc (c !! 0)) <$> u) <$> tck_c tck) |}.


(** ** Further notions *)

(** The last occurrence of each point, in order. *)
Fixpoint keep_last (l : list (list Qc)) : list (list Qc) :=
  match l with
  | [] => []
  | p :: l => if bool_decide (p ∈ l) then keep_last l else p :: keep_last l
  end.

(** A computation that makes no library call after one raised, and raises
    what that call raised. *)
Definition stops_at_failure {Host A} (m : M Host A) : Prop :=
  ∀ w i ev e, new_events m w !! i = Some ev → raised ev = Some e →
              S i = length (new_events m w) ∧ result_of m w = Raise e.

Definition is_trace (c : Call) : bool :=
  match c with
  | call_trace _ _ _ => true
  | _ => false
  end.

(** The tracer calls of [QuadContourSet._get_allsegs_and_allkinds]: one for
    each level, in order. *)
Definition trace_calls (self : SmoothContour.t) : list Call :=
  if filled self then
    match _get_lowers_and_uppers self with
    | Ok (lowers, uppers) =>
        (λ lu : Qc * Qc, call_trace lu.1 (Some lu.2) (Some (nchunk self)))
          <$> zip lowers uppers
    | Raise _ => []
    end
  else (λ level, call_trace level None None) <$> levels self.

(** Whether the mask of [scatter_contour] takes the point [p] for the bin
    [(i, j)]: [xbins[i] <= x < xbins[i+1]] and [ybins[j] <= y < ybins[j+1]]. *)
Definition in_mask_bin (xbins ybins : list Qc) (p : Qc * Qc) (ij : nat * nat) : bool :=
  match xbins !! ij.1, xbins !! (ij.1 + 1), ybins !! ij.2, ybins !! (ij.2 + 1) with
  | Some xlo, Some xhi, Some ylo, Some yhi =>
      bool_decide (xlo ≤ p.1)%Qc && bool_decide (p.1 < xhi)%Qc &&
      bool_decide (ylo ≤ p.2)%Qc && bool_decide (p.2 < yhi)%Qc
  | _, _, _, _ => false
  end.

(** The data points the mask takes, in the order of the data: those in a
    bin whose density [D] is positive and below the threshold. *)
Definition masked_points (D : list (list Qc)) (threshold : Qc)
    (xbins ybins x y : list Qc) : list (Qc * Qc) :=
  let w := np.where2 (λ h, bool_decide (h < threshold)%Qc && bool_decide (0 < h)%Qc)
                     D in
  filter (λ p, existsb (in_mask_bin xbins ybins p) w = true) (zip x y).

(** A computation that raises from every world. *)
Definition never_returns {Host A} (m : M Host A) : Prop :=
  ∀ w a, result_of m w ≠ Ok a.

Definition is_gca (c : Call) : bool :=
  match c with
  | call_gca => true
  | _ => false
  end.

(** The constructor of a contour set. *)
Definition is_constructor (c : Call) : bool :=
  match c with
  | call_ContourSet_init _ _ _ _ => true
  | _ => false
  end.

(** A call that draws on the axes [a], or one that draws on none. *)
Definition draws_on (a : nat) (c : Call) : Prop :=
  match c with
  | call_gca | call_ContourSet_init _ _ _ _ => False
  | call_contour ax _ _ _ | call_plot ax _ _ _ => ax = a
  | _ => True
  end.

Section Replaced.
Context `{DictOrder} `{!Scipy} {Host : Type}.

(** The pieces of a filled path with their codes: the stretches from one
    path code 1 to the next. *)
Definition path_pieces (seg : list (list Qc)) (kind : list Qc)
  : list (list (list Qc) * list Qc) :=
  let ndx := np.where_eq kind 1 ++ [length kind] in
  zip_with (λ lo hi, (np.slice lo hi seg, np.slice lo hi kind)) ndx (tail ndx).

(** [_smooth_segs(seg, kind, avg)] returns [(seg', kind')], whatever the
    state of the plotting library. *)
Definition smooth_segs_returns (self : Smoothing) (avg : bool)
    (seg : list (list Qc)) (kind : option (list Qc))
    (seg' : list (list Qc)) (kind' : option (list Qc)) : Prop :=
  ∀ w : World Host, result_of (_smooth_segs self seg kind avg) w = Ok (seg', kind').

Section Relation.
Variable R : bool → list (list Qc) → option (list Qc) →
             list (list Qc) → option (list Qc) → Prop.

(** A traced line and what is put in its place: [R] with averaging. *)
Definition line_replaced (a a' : ndarray) : Prop :=
  ∃ seg seg', a = Arr2 seg ∧ a' = Arr2 seg' ∧ R true seg None seg' None.

(** A traced filled path with its codes and what is put in their place:
    with more than one code 1 the pieces one after the other, each by [R]
    with averaging; otherwise the whole path by [R] without. *)
Definition path_replaced (ab ab' : ndarray * ndarray) : Prop :=
  ∃ seg kind seg' kind',
    ab = (Arr2 seg, Arr1 kind) ∧ ab' = (Arr2 seg', Arr1 kind') ∧
    if bool_decide (1 < np.count_eq kind 1) then
      ∃ outs : list (list (list Qc) * list Qc),
        Forall2 (λ piece out, R true piece.1 (Some piece.2) out.1 (Some out.2))
                (path_pieces seg kind) outs ∧
        seg' = concat outs.*1 ∧ kind' = concat outs.*2
    else R false seg (Some kind) seg' (Some kind').

(** What [_get_allsegs_and_allkinds] returns, level by level and segment
    by segment in the tracer's order: each segment of the first half of
    the tracer's list replaced as [R] says. *)
Definition segments_replaced (self : SmoothContour.t)
    (allsegs : list (list ndarray)) (allkinds : option (list (list ndarray)))
  : Prop :=
  if filled self then
    ∃ lowers uppers ak,
      _get_lowers_and_uppers self = Ok (lowers, uppers) ∧
      allkinds = Some ak ∧ length ak = length allsegs ∧
      Forall2 (λ (lu : Qc * Qc) (sk : list ndarray * list ndarray),
                 ∃ nlist,
                   Cntr_trace self lu.1 (Some lu.2) (Some (nchunk self)) = Ok nlist ∧
                   length sk.1 = length nlist / 2 ∧
                   length sk.2 = length nlist - length nlist / 2 ∧
                   drop (length nlist / 2) sk.2
                     = drop (length nlist / 2) (drop (length nlist / 2) nlist) ∧
                   Forall2 path_replaced
                     (zip (take (length nlist / 2) nlist)
                          (drop (length nlist / 2) nlist))
                     (zip sk.1 sk.2))
              (zip lowers uppers) (zip allsegs ak)
  else
    allkinds = None ∧
    Forall2 (λ level segs',
               ∃ nlist, Cntr_trace self level None None = Ok nlist ∧
                        Forall2 line_replaced (take (length nlist / 2) nlist) segs')
            (levels self) allsegs.

End Relation.

End Replaced.

Section Splines.
Context `{DictOrder} `{!Scipy}.

(** What is put in the place of a segment, and of its path codes if it
    has any: a segment long enough to smooth (its distinct points, plus
    one when it is closed, are more than [k]) is replaced by the spline
    fitted to the points [unique_vec] returns, with the periodic flag set
    exactly when the segment is closed, and its codes by [kinds_fill]; a
    shorter one stays, with its codes. *)
Definition spline_of (self : Smoothing) (avg : bool)
    (seg : list (list Qc)) (kind : option (list Qc))
    (seg' : list (list Qc)) (kind' : option (list Qc)) : Prop :=
  seg ≠ [] ∧
  let per := if closed seg then 1%Z else 0%Z in
  ∃ useg,
    unique_vec seg = Ok (useg, per) ∧
    if bool_decide (k self < Z.of_nat (useg_length seg))%Z
    then smoothed self useg per avg seg' ∧ kind' = (λ _, kinds_fill self) <$> kind
    else seg' = seg ∧ kind' = kind.

End Splines.




(** ** Sample data *)

Definition point (x y : Z) : list Qc := [Qc_of_Z x; Qc_of_Z y].

(** A closed segment of three distinct points. *)
Definition triangle : list (list Qc) :=
  [point 0 0; point 1 0; point 0 1; point 0 0].

(** An open segment of five distinct points. *)
Definition open_path : list (list Qc) :=
  [point 0 0; point 1 0; point 2 1; point 3 1; point 4 0].

(** The attributes [__init__] sets for given keywords. *)
Definition smoothing_of (kwargs : gmap string Value) : Smoothing :=
  match __init__ kwargs with
  | Ok (self, _) => self
  | Raise _ => {| smooth := 0; k := 0; int_number := 0;
                  kinds_fill := []; unew := [] |}
  end.

(** A contour set of one level whose tracer hands out [nlist]. *)
Definition sample_contour (sm : Smoothing) (fill : bool) (nlist : list ndarray)
  : SmoothContour.t :=
  {| smoothing := sm; filled := fill; levels := [1%Qc]; nchunk := 0;
     Cntr_trace := λ _ _ _, Ok nlist;
     _get_lowers_and_uppers := Ok ([1%Qc], [2%Qc]) |}.

(** A filled path of two closed triangles, the second a hole in the
    first. *)
Definition two_triangles : list ndarray :=
  [Arr2 (triangle ++ [point 1 1; point 3 1; point 1 3; point 1 1]);
   Arr1 [1; 2; 2; 2; 1; 2; 2; 2]%Qc].

(** A contour set without segments. *)
Definition no_contours : ContourSet := {| allsegs := [[]]; _A := None; cs_id := 0 |}.

(** A contour set whose one level has the closed triangle as outline. *)
Definition triangle_contours : ContourSet :=
  {| allsegs := [[triangle]]; _A := Some []; cs_id := 1 |}.

(** A stand-in for matplotlib to run examples with: one axes, number 0;
    every contour call returns [cs]; no point is inside a polygon; and
    [Path.contains_points] raises or not as [old] says (an old matplotlib
    has no such method). *)
Definition canvas (cs : ContourSet) (old : bool) : Matplotlib () :=
  {| gca := λ w, (Ok 0, w);
     draw_if_interactive := λ w, (Ok (), w);
     sci := λ _ w, (Ok (), w);
     ContourSet_init := λ _ _ _ _ w, (Ok cs, w);
     ax_contour := λ _ _ _ w, (Ok cs, w);
     ax_contourf := λ _ _ _ w, (Ok cs, w);
     ax_plot := λ _ _ _ _ w, (Ok (VObj 0), w);
     contains_points := λ poly X,
       if old then Raise AttributeError else Ok ((λ _, false) <$> X);
     points_inside_poly := λ X poly, Ok ((λ _, false) <$> X) |}.

(** A matplotlib whose contour construction switches the hold flag of the
    axes off and then fails. *)
Definition failing_canvas : Matplotlib () :=
  {| gca := λ w, (Ok 0, w);
     draw_if_interactive := λ w, (Ok (), w);
     sci := λ _ w, (Ok (), w);
     ContourSet_init := λ _ ax _ _ w,
       (Raise (LibraryError "contour"),
        {| holds := <[ax := false]> (holds w); host := host w |});
     ax_contour := λ _ _ _ w, (Raise (LibraryError "contour"), w);
     ax_contourf := λ _ _ _ w, (Raise (LibraryError "contour"), w);
     ax_plot := λ _ _ _ _ w, (Ok (VObj 0), w);
     contains_points := λ poly X, Ok ((λ _, false) <$> X);
     points_inside_poly := λ X poly, Ok ((λ _, false) <$> X) |}.

(** The keywords of [smooth_contour(z, smooth=1, colors='k', filled=True)]
    and those that reach [ContourSet.__init__]. *)
Definition sample_keywords : gmap string Value :=
  {[ "smooth" := VInt 1; "colors" := VStr "k"; "filled" := VBool true ]}.

(** Three points at the origin, one at [(1, 1)] and one at [(2, 2)]: with
    ten bins a side the edges are [0, 0.2, ..., 2], the bin [(0, 0)] holds
    three points, the bins [(5, 5)] and [(9, 9)] one each. *)
Definition corner_data : list Qc := Qc_of_Z <$> [0; 0; 0; 1; 2]%Z.

(** numpy in the examples: they keep [log_counts] off, and the logarithm
    is never applied. *)
Definition numpy_no_log : Numpy := numpy_with (λ _, 0%Qc).

(** [scatter_contour(x, y, threshold=2)] on that data. *)
Definition scatter_corner_data `{!Matplotlib ()} : M () (Value * ContourSet) :=
  @scatter_contour numpy_no_log () _ corner_data corner_data (LevelsInt 10) 2%Qc
    false None None None true None None.

(** A world with no hold flag set. *)
Definition start : World () := {| holds := ∅; host := () |}.

(** A path that goes back over its second point. *)
Definition retraced_path : list (list Qc) :=
  [point 0 0; point 1 0; point 2 0; point 1 0].

(** [scatter_contour(x, y, threshold=2, smooth=1, ax=1)] on that data, when
    the current axes are the axes 0. *)
Definition scatter_corner_data_smooth `{!Matplotlib ()} : M () (Value * ContourSet) :=
  @scatter_contour numpy_no_log () _ corner_data corner_data (LevelsInt 10) 2%Qc
    false None None None true (Some 1%Qc) (Some 1).

(** What a tracer returns for a level with two lines, the closed triangle
    and the open path: the segments, then their path codes. *)
Definition two_lines : list ndarray :=
  [Arr2 triangle; Arr2 open_path; Arr1 [1; 2; 2; 2]%Qc; Arr1 [1; 2; 2; 2; 2]%Qc].

(** A scipy whose fit fails. *)
Definition failing_spline : Scipy :=
  {| splprep := λ _ _ _ _, Raise (LibraryError "splprep");
     splev := λ _ _, Raise (LibraryError "splev") |}.

(** * Properties *)

Section unique_vec_facts.
Context `{DictOrder}.

Lemma setdefault_then_store k d idx ud :
  <[k := idx]> (setdefault k d ud) = <[k := idx]> ud.
Proof.
  unfold setdefault. destruct (ud !! k); [done|]. apply insert_insert_eq.
Qed.

Lemma unique_vec_loop_snoc A r :
  unique_vec_loop (A ++ [r]) = <[r := length A]> (unique_vec_loop A).
Proof.
  unfold unique_vec_loop. rewrite imap_app, foldl_app. simpl.
  rewrite Nat.add_0_r. apply setdefault_then_store.
Qed.

(** The dictionary holds, for each row, its last index. *)
Lemma unique_vec_loop_lookup A r i :
  unique_vec_loop A !! r = Some i ↔
  A !! i = Some r ∧ ∀ j, i < j → A !! j ≠ Some r.
Proof.
  revert i. induction A as [|x A IH] using rev_ind; intros i.
  - unfold unique_vec_loop. simpl. rewrite lookup_empty.
    split; [done|]. by intros [? _].
  - rewrite unique_vec_loop_snoc. destruct (decide (x = r)) as [->|Hne].
    + rewrite lookup_insert_eq. split.
      * intros [= <-]. split.
        { by rewrite lookup_app_r, Nat.sub_diag by lia. }
        intros j Hj. rewrite lookup_ge_None_2; [done|].
        rewrite length_app. simpl. lia.
      * intros [Hi Hlast]. f_equal.
        destruct (decide (i = length A)) as [|Hn]; [done|].
        exfalso. apply (Hlast (length A)).
        { apply lookup_lt_Some in Hi. rewrite length_app in Hi. simpl in Hi. lia. }
        by rewrite lookup_app_r, Nat.sub_diag by lia.
    + rewrite lookup_insert_ne by done. rewrite IH. split.
      * intros [Hi Hlast]. split.
        { by rewrite lookup_app_l by (by eapply lookup_lt_Some). }
        intros j Hj. destruct (decide (j < length A)).
        { rewrite lookup_app_l by done. by apply Hlast. }
        destruct (decide (j = length A)) as [->|].
        { rewrite lookup_app_r, Nat.sub_diag by lia. simpl. congruence. }
        rewrite lookup_ge_None_2; [done|]. rewrite length_app. simpl. lia.
      * intros [Hi Hlast].
        assert (i < length A).
        { destruct (decide (i < length A)); [done|].
          apply lookup_lt_Some in Hi as Hlt. rewrite length_app in Hlt.
          simpl in Hlt. assert (i = length A) as -> by lia.
          rewrite lookup_app_r, Nat.sub_diag in Hi by lia. simpl in Hi.
          congruence. }
        split.
        { by rewrite lookup_app_l in Hi. }
        intros j Hj Hr. apply (Hlast j Hj).
        rewrite lookup_app_l; [done|]. by eapply lookup_lt_Some.
Qed.

Lemma unique_vec_loop_is_Some A r :
  r ∈ A → is_Some (unique_vec_loop A !! r).
Proof.
  induction A as [|x A IH] using rev_ind; [by intros ?%elem_of_nil|].
  rewrite unique_vec_loop_snoc, elem_of_app, list_elem_of_singleton.
  destruct (decide (x = r)) as [->|Hne].
  - rewrite lookup_insert_eq. eauto.
  - rewrite lookup_insert_ne by done. intros [?|?]; [auto|congruence].
Qed.

Lemma elem_of_dict_values ud i :
  i ∈ dict_values ud ↔ ∃ r, ud !! r = Some i.
Proof.
  rewrite dict_values_perm, list_elem_of_fmap. split.
  - intros [[r j] [-> Hin%elem_of_map_to_list]]. eauto.
  - intros [r Hr]. exists (r, i). by rewrite elem_of_map_to_list.
Qed.

Lemma elem_of_sort l i : i ∈ np.sort l ↔ i ∈ l.
Proof. unfold np.sort. by rewrite merge_sort_Permutation. Qed.

Lemma Sorted_sort l : Sorted Nat.le (np.sort l).
Proof. apply (Sorted_merge_sort Nat.le). Qed.

(** An ascending list of indices starts with 0 exactly when 0 is in it. *)
Lemma Sorted_head_zero l :
  Sorted Nat.le l → l !! 0 = Some 0 ↔ 0 ∈ l.
Proof.
  intros Hs. split; [apply list_elem_of_lookup_2|].
  intros Hin. apply (Sorted_StronglySorted Nat.le) in Hs.
  destruct Hs as [|x l Hs Hall]; [by apply elem_of_nil in Hin|].
  apply elem_of_cons in Hin as [<-|Hin]; [done|].
  rewrite list.Forall_forall in Hall. specialize (Hall 0 Hin).
  simpl. f_equal. unfold Nat.le in Hall. lia.
Qed.

Lemma take_rows_Ok {X} (a : list X) gdx :
  (∀ g, g ∈ gdx → g < length a) →
  ∃ rows, np.take_rows a gdx = Ok rows ∧ length rows = length gdx ∧
          ∀ n g, gdx !! n = Some g → rows !! n = a !! g.
Proof.
  unfold np.take_rows. induction gdx as [|g gdx IH]; intros Hlt.
  - exists []. by split_and!.
  - destruct IH as (rows & Hrows & Hlen & Hnth).
    { intros g' Hg'. apply Hlt. by right. }
    destruct (lookup_lt_is_Some_2 a g) as [x Hx]; [apply Hlt; by left|].
    exists (x :: rows). split_and!.
    + simpl. rewrite Hrows. unfold index. by rewrite Hx.
    + simpl. by rewrite Hlen.
    + intros [|n] g'; simpl; [by intros [= <-]|apply Hnth].
Qed.

(** The indices [unique_vec] sorts: the last index of each distinct row. *)
Lemma elem_of_gdx A i :
  i ∈ np.sort (dict_values (unique_vec_loop A)) ↔
  ∃ r, A !! i = Some r ∧ ∀ j, i < j → A !! j ≠ Some r.
Proof.
  rewrite elem_of_sort, elem_of_dict_values.
  by setoid_rewrite unique_vec_loop_lookup.
Qed.

(** What [unique_vec] returns on a non-empty array. *)
Lemma unique_vec_Ok A :
  A ≠ [] →
  let gdx := np.sort (dict_values (unique_vec_loop A)) in
  ∃ useg per,
    unique_vec A = Ok (useg, per) ∧
    (per = 0%Z ∧ gdx !! 0 = Some 0 ∧ np.take_rows A gdx = Ok useg
     ∨ per = 1%Z ∧ gdx !! 0 ≠ Some 0 ∧ np.take_rows A (0 :: gdx) = Ok useg).
Proof.
  intros HA gdx.
  assert (∀ g, g ∈ gdx → g < length A) as Hlt.
  { intros g (r & Hr & _)%elem_of_gdx. by eapply lookup_lt_Some. }
  assert (∃ g0, gdx !! 0 = Some g0) as [g0 Hg0].
  { destruct A as [|r A]; [done|].
    destruct (unique_vec_loop_is_Some (r :: A) r) as [i Hi]; [by left|].
    assert (i ∈ gdx) as Hin.
    { subst gdx. rewrite elem_of_sort, elem_of_dict_values. eauto. }
    destruct gdx; [by apply elem_of_nil in Hin|]. eauto. }
  unfold unique_vec. fold gdx. unfold index at 1. rewrite Hg0. simpl.
  case_bool_decide as Hz.
  - destruct (take_rows_Ok A (0 :: gdx)) as (useg & Huseg & _).
    { intros g [->|?]%elem_of_cons; [|by auto].
      destruct A; [done|]. simpl. lia. }
    exists useg, 1%Z. rewrite Huseg. split; [done|]. right.
    split_and!; [done| |done]. congruence.
  - destruct (take_rows_Ok A gdx Hlt) as (useg & Huseg & _).
    exists useg, 0%Z. rewrite Huseg. split; [done|]. left.
    split_and!; [done| |done].
    destruct (decide (g0 = 0)) as [->|]; [done|]. by destruct Hz.
Qed.

(** The sorted indices start with 0 unless the first row occurs again. *)
Lemma gdx_head_cases A :
  A ≠ [] →
  let gdx := np.sort (dict_values (unique_vec_loop A)) in
  (gdx !! 0 = Some 0 ∧ ¬ ∃ j, 0 < j ∧ A !! j = A !! 0)
  ∨ (gdx !! 0 ≠ Some 0 ∧ ∃ j, 0 < j ∧ A !! j = A !! 0).
Proof.
  intros HA gdx. destruct A as [|r A]; [done|].
  destruct (unique_vec_loop_is_Some (r :: A) r) as [i Hi]; [by left|].
  pose proof Hi as [Hr Hlast]%unique_vec_loop_lookup.
  rewrite (Sorted_head_zero gdx (Sorted_sort _)).
  subst gdx. rewrite elem_of_gdx. destruct i as [|i].
  - left. split; [eauto|]. intros (j & Hj & Hrec). by apply (Hlast j).
  - right. split.
    + intros (r' & [= <-] & Hlast'). apply (Hlast' (S i)); [lia|done].
    + exists (S i). split; [lia|done].
Qed.

(** C7. On a non-empty array of rows [unique_vec] returns a pair
    [(useg, per)]: the first row of [useg] is the first row of [A], and
    [per] is 1 exactly when the first row of [A] occurs again at a later
    index of [A], and 0 otherwise. *)
Theorem unique_vec_first_row_and_per (A : list (list Qc)) :
  A ≠ [] →
  ∃ useg per,
    unique_vec A = Ok (useg, per) ∧
    useg !! 0 = A !! 0 ∧
    (per = 1%Z ↔ ∃ j, 0 < j ∧ A !! j = A !! 0) ∧
    (¬ (∃ j, 0 < j ∧ A !! j = A !! 0) → per = 0%Z).
Proof.
  intros HA. destruct (unique_vec_Ok A HA) as (useg & per & Hret & Hcase).
  exists useg, per. split; [done|].
  set (gdx := np.sort (dict_values (unique_vec_loop A))) in *.
  destruct (gdx_head_cases A HA) as [[Hh Hno]|[Hh Hrec]]; fold gdx in Hh.
  all: assert (∀ g, g ∈ gdx → g < length A) as Hlt
    by (intros g (r & Hr & _)%elem_of_gdx; by eapply lookup_lt_Some).
  all: destruct Hcase as [(-> & H0 & Hrows)|(-> & H0 & Hrows)]; try done.
  - destruct (take_rows_Ok A gdx Hlt) as (rows & Hrows' & _ & Hnth).
    rewrite Hrows in Hrows'. injection Hrows' as <-.
    split_and!; [by apply Hnth| |done]. by split.
  - destruct (take_rows_Ok A (0 :: gdx)) as (rows & Hrows' & _ & Hnth).
    { intros g [->|?]%elem_of_cons; [|by auto].
      destruct A; [done|]. simpl. lia. }
    rewrite Hrows in Hrows'. injection Hrows' as <-.
    split_and!; [by apply (Hnth 0 0)|by split|done].
Qed.

Lemma unique_vec_nil : unique_vec [] = Raise IndexError.
Proof.
  unfold unique_vec, unique_vec_loop. simpl.
  assert (dict_values ∅ = []) as ->; [|done].
  apply Permutation_nil_r. by rewrite dict_values_perm, map_to_list_empty.
Qed.

Lemma dom_unique_vec_loop A : dom (unique_vec_loop A) = list_to_set A.
Proof.
  induction A as [|x A IH] using rev_ind; [done|].
  rewrite unique_vec_loop_snoc, dom_insert_L, IH, list_to_set_snoc_L.
  apply (comm_L _).
Qed.

Lemma length_gdx A :
  length (np.sort (dict_values (unique_vec_loop A))) = unique_points A.
Proof.
  unfold np.sort, unique_points.
  rewrite merge_sort_Permutation, dict_values_perm, length_fmap.
  by rewrite length_map_to_list, <- dom_unique_vec_loop, size_dom.
Qed.

Lemma closed_recurs A :
  closed A ↔ ∃ j, 0 < j ∧ A !! j = A !! 0 ∧ A ≠ [].
Proof.
  destruct A as [|p rest]; simpl.
  - split; [done|]. by intros (? & ? & ? & ?).
  - rewrite bool_decide_spec, list_elem_of_lookup. split.
    + intros [i Hi]. exists (S i). split_and!; [lia|done|done].
    + intros ([|j] & Hj & Hrec & _); [lia|]. eauto.
Qed.

(** [unique_vec] on a non-empty segment: the flag tells whether it is
    closed, and the rows are points of the segment, beginning with its
    first. *)
Lemma unique_vec_spec A :
  A ≠ [] →
  ∃ useg, unique_vec A = Ok (useg, if closed A then 1%Z else 0%Z) ∧
          length useg = useg_length A ∧
          useg !! 0 = A !! 0 ∧
          ∀ r, r ∈ useg → r ∈ A.
Proof.
  intros HA. destruct (unique_vec_Ok A HA) as (useg & per & Hret & Hcase).
  exists useg.
  set (gdx := np.sort (dict_values (unique_vec_loop A))) in *.
  assert (∀ g, g ∈ gdx → g < length A) as Hlt
    by (intros g (r & Hr & _)%elem_of_gdx; by eapply lookup_lt_Some).
  assert (∀ g, g ∈ 0 :: gdx → g < length A) as Hlt0.
  { intros g [->|?]%elem_of_cons; [|by auto].
    destruct A; [done|]. simpl. lia. }
  assert (∀ gdx', (∀ g, g ∈ gdx' → g < length A) →
            np.take_rows A gdx' = Ok useg →
            length useg = length gdx' ∧ (∀ r, r ∈ useg → r ∈ A) ∧
            ∀ n g, gdx' !! n = Some g → useg !! n = A !! g) as Hrows.
  { intros gdx' Hlt' Heq.
    destruct (take_rows_Ok A gdx' Hlt') as (rows & Hrows' & Hlen & Hnth).
    rewrite Heq in Hrows'. injection Hrows' as <-. split_and!; [done| |done].
    intros r [n Hn]%list_elem_of_lookup.
    destruct (lookup_lt_is_Some_2 gdx' n) as [g Hg].
    { rewrite <- Hlen. by eapply lookup_lt_Some. }
    rewrite (Hnth n g Hg) in Hn. by eapply list_elem_of_lookup_2. }
  unfold useg_length. rewrite <- (length_gdx A). fold gdx.
  destruct (gdx_head_cases A HA) as [[Hh Hno]|[Hh Hrec]]; fold gdx in Hh.
  all: destruct Hcase as [(-> & H0 & Htake)|(-> & H0 & Htake)]; try done.
  - assert (closed A = false) as ->.
    { apply not_true_is_false. intros (j & ? & ? & _)%Is_true_true%closed_recurs.
      apply Hno. eauto. }
    destruct (Hrows gdx Hlt Htake) as (Hlen & Hin & Hnth).
    split_and!; [done|lia|by apply Hnth|done].
  - assert (closed A = true) as ->.
    { apply Is_true_true, closed_recurs. destruct Hrec as (j & ? & ?). eauto. }
    destruct (Hrows (0 :: gdx) Hlt0 Htake) as (Hlen & Hin & Hnth).
    split_and!; [done|simpl in Hlen; lia|by apply (Hnth 0 0)|done].
Qed.

End unique_vec_facts.

(** The order in which the dictionary lists its values does not matter:
    the indices are sorted. *)
Lemma unique_vec_order (d1 d2 : DictOrder) A :
  @unique_vec d1 A = @unique_vec d2 A.
Proof.
  unfold unique_vec.
  assert (np.sort (@dict_values d1 (unique_vec_loop A)) =
          np.sort (@dict_values d2 (unique_vec_loop A))) as ->; [|done].
  apply (Sorted_unique Nat.le); [apply Sorted_merge_sort, _..|].
  unfold np.sort. by rewrite !merge_sort_Permutation, !dict_values_perm.
Qed.

(** ** Arrays *)

Section array_facts.

Lemma length_T r a : length (np.T (r :: a)) = length r.
Proof. unfold np.T. by rewrite length_fmap, length_seq. Qed.

Lemma length_column (a : list (list Qc)) j :
  Forall (λ row, j < length row) a →
  length (omap (λ row : list Qc, row !! j) a) = length a.
Proof.
  induction 1 as [|row a Hj _ IH]; [done|]. simpl.
  destruct (lookup_lt_is_Some_2 row j Hj) as [q ->]. simpl.
  f_equal. exact IH.
Qed.

(** The transpose of [m] rows of length [n] is [n] rows of length [m]. *)
Lemma shape_T (a : list (list Qc)) n :
  a ≠ [] → Forall (λ row, length row = n) a →
  length <$> np.T a = replicate n (length a).
Proof.
  intros Ha Hall. destruct a as [|r a]; [done|]. unfold np.T.
  assert (length r = n) as -> by by inversion Hall.
  rewrite <- (list_fmap_compose _ length).
  rewrite <- (length_seq n 0) at 2. apply const_fmap.
  intros i j [-> Hj]%lookup_seq. apply (length_column (r :: a)).
  eapply list.Forall_impl; [exact Hall|]. simpl. intros row ->. lia.
Qed.

Lemma vstack_Ok r arrs :
  Forall (λ r', length r' = length r) arrs →
  np.vstack (r :: arrs) = Ok (r :: arrs).
Proof. intros Hall. unfold np.vstack. by rewrite bool_decide_eq_true_2. Qed.

Lemma vstack_inv arrs a : np.vstack arrs = Ok a → a = arrs ∧ arrs ≠ [].
Proof.
  unfold np.vstack. destruct arrs; [done|]. case_bool_decide; [|done].
  by intros [= <-].
Qed.

Lemma mean2_length a b c : np.mean2 a b = Ok c → length c = length a.
Proof.
  unfold np.mean2. case_bool_decide as Hshape; [|done]. intros [= <-].
  apply length_zip_with_l_eq.
  by rewrite <- (length_fmap length a), Hshape, length_fmap.
Qed.

Lemma length_linspace a b n l :
  np.linspace a b n = Ok l → length l = Z.to_nat n.
Proof.
  unfold np.linspace. case_bool_decide; [done|].
  case_bool_decide as Hn; intros [= <-].
  - by rewrite Hn.
  - by rewrite length_fmap, length_seq.
Qed.

Lemma slice_app {A} (a b c : nat) (l : list A) :
  a ≤ b ≤ c → np.slice a b l ++ np.slice b c l = np.slice a c l.
Proof.
  intros Habc. unfold np.slice.
  replace (drop b l) with (drop (b - a) (drop a l))
    by (rewrite drop_drop; f_equal; lia).
  rewrite take_take_drop. f_equal. lia.
Qed.

Lemma length_slice {A} (lo hi : nat) (l : list A) :
  hi ≤ length l → length (np.slice lo hi l) = hi - lo.
Proof. intros Hhi. unfold np.slice. rewrite length_take, length_drop. lia. Qed.

Lemma slice_all {A} (l : list A) : np.slice 0 (length l) l = l.
Proof. unfold np.slice. rewrite Nat.sub_0_r. simpl. apply firstn_all. Qed.

(** The breaks of a path, with its length put after them, increase. *)
Lemma breaks_increasing (P : nat → Prop) `{∀ i, Decision (P i)} start len :
  let ndx := filter P (seq start len) ++ [start + len] in
  Forall (λ x, start ≤ x ≤ start + len) ndx ∧
  ∀ j lo hi, ndx !! j = Some lo → ndx !! S j = Some hi → lo < hi.
Proof.
  revert start. induction len as [|len IH]; intros start; simpl.
  - split; [repeat constructor; lia|]. by intros [|j] lo hi.
  - destruct (IH (S start)) as [Hall Hinc].
    assert (Forall (λ x, start ≤ x ≤ S start + len)
              (filter P (seq (S start) len) ++ [S start + len])) as Hall'.
    { eapply list.Forall_impl; [exact Hall|]. simpl. lia. }
    replace (start + S len) with (S start + len) by lia.
    rewrite filter_cons. destruct (decide (P start)); simpl.
    + split; [constructor; [lia|done]|].
      intros [|j] lo hi; simpl; [|apply Hinc].
      intros [= <-] Hhi. apply list_elem_of_lookup_2 in Hhi.
      apply (proj1 (list.Forall_forall _ _) Hall) in Hhi. lia.
    + by split.
Qed.

Lemma where_eq_breaks (a : list Qc) v :
  let ndx := np.where_eq a v ++ [length a] in
  Forall (λ x, x ≤ length a) ndx ∧
  ∀ j lo hi, ndx !! j = Some lo → ndx !! S j = Some hi → lo < hi.
Proof.
  destruct (breaks_increasing (λ i, a !! i = Some v) 0 (length a))
    as [Hall Hinc].
  split; [|exact Hinc].
  eapply list.Forall_impl; [exact Hall|]. simpl. lia.
Qed.

Lemma where_eq_head (a : list Qc) v :
  a !! 0 = Some v → (np.where_eq a v ++ [length a]) !! 0 = Some 0.
Proof.
  intros Ha. unfold np.where_eq. destruct a as [|q a]; [done|]. simpl.
  rewrite filter_cons. by rewrite decide_True.
Qed.

Lemma linspace_evenly_spaced n l :
  np.linspace 0 1 n = Ok l → evenly_spaced l n.
Proof.
  intros Hl. split; [by eapply length_linspace|]. revert Hl.
  unfold np.linspace. case_bool_decide; [done|].
  case_bool_decide as Hn; intros [= <-].
  - split; [done|]. by intros [|i] a b.
  - split.
    + rewrite length_fmap, length_seq. intros Hpos.
      rewrite list_lookup_fmap, lookup_seq_lt by done. simpl. f_equal.
    + intros i a b. rewrite !list_lookup_fmap.
      intros (j & [-> _]%lookup_seq & ->)%fmap_Some.
      intros (j' & [-> _]%lookup_seq & ->)%fmap_Some. simpl plus.
      rewrite Nat2Z.inj_succ, <- Z.add_1_r, Z2Qc_inj_add, Z2Qc_inj_1.
      unfold Qcdiv. ring.
Qed.

End array_facts.

(** *** Masks and columns *)

Lemma index_Ok {A} (l : list A) i a : index l i = Ok a → l !! i = Some a.
Proof. unfold index. by destruct (l !! i); intros [= <-]. Qed.

(** The transpose of two rows of one length: the pairs, as rows. *)
Lemma T_two (xs ys : list Qc) :
  length ys = length xs → np.T [xs; ys] = zip_with (λ u v, [u; v]) xs ys.
Proof.
  intros Hlen. unfold np.T. apply list_eq. intros n.
  rewrite list_lookup_fmap, lookup_zip_with.
  destruct (decide (n < length xs)) as [Hn|Hn].
  - rewrite lookup_seq_lt by done. simpl.
    destruct (lookup_lt_is_Some_2 xs n Hn) as [u ->].
    destruct (lookup_lt_is_Some_2 ys n) as [v ->]; [lia|done].
  - rewrite lookup_seq_ge by lia. by rewrite (lookup_ge_None_2 xs) by lia.
Qed.

Lemma compress_length {A} mask (a a' : list A) :
  np.compress mask a = Ok a' → length mask = length a.
Proof. unfold np.compress. by case_bool_decide. Qed.

Lemma compress_subseteq {A} mask (a a' : list A) :
  np.compress mask a = Ok a' → a' ⊆ a.
Proof.
  unfold np.compress. case_bool_decide; [|done]. intros [= <-] v Hv.
  apply list_elem_of_fmap in Hv as ([b v'] & -> & Hv).
  apply list_elem_of_filter in Hv as [_ Hv]. by eapply elem_of_zip_r.
Qed.

Lemma compress_same_length {A B} mask (a a' : list A) (b b' : list B) :
  np.compress mask a = Ok a' → np.compress mask b = Ok b' → length b' = length a'.
Proof.
  unfold np.compress.
  case_bool_decide as Ha; [|done]. case_bool_decide as Hb; [|done].
  intros [= <-] [= <-]. rewrite !length_fmap.
  revert a b Ha Hb. induction mask as [|h mask IH]; intros [|u a] [|v b] ? ?;
    try done. simpl in *. destruct h.
  - rewrite !filter_cons_True by done. simpl. f_equal. apply IH; lia.
  - rewrite !filter_cons_False by done. apply IH; lia.
Qed.

(** The rows of [np.vstack([a[mask], b[mask]]).T] are the pairs at the
    indices where the mask holds. *)
Lemma compress_rows mask (a b : list Qc) :
  length mask = length a → length mask = length b →
  Forall (λ row, ∃ m u v, row = [u; v] ∧ mask !! m = Some true ∧
                          a !! m = Some u ∧ b !! m = Some v)
         (zip_with (λ u v, [u; v])
            (filter (λ p : bool * Qc, p.1 = true) (zip mask a)).*2
            (filter (λ p : bool * Qc, p.1 = true) (zip mask b)).*2).
Proof.
  revert a b. induction mask as [|h mask IH]; intros [|u a] [|v b] Ha Hb;
    try done; [by constructor..|].
  simpl in Ha, Hb. specialize (IH a b ltac:(lia) ltac:(lia)). simpl.
  assert (Forall (λ row, ∃ m u0 v0, row = [u0; v0] ∧ (h :: mask) !! m = Some true ∧
                                    (u :: a) !! m = Some u0 ∧ (v :: b) !! m = Some v0)
            (zip_with (λ u v, [u; v])
               (filter (λ p : bool * Qc, p.1 = true) (zip mask a)).*2
               (filter (λ p : bool * Qc, p.1 = true) (zip mask b)).*2)) as IH'.
  { eapply list.Forall_impl; [exact IH|]. intros row (m & u0 & v0 & ? & ? & ? & ?).
    by exists (S m), u0, v0. }
  destruct h.
  - rewrite !filter_cons_True by done. simpl. constructor; [|done].
    by exists 0, u, v.
  - by rewrite !filter_cons_False by done.
Qed.

Lemma column_Ok j (a : list (list Qc)) col :
  np.column j a = Ok col → Forall2 (λ row c, row !! j = Some c) a col.
Proof.
  unfold np.column. revert col. induction a as [|row a IH]; intros col; simpl.
  - intros [= <-]. constructor.
  - destruct (index row j) as [c|] eqn:Hc; [|done]. simpl.
    destruct (mapM _ a) as [col'|]; [|done]. simpl. intros [= <-].
    constructor; [by apply index_Ok|by apply IH].
Qed.

(** The points handed to [ax.plot] are data points that the mask holds. *)
Lemma scattered_points (x y : list Qc) po xs ys X Xplot col0 col1 p :
  np.compress po x = Ok xs → np.compress po y = Ok ys →
  np.T <$> np.vstack [xs; ys] = Ok X → Xplot ⊆ X →
  np.column 0 Xplot = Ok col0 → np.column 1 Xplot = Ok col1 →
  p ∈ zip col0 col1 →
  ∃ m, po !! m = Some true ∧ x !! m = Some p.1 ∧ y !! m = Some p.2.
Proof.
  intros Hxs Hys HX Hsub Hcol0 Hcol1 Hp.
  pose proof (compress_length _ _ _ Hxs) as Hlx.
  pose proof (compress_length _ _ _ Hys) as Hly.
  destruct (np.vstack [xs; ys]) as [a|] eqn:Hstack; [|done].
  apply vstack_inv in Hstack as [-> _].
  assert (X = np.T [xs; ys]) as -> by (by injection HX).
  pose proof (compress_same_length _ _ _ _ _ Hxs Hys) as Hlen.
  rewrite T_two in Hsub by done.
  apply column_Ok in Hcol0, Hcol1.
  apply list_elem_of_lookup in Hp as [n Hn].
  apply lookup_zip_with_Some in Hn as (a & b & -> & Ha & Hb).
  destruct (Forall2_lookup_r _ _ _ _ _ Hcol0 Ha) as (row & Hrow & Ha').
  destruct (Forall2_lookup_r _ _ _ _ _ Hcol1 Hb) as (row' & Hrow' & Hb').
  assert (row' = row) as -> by congruence.
  assert (row ∈ zip_with (λ u v : Qc, [u; v]) xs ys) as Hin
    by (apply Hsub; by eapply list_elem_of_lookup_2).
  revert Hxs Hys Hin. unfold np.compress. rewrite !bool_decide_eq_true_2 by done.
  intros [= <-] [= <-] Hin.
  pose proof (compress_rows po x y Hlx Hly) as Hrows.
  rewrite list.Forall_forall in Hrows.
  destruct (Hrows _ Hin) as (m & u & v & -> & ? & ? & ?).
  exists m. simpl in *. by simplify_eq.
Qed.

(** ** [__init__] *)

Section init_facts.

(** What [__init__] leaves in the object and in the keywords. *)
Lemma init_Ok kwargs self kwargs' :
  __init__ kwargs = Ok (self, kwargs') →
  as_float (default (VInt 0) (kwargs !! "smooth")) = Ok (smooth self) ∧
  as_int (default (VInt 3) (kwargs !! "k")) = Ok (k self) ∧
  as_int (default (VInt 100) (kwargs !! "int_number")) = Ok (int_number self) ∧
  (1 ≤ int_number self)%Z ∧
  kinds_fill self = 1%Qc :: replicate (Z.to_nat (int_number self) - 1) 2%Qc ∧
  np.linspace 0 1 (int_number self) = Ok (unew self) ∧
  kwargs' = delete "int_number" (delete "k" (delete "smooth" kwargs)).
Proof.
  unfold __init__, pop.
  rewrite !lookup_delete_ne by done.
  destruct (as_float _) as [sm|] eqn:Hsm; [|done].
  destruct (as_int (default (VInt 3) _)) as [kk|] eqn:Hk; [|done].
  destruct (as_int (default (VInt 100) _)) as [n|] eqn:Hn; [|done].
  simpl. unfold np.ones. case_bool_decide as Hneg; [done|]. simpl.
  destruct (Z.to_nat n) as [|n'] eqn:Hn'; [done|]. simpl.
  destruct (np.linspace 0 1 n) as [un|] eqn:Hun; [|done]. simpl.
  intros [= <- <-]. simpl. rewrite Hn'. simpl. rewrite Nat.sub_0_r.
  split_and!; try done; try lia. f_equal.
  change (list_fmap Qc Qc ?f ?l) with (f <$> l).
  by rewrite fmap_replicate.
Qed.

Lemma init_length_unew kwargs self kwargs' :
  __init__ kwargs = Ok (self, kwargs') →
  length (unew self) = Z.to_nat (int_number self).
Proof.
  intros (_ & _ & _ & _ & _ & Hun & _)%init_Ok. by eapply length_linspace.
Qed.

End init_facts.

(** ** Computations that only log *)

Section runs_to_facts.
Context {Host : Type}.

Lemma runs_to_ret {A} (a : A) : runs_to (Host:=Host) (mret a) (Ok a) [].
Proof. by intros w. Qed.

Lemma runs_to_lift {A} (r : result A) : runs_to (Host:=Host) (lift r) r [].
Proof. by intros w. Qed.

Lemma runs_to_call {A} c (r : result A) :
  runs_to (Host:=Host) (call c r) r [{| called := c; raised := exn_of r |}].
Proof. by intros w. Qed.

Lemma runs_to_bind_Ok {A B} (m : M Host A) (f : A → M Host B) a r evs1 evs2 :
  runs_to m (Ok a) evs1 → runs_to (f a) r evs2 →
  runs_to (m ≫= f) r (evs1 ++ evs2).
Proof. intros Hm Hf w. unfold mbind, M_bind. by rewrite Hm, Hf. Qed.

Lemma runs_to_bind_Raise {A B} (m : M Host A) (f : A → M Host B) e evs :
  runs_to m (Raise e) evs → runs_to (m ≫= f) (Raise e) evs.
Proof. intros Hm w. unfold mbind, M_bind. by rewrite Hm. Qed.

Lemma runs_to_new_events {A} (m : M Host A) r evs w :
  runs_to m r evs → result_of m w = r ∧ new_events m w = evs.
Proof. intros Hm. unfold result_of, new_events. by rewrite Hm. Qed.

Lemma logs_only_ret {A} (a : A) : logs_only (Host:=Host) (mret a).
Proof. eexists _, _. apply runs_to_ret. Qed.

Lemma logs_only_lift {A} (r : result A) : logs_only (Host:=Host) (lift r).
Proof. eexists _, _. apply runs_to_lift. Qed.

Lemma logs_only_call {A} c (r : result A) : logs_only (Host:=Host) (call c r).
Proof. eexists _, _. apply runs_to_call. Qed.

Lemma logs_only_bind {A B} (m : M Host A) (f : A → M Host B) :
  logs_only m → (∀ a, logs_only (f a)) → logs_only (m ≫= f).
Proof.
  intros ([a|e] & evs & Hm) Hf.
  - destruct (Hf a) as (r & evs' & Hfa). eexists _, _.
    by eapply runs_to_bind_Ok.
  - eexists _, _. by eapply runs_to_bind_Raise.
Qed.

Lemma logs_only_for_each {A V} (body : V → A → M Host V) l vars :
  (∀ vars a, logs_only (body vars a)) → logs_only (for_each body l vars).
Proof.
  intros Hbody. revert vars. induction l as [|a l IH]; intros vars; simpl.
  - apply logs_only_ret.
  - apply logs_only_bind; [apply Hbody|apply IH].
Qed.

(** Two computations that only log agree from any two states as soon as
    they agree from one. *)
Lemma logs_only_agree {A} (m1 m2 : M Host A) (s1 s2 : World Host) :
  logs_only m1 → (∀ s, m1 s = m2 s) →
  result_of m1 s1 = result_of m2 s2 ∧ new_events m1 s1 = new_events m2 s2.
Proof.
  intros (r & evs & Hm) Heq.
  assert (runs_to m2 r evs) as Hm2 by (intros s; by rewrite <- Heq).
  destruct (runs_to_new_events _ _ _ s1 Hm) as [-> ->].
  by destruct (runs_to_new_events _ _ _ s2 Hm2) as [-> ->].
Qed.

Lemma bind_ext {A B} (m1 m2 : M Host A) (f1 f2 : A → M Host B) s :
  (∀ s, m1 s = m2 s) → (∀ a s, f1 a s = f2 a s) →
  (m1 ≫= f1) s = (m2 ≫= f2) s.
Proof.
  intros Hm Hf. unfold mbind, M_bind. rewrite Hm.
  destruct (m2 s) as [[[a|e] s'] evs]; [by rewrite Hf|done].
Qed.

Lemma for_each_ext {A V} (body1 body2 : V → A → M Host V) l vars s :
  (∀ vars a s, body1 vars a s = body2 vars a s) →
  for_each body1 l vars s = for_each body2 l vars s.
Proof.
  intros Hbody. revert vars s. induction l as [|a l IH]; intros vars s; simpl.
  - done.
  - apply bind_ext; [apply Hbody|apply IH].
Qed.

Lemma bind_unchanged {A B} (m : M Host A) (f : A → M Host B) a s :
  runs_to m (Ok a) [] → (m ≫= f) s = f a s.
Proof.
  intros Hm. unfold mbind, M_bind. rewrite Hm. by destruct (f a s) as [[??]?].
Qed.

Lemma bind_call_ext {A B} c (r : result A) (f1 f2 : A → M Host B) s :
  (∀ a s, r = Ok a → f1 a s = f2 a s) →
  (call c r ≫= f1) s = (call c r ≫= f2) s.
Proof.
  intros Hf. unfold mbind, M_bind, call.
  destruct r as [a|e]; [by rewrite Hf|done].
Qed.

End runs_to_facts.

(** ** [_smooth_segs] *)

(** One step of a computation whose library results are known. *)
Ltac run_step :=
  cbn [fmap result_fmap];
  lazymatch goal with
  | |- runs_to (mret _) _ _ => apply runs_to_ret
  | |- runs_to (lift _) _ _ => apply runs_to_lift
  | |- runs_to (call _ _) _ _ => apply runs_to_call
  | |- runs_to (lift (Ok _) ≫= _) _ _ =>
      eapply runs_to_bind_Ok; [apply runs_to_lift|]; cbn beta iota
  | |- runs_to (lift (Raise _) ≫= _) _ _ =>
      eapply runs_to_bind_Raise; apply runs_to_lift
  | |- runs_to (call _ (Ok _) ≫= _) _ _ =>
      eapply runs_to_bind_Ok; [apply runs_to_call|]; cbn beta iota
  | |- runs_to (call _ (Raise _) ≫= _) _ _ =>
      eapply runs_to_bind_Raise; apply runs_to_call
  end.

Ltac fits_done :=
  simpl; repeat (apply Forall_cons; [simpl; by auto 6|]); by apply Forall_nil.

Section smooth_segs_facts.
Context `{DictOrder} `{Scipy} {Host : Type}.
Implicit Types (self : Smoothing) (seg useg : list (list Qc)).
Implicit Types (kind : option (list Qc)) (avg : bool).

(** Too short to smooth: nothing is called, nothing changes. *)
Lemma smooth_segs_short self seg kind avg useg per :
  unique_vec seg = Ok (useg, per) →
  (Z.of_nat (length useg) ≤ k self)%Z →
  runs_to (Host:=Host) (_smooth_segs self seg kind avg) (Ok (seg, kind)) [].
Proof.
  intros Huv Hk s. unfold _smooth_segs. rewrite Huv.
  unfold mbind, M_bind, lift. simpl.
  by rewrite bool_decide_eq_false_2 by lia.
Qed.

(** An empty segment: [unique_vec] raises. *)
Lemma smooth_segs_empty self kind avg :
  runs_to (Host:=Host) (_smooth_segs self [] kind avg) (Raise IndexError) [].
Proof.
  unfold _smooth_segs. by rewrite unique_vec_nil.
Qed.

(** Long enough to smooth. *)
Lemma smooth_segs_long self seg kind avg useg per :
  unique_vec seg = Ok (useg, per) →
  (k self < Z.of_nat (length useg))%Z →
  ∃ r evs,
    runs_to (Host:=Host) (_smooth_segs self seg kind avg) r evs ∧
    (∃ out, evs !! 0 = Some {| called := call_splprep (np.T useg) (smooth self)
                                                       (k self) per;
                               raised := out |}) ∧
    Forall (λ ev, fit_of self useg per (called ev)) evs ∧
    match r with
    | Ok (seg', kind') =>
        kind' = (λ _, kinds_fill self) <$> kind ∧ smoothed self useg per avg seg'
    | Raise e =>
        (∃ ev, ev ∈ evs ∧ raised ev = Some e) ∨
        (e = ValueError ∧ misshapen self useg per)
    end.
Proof.
  intros Huv Hk. unfold _smooth_segs, smoothed, misshapen. rewrite Huv.
  destruct (splprep (np.T useg) _ _ _) as [[tck u]|e] eqn:Hfit.
  2:{ eexists _, _. split; [run_step; rewrite bool_decide_eq_true_2 by lia;
                            rewrite Hfit; run_step|].
      split_and!; [by eexists|fits_done|..].
      left. eexists. split; [by left|done]. }
  destruct (splev (unew self) tck) as [arrs|e] eqn:Hev.
  2:{ eexists _, _. split; [run_step; rewrite bool_decide_eq_true_2 by lia;
                            rewrite Hfit; run_step; rewrite Hev; run_step|].
      split_and!; [by eexists|fits_done|..].
      left. eexists. split; [right; by left|done]. }
  destruct (np.vstack arrs) as [a|e] eqn:Hst.
  2:{ eexists _, _. split; [run_step; rewrite bool_decide_eq_true_2 by lia;
                            rewrite Hfit; run_step; rewrite Hev; run_step;
                            rewrite Hst; run_step|].
      split_and!; [by eexists|fits_done|..].
      right. assert (e = ValueError) as ->.
      { unfold np.vstack in Hst. destruct arrs; [by injection Hst|].
        case_bool_decide; [done|by injection Hst]. }
      split; [done|]. eexists _, _, _. eauto. }
  apply vstack_inv in Hst as Hst'. destruct Hst' as [-> Hne].
  destruct (bool_decide (0 < smooth self)%Qc && avg) eqn:Havg.
  2:{ eexists _, _. split; [run_step; rewrite bool_decide_eq_true_2 by lia;
                            rewrite Hfit; run_step; rewrite Hev; run_step;
                            rewrite Hst; run_step;
                            eapply runs_to_bind_Ok; [apply runs_to_ret|];
                            simpl; run_step|].
      split_and!; [by eexists|fits_done|..].
      { by destruct kind. }
      eexists _, _, _. split_and!; eauto. }
  destruct (splprep (np.T (reverse useg)) _ _ _) as [[tck2 u2]|e] eqn:Hfit2.
  2:{ eexists _, _. split; [run_step; rewrite bool_decide_eq_true_2 by lia;
                            rewrite Hfit; run_step; rewrite Hev; run_step;
                            rewrite Hst; run_step; rewrite Hfit2;
                            eapply runs_to_bind_Raise; run_step|].
      split_and!; [by eexists|fits_done|..].
      left. eexists. split; [do 2 right; by left|done]. }
  destruct (splev (reverse (unew self)) tck2) as [arrs2|e] eqn:Hev2.
  2:{ eexists _, _. split; [run_step; rewrite bool_decide_eq_true_2 by lia;
                            rewrite Hfit; run_step; rewrite Hev; run_step;
                            rewrite Hst; run_step; rewrite Hfit2;
                            eapply runs_to_bind_Raise; run_step;
                            rewrite Hev2; run_step|].
      split_and!; [by eexists|fits_done|..].
      left. eexists. split; [do 3 right; by left|done]. }
  destruct (np.vstack arrs2) as [a2|e] eqn:Hst2.
  2:{ eexists _, _. split; [run_step; rewrite bool_decide_eq_true_2 by lia;
                            rewrite Hfit; run_step; rewrite Hev; run_step;
                            rewrite Hst; run_step; rewrite Hfit2;
                            eapply runs_to_bind_Raise; run_step;
                            rewrite Hev2; run_step; rewrite Hst2; run_step|].
      split_and!; [by eexists|fits_done|..].
      right. assert (e = ValueError) as ->.
      { unfold np.vstack in Hst2. destruct arrs2; [by injection Hst2|].
        case_bool_decide; [done|by injection Hst2]. }
      split; [done|]. eexists _, _, _. split_and!; [done..|].
      right. eexists _, _, _. eauto. }
  apply vstack_inv in Hst2 as Hst2'. destruct Hst2' as [-> Hne2].
  destruct (np.mean2 (np.T arrs) (np.T arrs2)) as [m|e] eqn:Hmean.
  2:{ eexists _, _. split; [run_step; rewrite bool_decide_eq_true_2 by lia;
                            rewrite Hfit; run_step; rewrite Hev; run_step;
                            rewrite Hst; run_step; rewrite Hfit2;
                            eapply runs_to_bind_Raise; run_step;
                            rewrite Hev2; run_step; rewrite Hst2; run_step;
                            rewrite Hmean; run_step|].
      split_and!; [by eexists|fits_done|..].
      right. assert (e = ValueError) as ->.
      { unfold np.mean2 in Hmean. case_bool_decide; [done|by injection Hmean]. }
      split; [done|]. eexists _, _, _. split_and!; [done..|].
      right. eexists _, _, _. eauto. }
  eexists _, _. split; [run_step; rewrite bool_decide_eq_true_2 by lia;
                        rewrite Hfit; run_step; rewrite Hev; run_step;
                        rewrite Hst; run_step; rewrite Hfit2;
                        eapply runs_to_bind_Ok;
                        [run_step; rewrite Hev2; run_step; rewrite Hst2;
                         run_step; rewrite Hmean; run_step|run_step]|].
  split_and!; [by eexists|fits_done|..].
  { by destruct kind. }
  eexists _, _, _. split_and!; [done..|].
  eexists _, _, _. split_and!; eauto.
Qed.

(** Every call of [_smooth_segs] only logs. *)
Lemma smooth_segs_runs self seg kind avg :
  ∃ r evs, runs_to (Host:=Host) (_smooth_segs self seg kind avg) r evs.
Proof.
  destruct seg as [|p seg]; [eexists _, _; apply smooth_segs_empty|].
  destruct (unique_vec_spec (p :: seg)) as (useg & Huv & _); [done|].
  destruct (decide (k self < Z.of_nat (length useg))%Z).
  - destruct (smooth_segs_long self (p :: seg) kind avg _ _ Huv)
      as (r & evs & Hrun & _); eauto.
  - eexists _, _. eapply smooth_segs_short; [done|lia].
Qed.

End smooth_segs_facts.

(** ** The order of the dictionary and the state do not matter *)

Section order_facts.
Context `{!Scipy} {Host : Type}.
Implicit Types (self : Smoothing) (s : World Host).

Lemma smooth_segs_order (d1 d2 : DictOrder) self seg kind avg s :
  @_smooth_segs d1 _ Host self seg kind avg s =
  @_smooth_segs d2 _ Host self seg kind avg s.
Proof. unfold _smooth_segs. by rewrite (unique_vec_order d1 d2). Qed.

Lemma smooth_pieces_order (d1 d2 : DictOrder) self seg kind ndx s :
  @smooth_pieces d1 _ Host self seg kind ndx s =
  @smooth_pieces d2 _ Host self seg kind ndx s.
Proof.
  unfold smooth_pieces. apply for_each_ext. intros tmp j s'.
  unfold smooth_piece.
  repeat (apply bind_ext; [done|]; intros ? ?).
  apply bind_ext; [apply smooth_segs_order|done].
Qed.

Lemma smooth_filled_order (d1 d2 : DictOrder) self vars i s :
  @smooth_filled d1 _ Host self vars i s = @smooth_filled d2 _ Host self vars i s.
Proof.
  unfold smooth_filled. destruct vars as [segs kinds].
  apply bind_ext; [done|]. intros kinds_i s'. case_bool_decide.
  - apply bind_ext; [done|]. intros segs_i s''.
    apply bind_ext; [apply smooth_pieces_order|done].
  - apply bind_ext; [done|]. intros segs_i s''.
    apply bind_ext; [apply smooth_segs_order|done].
Qed.

Lemma smooth_lines_order (d1 d2 : DictOrder) self vars i s :
  @smooth_lines d1 _ Host self vars i s = @smooth_lines d2 _ Host self vars i s.
Proof.
  unfold smooth_lines. destruct vars as [segs kinds].
  apply bind_ext; [done|]. intros segs_i s'.
  apply bind_ext; [apply smooth_segs_order|done].
Qed.

Lemma get_allsegs_and_allkinds_order (d1 d2 : DictOrder) (self : SmoothContour.t) s :
  @_get_allsegs_and_allkinds d1 _ Host self s =
  @_get_allsegs_and_allkinds d2 _ Host self s.
Proof.
  unfold _get_allsegs_and_allkinds. destruct (filled self).
  - apply bind_ext; [done|]. intros [lowers uppers] s'.
    apply bind_ext; [|done]. intros s''. apply for_each_ext.
    intros [allsegs allkinds] [level level_upper] s3.
    apply bind_ext; [done|]. intros nlist s4.
    apply bind_ext; [|done]. intros s5. apply for_each_ext.
    intros. apply smooth_filled_order.
  - apply bind_ext; [|done]. intros s'. apply for_each_ext.
    intros allsegs level s3.
    apply bind_ext; [done|]. intros nlist s4.
    apply bind_ext; [|done]. intros s5. apply for_each_ext.
    intros. apply smooth_lines_order.
Qed.

Context `{!DictOrder}.

Lemma smooth_pieces_logs_only self seg kind ndx :
  logs_only (Host:=Host) (smooth_pieces self seg kind ndx).
Proof.
  unfold smooth_pieces. apply logs_only_for_each. intros tmp j.
  unfold smooth_piece.
  repeat (apply logs_only_bind; [apply logs_only_lift|]; intros ?).
  apply logs_only_bind; [apply smooth_segs_runs|]. intros [s' k'].
  case_bool_decide; [apply logs_only_ret|].
  destruct tmp as [[segs_tmp [kinds_tmp|]]|]; try apply logs_only_lift.
  repeat (apply logs_only_bind; [apply logs_only_lift|]; intros ?).
  apply logs_only_ret.
Qed.

Lemma smooth_filled_logs_only self vars i :
  logs_only (Host:=Host) (smooth_filled self vars i).
Proof.
  unfold smooth_filled. destruct vars as [segs kinds].
  apply logs_only_bind; [apply logs_only_lift|]. intros kinds_i.
  case_bool_decide.
  - apply logs_only_bind; [apply logs_only_lift|]. intros segs_i.
    apply logs_only_bind; [apply smooth_pieces_logs_only|].
    intros [[segs_tmp [kinds_tmp|]]|];
      first [apply logs_only_ret|apply logs_only_lift].
  - apply logs_only_bind; [apply logs_only_lift|]. intros segs_i.
    apply logs_only_bind; [apply smooth_segs_runs|].
    intros [s' [k'|]]; first [apply logs_only_ret|apply logs_only_lift].
Qed.

Lemma smooth_lines_logs_only self vars i :
  logs_only (Host:=Host) (smooth_lines self vars i).
Proof.
  unfold smooth_lines. destruct vars as [segs kinds].
  apply logs_only_bind; [apply logs_only_lift|]. intros segs_i.
  apply logs_only_bind; [apply smooth_segs_runs|]. intros [s' k'].
  apply logs_only_ret.
Qed.

Lemma get_allsegs_and_allkinds_logs_only (self : SmoothContour.t) :
  logs_only (Host:=Host) (_get_allsegs_and_allkinds self).
Proof.
  unfold _get_allsegs_and_allkinds. destruct (filled self).
  - apply logs_only_bind; [apply logs_only_call|]. intros [lowers uppers].
    apply logs_only_bind; [|intros [? ?]; apply logs_only_ret].
    apply logs_only_for_each. intros [allsegs allkinds] [level level_upper].
    apply logs_only_bind; [apply logs_only_call|]. intros nlist.
    apply logs_only_bind; [|intros [? ?]; apply logs_only_ret].
    apply logs_only_for_each. intros. apply smooth_filled_logs_only.
  - apply logs_only_bind; [|intros ?; apply logs_only_ret].
    apply logs_only_for_each. intros allsegs level.
    apply logs_only_bind; [apply logs_only_call|]. intros nlist.
    apply logs_only_bind; [|intros [? ?]; apply logs_only_ret].
    apply logs_only_for_each. intros. apply smooth_lines_logs_only.
Qed.

End order_facts.

(** ** When no smoothing applies *)

Section unsmoothed.
Context `{!DictOrder} `{!Scipy} {Host : Type}.
Implicit Types (self : Smoothing) (seg : list (list Qc)) (kind : list Qc).

Lemma smooth_segs_unchanged self seg okind avg :
  seg ≠ [] → (Z.of_nat (useg_length seg) ≤ k self)%Z →
  runs_to (Host:=Host) (_smooth_segs self seg okind avg) (Ok (seg, okind)) [].
Proof.
  intros Hne Hk. destruct (unique_vec_spec seg Hne) as (useg & Huv & Hlen & _).
  eapply smooth_segs_short; [done|]. by rewrite Hlen.
Qed.

Lemma for_each_unchanged {A V} (body : V → A → M Host V) l vars :
  (∀ a, a ∈ l → runs_to (body vars a) (Ok vars) []) →
  runs_to (for_each body l vars) (Ok vars) [].
Proof.
  induction l as [|a l IH]; intros Hbody; simpl; [apply runs_to_ret|].
  apply (runs_to_bind_Ok _ _ vars _ [] []).
  - apply Hbody. by left.
  - apply IH. intros a' Ha'. apply Hbody. by right.
Qed.

Lemma rows_slice seg lo hi :
  Forall (λ p, length p = 2) seg →
  Forall (λ p, length p = 2) (np.slice lo hi seg).
Proof. intros Hall. unfold np.slice. by apply Forall_take, Forall_drop. Qed.

Lemma vstack2_rows a b :
  Forall (λ p : list Qc, length p = 2) a →
  Forall (λ p : list Qc, length p = 2) b →
  np.vstack2 a b = Ok (a ++ b).
Proof.
  intros Ha Hb. unfold np.vstack2. destruct a as [|r a], b as [|r' b]; try done.
  apply Forall_cons_1 in Ha as [-> _]. apply Forall_cons_1 in Hb as [-> _].
  by rewrite bool_decide_eq_true_2.
Qed.

Lemma smooth_piece_step self seg kind ndx tmp j lo0 lo hi :
  short_pieces self seg kind ndx →
  ndx !! 0 = Some lo0 → ndx !! (j - 1) = Some lo → ndx !! j = Some hi →
  1 ≤ j → lo0 ≤ lo →
  (j = 1 ∨ tmp = Some (np.slice lo0 lo seg, Some (np.slice lo0 lo kind))) →
  runs_to (Host:=Host) (smooth_piece self seg kind ndx tmp j)
          (Ok (Some (np.slice lo0 hi seg, Some (np.slice lo0 hi kind)))) [].
Proof.
  intros (Hlen & Hrows & Hbound & Hinc) Hzero Hlo Hhi Hj Hle Htmp.
  destruct (Hinc (j - 1) lo hi) as [Hlt Hshort];
    [done|by replace (S (j - 1)) with j by lia|].
  assert (hi ≤ length seg) as Hhi'.
  { apply list_elem_of_lookup_2 in Hhi.
    by apply (proj1 (list.Forall_forall _ _) Hbound) in Hhi. }
  unfold smooth_piece. unfold index. rewrite Hlo, Hhi.
  apply (runs_to_bind_Ok _ _ lo _ [] []); [apply runs_to_lift|].
  apply (runs_to_bind_Ok _ _ hi _ [] []); [apply runs_to_lift|].
  eapply (runs_to_bind_Ok _ _ _ _ [] []).
  { apply smooth_segs_unchanged; [|done].
    intros Hnil. apply (f_equal length) in Hnil.
    rewrite length_slice in Hnil by done. simpl in Hnil. lia. }
  cbn beta iota. case_bool_decide as Hj1.
  - subst j. change (1 - 1) with 0 in Hlo. rewrite Hzero in Hlo.
    injection Hlo as ->. apply runs_to_ret.
  - destruct Htmp as [? | ->]; [done|].
    rewrite vstack2_rows by by apply rows_slice.
    eapply (runs_to_bind_Ok _ _ _ _ [] []); [apply runs_to_lift|].
    eapply (runs_to_bind_Ok _ _ _ _ [] []); [apply runs_to_lift|].
    rewrite !slice_app by lia. apply runs_to_ret.
Qed.

Lemma smooth_pieces_loop self seg kind ndx lo0 m :
  short_pieces self seg kind ndx →
  ndx !! 0 = Some lo0 →
  ∀ j0 tmp cur,
    1 ≤ j0 → j0 + m = length ndx → ndx !! (j0 - 1) = Some cur → lo0 ≤ cur →
    (j0 = 1 ∨ tmp = Some (np.slice lo0 cur seg, Some (np.slice lo0 cur kind))) →
    (m = 0 → j0 ≠ 1) →
    ∃ last,
      ndx !! (j0 + m - 1) = Some last ∧
      runs_to (Host:=Host)
        (for_each (smooth_piece self seg kind ndx) (seq j0 m) tmp)
        (Ok (Some (np.slice lo0 last seg, Some (np.slice lo0 last kind)))) [].
Proof.
  intros Hshort Hzero. induction m as [|m IH]; intros j0 tmp cur Hj0 Hm Hcur Hle Htmp Hm0.
  - exists cur. rewrite Nat.add_0_r. split; [done|].
    destruct Htmp as [? | ->]; [by destruct Hm0|]. apply runs_to_ret.
  - destruct (lookup_lt_is_Some_2 ndx j0) as [hi Hhi]; [lia|].
    destruct Hshort as (Hlen & Hrows & Hbound & Hinc).
    destruct (Hinc (j0 - 1) cur hi) as [Hlt _];
      [done|by replace (S (j0 - 1)) with j0 by lia|].
    destruct (IH (S j0) (Some (np.slice lo0 hi seg, Some (np.slice lo0 hi kind))) hi)
      as (last & Hlast & Hrun); try by (simpl; rewrite ?Nat.sub_0_r; auto with lia).
    exists last. split; [by replace (j0 + S m - 1) with (S j0 + m - 1) by lia|].
    simpl. eapply (runs_to_bind_Ok _ _ _ _ [] []); [|exact Hrun].
    by eapply smooth_piece_step.
Qed.

(** A filled path whose pieces are all short comes back as it is. *)
Lemma smooth_pieces_unchanged self seg kind :
  length kind = length seg →
  Forall (λ p, length p = 2) seg →
  kind !! 0 = Some 1%Qc →
  Forall (λ piece, (Z.of_nat (useg_length piece) ≤ k self)%Z)
         (let ndx := np.where_eq kind 1 ++ [length kind] in
          zip_with (λ lo hi, np.slice lo hi seg) ndx (tail ndx)) →
  runs_to (Host:=Host)
    (smooth_pieces self seg kind (np.where_eq kind 1 ++ [length kind]))
    (Ok (Some (seg, Some kind))) [].
Proof.
  intros Hlen Hrows Hhead Hpieces. simpl in Hpieces.
  set (ndx := np.where_eq kind 1 ++ [length kind]) in *.
  destruct (where_eq_breaks kind 1) as [Hbound Hinc]. fold ndx in Hbound, Hinc.
  pose proof (where_eq_head kind 1 Hhead) as Hzero. fold ndx in Hzero.
  assert (short_pieces self seg kind ndx) as Hshort.
  { split_and!; [done|done|by rewrite <- Hlen|].
    intros j lo hi Hlo Hhi. split; [by eapply Hinc|].
    apply (proj1 (list.Forall_forall _ _) Hpieces).
    apply list_elem_of_lookup. exists j.
    apply lookup_zip_with_Some. exists lo, hi. by rewrite lookup_tail. }
  assert (1 < length ndx) as Hlong.
  { subst ndx. rewrite length_app. simpl.
    destruct (np.where_eq kind 1); [|simpl; lia].
    simpl in Hzero. injection Hzero as Hz. by destruct kind. }
  destruct (smooth_pieces_loop self seg kind ndx 0 (length ndx - 1) Hshort Hzero
              1 None 0) as (last & Hlast & Hrun); try by auto with lia.
  replace (1 + (length ndx - 1) - 1) with (length ndx - 1) in Hlast by lia.
  assert (last = length kind) as ->.
  { subst ndx. rewrite length_app in Hlast. simpl in Hlast.
    rewrite lookup_app_r, Nat.add_sub in Hlast by lia.
    rewrite Nat.sub_diag in Hlast. by injection Hlast. }
  unfold smooth_pieces. rewrite slice_all in Hrun.
  by rewrite Hlen, slice_all in Hrun.
Qed.

Lemma smooth_lines_unchanged self segs i :
  i < length segs →
  Forall (λ seg, seg ≠ [] ∧ (Z.of_nat (useg_length seg) ≤ k self)%Z) segs →
  runs_to (Host:=Host) (smooth_lines self (Arr2 <$> segs, None) i)
          (Ok (Arr2 <$> segs, None)) [].
Proof.
  intros Hi Hall. destruct (lookup_lt_is_Some_2 segs i Hi) as [seg Hseg].
  apply list_elem_of_lookup_2 in Hseg as Hin.
  apply (proj1 (list.Forall_forall _ _) Hall) in Hin as [Hne Hk].
  unfold smooth_lines, index. rewrite list_lookup_fmap, Hseg. simpl.
  apply (runs_to_bind_Ok _ _ seg _ [] []); [apply runs_to_lift|].
  eapply (runs_to_bind_Ok _ _ _ _ [] []); [by apply smooth_segs_unchanged|].
  cbn beta iota. rewrite list_insert_id; [apply runs_to_ret|].
  by rewrite list_lookup_fmap, Hseg.
Qed.

Lemma smooth_filled_unchanged self segs kinds i :
  i < length segs →
  Forall2 (λ seg kind,
    length kind = length seg ∧ seg ≠ [] ∧
    Forall (λ p, length p = 2) seg ∧
    kind !! 0 = Some 1%Qc ∧
    Forall (λ piece, (Z.of_nat (useg_length piece) ≤ k self)%Z)
           (pieces seg kind)) segs kinds →
  runs_to (Host:=Host) (smooth_filled self (Arr2 <$> segs, Arr1 <$> kinds) i)
          (Ok (Arr2 <$> segs, Arr1 <$> kinds)) [].
Proof.
  intros Hi Hall. destruct (lookup_lt_is_Some_2 segs i Hi) as [seg Hseg].
  destruct (Forall2_lookup_l _ _ _ _ _ Hall Hseg)
    as (kind & Hkind & Hlen & Hne & Hrows & Hhead & Hpieces).
  unfold smooth_filled, index. rewrite !list_lookup_fmap, Hseg, Hkind. simpl.
  apply (runs_to_bind_Ok _ _ kind _ [] []); [apply runs_to_lift|].
  unfold pieces in Hpieces. case_bool_decide.
  - apply (runs_to_bind_Ok _ _ seg _ [] []); [apply runs_to_lift|].
    eapply (runs_to_bind_Ok _ _ _ _ [] []);
      [by apply smooth_pieces_unchanged|].
    cbn beta iota. rewrite !list_insert_id; [apply runs_to_ret|..];
      by rewrite list_lookup_fmap, ?Hseg, ?Hkind.
  - apply (runs_to_bind_Ok _ _ seg _ [] []); [apply runs_to_lift|].
    eapply (runs_to_bind_Ok _ _ _ _ [] []).
    { apply smooth_segs_unchanged; [done|]. by apply Forall_cons_1 in Hpieces as [? _]. }
    cbn beta iota. rewrite !list_insert_id; [apply runs_to_ret|..];
      by rewrite list_lookup_fmap, ?Hseg, ?Hkind.
Qed.

Lemma short_trace_split (self : SmoothContour.t) nlist :
  short_trace self nlist →
  ∃ segs kinds,
    take (length nlist / 2) nlist = Arr2 <$> segs ∧
    drop (length nlist / 2) nlist = Arr1 <$> kinds ∧
    length (Arr2 <$> segs) = length segs ∧
    Forall2 (λ seg kind,
      length kind = length seg ∧ seg ≠ [] ∧
      Forall (λ p, length p = 2) seg ∧
      (filled self → kind !! 0 = Some 1%Qc) ∧
      Forall (λ piece, (Z.of_nat (useg_length piece) ≤ k self)%Z)
             (if filled self then pieces seg kind else [seg]))
      segs kinds.
Proof.
  intros (segs & kinds & -> & Hall). exists segs, kinds.
  pose proof (list.Forall2_length _ _ _ Hall) as Hlen.
  assert (length ((Arr2 <$> segs) ++ (Arr1 <$> kinds)) / 2 = length segs) as ->.
  { rewrite length_app, !length_fmap, <- Hlen.
    replace (length segs + length segs) with (length segs * 2) by lia.
    by apply Nat.div_mul. }
  rewrite <- (length_fmap Arr2 segs) at 1 2.
  by rewrite take_app_length, drop_app_length, length_fmap.
Qed.

(** When every list the tracer hands out is one to which no smoothing
    applies -- segments of points in the plane with their path codes, none
    empty, each line (each piece of a filled path between two breaks) with
    at most [k] distinct points, its first point counted twice when the
    line or piece is closed -- then [_get_allsegs_and_allkinds] makes the
    calls and returns the segments and kinds of the method of
    [QuadContourSet] it overrides: the tracer's, level by level, in the
    tracer's order. *)
Lemma get_allsegs_and_allkinds_unsmoothed
    (self : SmoothContour.t) (s : World Host) :
  (∀ level upper nchunk nlist,
     Cntr_trace self level upper nchunk = Ok nlist → short_trace self nlist) →
  _get_allsegs_and_allkinds self s =
  QuadContourSet_get_allsegs_and_allkinds self s.
Proof.
  intros Htrace.
  unfold _get_allsegs_and_allkinds, QuadContourSet_get_allsegs_and_allkinds.
  destruct (filled self) eqn:Hfilled.
  - apply bind_ext; [done|]. intros [lowers uppers] s'.
    apply bind_ext; [|done]. intros s''. apply for_each_ext.
    intros [allsegs allkinds] [level level_upper] s3.
    apply bind_call_ext. intros nlist s4 Hnlist.
    destruct (short_trace_split self nlist (Htrace _ _ _ _ Hnlist))
      as (segs & kinds & -> & -> & -> & Hall).
    rewrite Hfilled in Hall.
    rewrite (bind_unchanged _ _ (Arr2 <$> segs, Arr1 <$> kinds)); [done|].
    apply for_each_unchanged. intros i [_ Hi]%elem_of_seq.
    apply smooth_filled_unchanged; [done|].
    eapply list.Forall2_impl; [exact Hall|]. simpl.
    intros seg kind (? & ? & ? & Hhead & ?). split_and!; auto.
  - apply bind_ext; [|done]. intros s'. apply for_each_ext.
    intros allsegs level s3.
    apply bind_call_ext. intros nlist s4 Hnlist.
    destruct (short_trace_split self nlist (Htrace _ _ _ _ Hnlist))
      as (segs & kinds & -> & _ & -> & Hall).
    rewrite Hfilled in Hall.
    rewrite (bind_unchanged _ _ (Arr2 <$> segs, None)); [done|].
    apply for_each_unchanged. intros i [_ Hi]%elem_of_seq.
    apply smooth_lines_unchanged; [done|].
    eapply Forall2_Forall_l; [exact Hall|]. apply Forall_true.
    intros kind seg (_ & Hne & _ & _ & Hk). split; [done|].
    by apply Forall_cons_1 in Hk as [? _].
Qed.

End unsmoothed.

(** C4, as stated, fails: a tracer that hands out the closed triangle, of
    three distinct points, with the default [k] of 3. *)
Lemma get_allsegs_and_allkinds_closed_triangle :
  let self := sample_contour (smoothing_of ∅) false
                [Arr2 triangle; Arr1 [1; 2; 2; 2]%Qc] in
  (Z.of_nat (unique_points triangle) ≤ k self)%Z ∧
  result_of (@_get_allsegs_and_allkinds map_order constant_spline () self) start ≠
  result_of (QuadContourSet_get_allsegs_and_allkinds self) start.
Proof.
  intros self. split.
  - vm_compute. discriminate.
  - intros Heq.
    apply (f_equal (λ r : result (list (list ndarray) * option (list (list ndarray))),
                      match r with
                      | Ok ([[Arr2 seg']], _) => length seg'
                      | _ => 0
                      end)) in Heq.
    vm_compute in Heq. discriminate.
Qed.

(** C10. The smoothing is deterministic: for a fixed segment and fixed
    attributes of the object, two runs of [_smooth_segs], and two runs of
    [_get_allsegs_and_allkinds], give the same result and make the same
    library calls, whatever the state they start from and whatever order
    the dictionary of [unique_vec] lists its values in. *)
Theorem smoothing_deterministic `{!Scipy} {Host : Type} (d1 d2 : DictOrder)
    (self : SmoothContour.t) seg kind avg (s1 s2 : World Host) :
  let run1 := @_smooth_segs d1 _ Host self seg kind avg in
  let run2 := @_smooth_segs d2 _ Host self seg kind avg in
  let all1 := @_get_allsegs_and_allkinds d1 _ Host self in
  let all2 := @_get_allsegs_and_allkinds d2 _ Host self in
  result_of run1 s1 = result_of run2 s2 ∧
  new_events run1 s1 = new_events run2 s2 ∧
  result_of all1 s1 = result_of all2 s2 ∧
  new_events all1 s1 = new_events all2 s2.
Proof.
  intros run1 run2 all1 all2.
  destruct (logs_only_agree run1 run2 s1 s2) as [? ?];
    [apply smooth_segs_runs|apply smooth_segs_order|].
  destruct (logs_only_agree all1 all2 s1 s2) as [? ?];
    [apply get_allsegs_and_allkinds_logs_only
    |apply get_allsegs_and_allkinds_order|].
  done.
Qed.

Lemma constant_spline_shapes : @ScipyShapes constant_spline.
Proof.
  intros x s k per tck u un arrs [= <- <-] [= <-]. simpl.
  rewrite length_fmap. split; [done|].
  apply Forall_fmap, Forall_true. intros c. simpl. by rewrite length_fmap.
Qed.

Section smooth_segs_shape.
Context `{DictOrder} `{!Scipy} `{!ScipyShapes} {Host : Type}.

(** With the shapes scipy documents, numpy accepts what scipy returns
    for a segment of points in the plane. *)
Lemma smoothed_shapes (self : Smoothing) seg useg per :
  Forall (λ p, length p = 2) seg →
  unique_vec seg = Ok (useg, per) →
  (∀ avg seg', smoothed self useg per avg seg' →
               length seg' = length (unew self))
  ∧ ¬ misshapen self useg per.
Proof.
  intros Hseg Huv.
  assert (seg ≠ []) as Hne.
  { intros ->. by rewrite unique_vec_nil in Huv. }
  destruct (unique_vec_spec seg Hne) as (useg' & Huv' & Hlen & Hfirst & Hin).
  rewrite Huv in Huv'. injection Huv' as <- _.
  assert (Forall (λ p, length p = 2) useg) as Huseg.
  { apply list.Forall_forall. intros p Hp%Hin.
    by eapply (proj1 (list.Forall_forall _ _) Hseg). }
  assert (useg ≠ []) as Hune.
  { destruct seg as [|p0 seg]; [done|]. by destruct useg. }
  assert (∀ a, a ≠ [] → Forall (λ p : list Qc, length p = 2) a →
               length (np.T a) = 2) as HT.
  { intros [|r a] ? Hall; [done|]. rewrite length_T. by inversion Hall. }
  assert (∀ x un tck u arrs,
            length x = 2 →
            splprep x (smooth self) (k self) per = Ok (tck, u) →
            splev un tck = Ok arrs →
            np.vstack arrs = Ok arrs ∧ arrs ≠ [] ∧
            length (np.T arrs) = length un ∧
            length <$> np.T arrs = replicate (length un) 2) as Hshape.
  { intros x un tck u arrs Hx Hfit Hev.
    destruct (splev_shape _ _ _ _ _ _ _ _ Hfit Hev) as [Hn Hall].
    rewrite Hx in Hn. destruct arrs as [|r arrs]; [done|].
    pose proof Hall as [Hr Hall']%Forall_cons_1.
    split_and!; [|done| |].
    - apply vstack_Ok. by rewrite Hr.
    - by rewrite length_T.
    - by rewrite (shape_T _ (length un)), Hn. }
  assert (length (np.T useg) = 2) as Hx by by apply HT.
  assert (length (np.T (reverse useg)) = 2) as Hx'.
  { apply HT; [|by apply Forall_reverse].
    intros Hr. apply Hune. by rewrite <- (reverse_involutive useg), Hr. }
  split.
  - intros avg seg' (tck & u & arrs & Hfit & Hev & _ & Hseg').
    destruct (Hshape _ _ _ _ _ Hx Hfit Hev) as (_ & _ & HlenT & _).
    destruct (bool_decide _ && avg).
    + destruct Hseg' as (tck2 & u2 & arrs2 & _ & _ & _ & Hmean).
      by rewrite (mean2_length _ _ _ Hmean).
    + by subst seg'.
  - intros (tck & u & arrs & Hfit & Hev & Hbad).
    destruct (Hshape _ _ _ _ _ Hx Hfit Hev) as (Hst & _ & _ & Hsh).
    destruct Hbad as [Hbad|(tck2 & u2 & arrs2 & Hfit2 & Hev2 & Hbad)];
      [congruence|].
    destruct (Hshape _ _ _ _ _ Hx' Hfit2 Hev2) as (Hst2 & _ & _ & Hsh2).
    destruct Hbad as [Hbad|Hbad]; [congruence|].
    unfold np.mean2 in Hbad. rewrite Hsh, Hsh2, length_reverse in Hbad.
    by rewrite bool_decide_eq_true_2 in Hbad.
Qed.

(** C6 (amended). For an object set up by [__init__] and a non-empty
    segment of points in the plane, with [n] the number of distinct
    points plus one when the segment is closed: if [n] is at most [k],
    [_smooth_segs] returns the segment and the kind unchanged and calls
    nothing; if [n] exceeds [k], it either returns a segment of exactly
    [int_number] points, with a kind that is [None] when none was given
    and the array [1, 2, ..., 2] of length [int_number] otherwise, or
    raises what a spline routine raised. *)
Theorem smooth_segs_unchanged_or_resampled
    kwargs kwargs' (self : Smoothing) seg kind avg (s : World Host) :
  __init__ kwargs = Ok (self, kwargs') →
  seg ≠ [] →
  Forall (λ p, length p = 2) seg →
  ((Z.of_nat (useg_length seg) ≤ k self)%Z →
     _smooth_segs self seg kind avg s = (Ok (seg, kind), s, []))
  ∧ ((k self < Z.of_nat (useg_length seg))%Z →
     match result_of (_smooth_segs self seg kind avg) s with
     | Ok (seg', kind') =>
         Z.of_nat (length seg') = int_number self ∧
         kind' = (λ _, 1%Qc :: replicate (Z.to_nat (int_number self) - 1) 2%Qc)
                   <$> kind
     | Raise e =>
         ∃ ev, ev ∈ new_events (_smooth_segs self seg kind avg) s ∧
               raised ev = Some e
     end).
Proof.
  intros Hinit Hne Hseg.
  destruct (unique_vec_spec seg Hne) as (useg & Huv & Hlen & _).
  rewrite <- Hlen. split; intros Hk.
  - apply (smooth_segs_short self seg kind avg _ _ Huv Hk s).
  - destruct (smooth_segs_long (Host:=Host) self seg kind avg _ _ Huv Hk)
      as (r & evs & Hrun & _ & _ & Hr).
    destruct (runs_to_new_events _ _ _ s Hrun) as [-> ->].
    destruct (smoothed_shapes self seg useg _ Hseg Huv) as [Hshape Hok].
    destruct r as [[seg' kind']|e].
    + destruct Hr as [-> Hsm].
      apply init_Ok in Hinit as Hi.
      destruct Hi as (_ & _ & _ & Hn & Hfill & _).
      rewrite (Hshape _ _ Hsm), (init_length_unew _ _ _ Hinit), Hfill.
      split; [lia|done].
    + by destruct Hr as [?|[_ ?]].
Qed.

End smooth_segs_shape.

Section smooth_segs_fit.
Context `{DictOrder} `{!Scipy} {Host : Type}.

(** For an object set up by [__init__] and a segment long enough to
    smooth: the first library call is the spline fit of the points
    [unique_vec] returns, with [s = smooth], [k = k] and the periodic flag
    set exactly when the segment is closed; every fit of the call has
    these [s], [k] and flag; the parameters [unew] are [int_number] evenly
    spaced values from 0; and when the call returns, the segment is
    replaced by the fitted spline evaluated at [unew] or, when
    [smooth > 0] and averaging is asked for, by the mean of that and of
    the fit of the reversed points evaluated at the reversed parameters. *)
Lemma smooth_segs_spline_fit
    kwargs kwargs' (self : Smoothing) seg kind avg (s : World Host) :
  __init__ kwargs = Ok (self, kwargs') →
  seg ≠ [] →
  (k self < Z.of_nat (useg_length seg))%Z →
  let per := if closed seg then 1%Z else 0%Z in
  let run := _smooth_segs self seg kind avg in
  ∃ useg,
    unique_vec seg = Ok (useg, per) ∧
    (∃ out, new_events run s !! 0 =
            Some {| called := call_splprep (np.T useg) (smooth self) (k self) per;
                    raised := out |}) ∧
    Forall (λ ev, fit_of self useg per (called ev)) (new_events run s) ∧
    evenly_spaced (unew self) (int_number self) ∧
    ∀ seg' kind', result_of run s = Ok (seg', kind') →
                  smoothed self useg per avg seg'.
Proof.
  intros Hinit Hne Hk per run. subst per run.
  destruct (unique_vec_spec seg Hne) as (useg & Huv & Hlen & _).
  rewrite <- Hlen in Hk. exists useg. split; [done|].
  destruct (smooth_segs_long (Host:=Host) self seg kind avg _ _ Huv Hk)
    as (r & evs & Hrun & Hfirst & Hfits & Hr).
  destruct (runs_to_new_events _ _ _ s Hrun) as [Hres ->].
  split_and!; [done|done| |].
  - apply init_Ok in Hinit as (_ & _ & _ & _ & _ & Hun & _).
    by apply linspace_evenly_spaced.
  - intros seg' kind' Hok. rewrite Hok in Hres. subst r.
    by destruct Hr.
Qed.

End smooth_segs_fit.

(** C7 at the closed triangle. *)
Lemma unique_vec_first_row_and_per_witness :
  triangle ≠ [] ∧
  ∃ useg per,
    @unique_vec map_order triangle = Ok (useg, per) ∧
    useg !! 0 = triangle !! 0 ∧
    (per = 1%Z ↔ ∃ j, 0 < j ∧ triangle !! j = triangle !! 0) ∧
    (¬ (∃ j, 0 < j ∧ triangle !! j = triangle !! 0) → per = 0%Z).
Proof.
  split; [done|].
  apply (@unique_vec_first_row_and_per map_order triangle). done.
Defined.

(** C6 at the open path, with the default keywords. *)
Lemma smooth_segs_unchanged_or_resampled_witness :
  let self := smoothing_of ∅ in
  let run := @_smooth_segs map_order constant_spline () self open_path
               (Some [1%Qc]) true in
  ((Z.of_nat (useg_length open_path) ≤ k self)%Z →
     run start = (Ok (open_path, Some [1%Qc]), start, []))
  ∧ ((k self < Z.of_nat (useg_length open_path))%Z →
     match result_of run start with
     | Ok (seg', kind') =>
         Z.of_nat (length seg') = int_number self ∧
         kind' = (λ _, 1%Qc :: replicate (Z.to_nat (int_number self) - 1) 2%Qc)
                   <$> Some [1%Qc]
     | Raise e => ∃ ev, ev ∈ new_events run start ∧ raised ev = Some e
     end).
Proof.
  intros self run.
  apply (@smooth_segs_unchanged_or_resampled map_order constant_spline
           constant_spline_shapes () ∅ ∅ self open_path (Some [1%Qc]) true start).
  - vm_compute. reflexivity.
  - done.
  - repeat constructor.
Defined.

(** C6, as stated, fails: the closed triangle has three distinct points,
    no more than the default [k] of 3, and is resampled all the same. *)
Lemma smooth_segs_closed_triangle_resampled :
  ∃ self kwargs',
    __init__ ∅ = Ok (self, kwargs') ∧
    (Z.of_nat (unique_points triangle) ≤ k self)%Z ∧
    result_of (@_smooth_segs map_order constant_spline () self triangle None false)
              start ≠ Ok (triangle, None).
Proof.
  exists (smoothing_of ∅), ∅. split_and!.
  - vm_compute. reflexivity.
  - vm_compute. discriminate.
  - intros Heq.
    apply (f_equal (λ r : result (list (list Qc) * option (list Qc)),
                      match r with Ok (seg', _) => length seg' | Raise _ => 0 end))
      in Heq.
    vm_compute in Heq. discriminate.
Qed.

(** ** Reasoning about computations *)

Section wp_facts.
Context {Host : Type}.
Implicit Types (w : World Host).

Lemma wp_ret {A} (a : A) w Q : Q (Ok a) w [] → wp (mret a) w Q.
Proof. done. Qed.

Lemma wp_lift {A} (r : result A) w Q : Q r w [] → wp (lift r) w Q.
Proof. done. Qed.

Lemma wp_call {A} c (r : result A) w Q :
  Q r w [{| called := c; raised := exn_of r |}] → wp (call c r) w Q.
Proof. done. Qed.

Lemma wp_call_world {A} c (f : World Host → result A * World Host) w Q :
  (∀ r w', f w = (r, w') → Q r w' [{| called := c; raised := exn_of r |}]) →
  wp (call_world c f) w Q.
Proof.
  intros HQ. unfold wp, result_of, world_after, new_events, call_world.
  destruct (f w) as [r w'] eqn:Hf. by apply HQ.
Qed.

Lemma wp_bind {A B} (m : M Host A) (f : A → M Host B) w Q :
  wp m w (λ r w' evs,
    match r with
    | Ok a => wp (f a) w' (λ r' w'' evs', Q r' w'' (evs ++ evs'))
    | Raise e => Q (Raise e) w' evs
    end) →
  wp (m ≫= f) w Q.
Proof.
  unfold wp, result_of, world_after, new_events, mbind, M_bind.
  destruct (m w) as [[[a|e] w'] evs]; simpl; [|done].
  by destruct (f a w') as [[r' w''] evs'].
Qed.

Lemma wp_try_finally {A} (body : M Host A) (fin : M Host ()) w Q :
  wp body w (λ r w' evs,
    wp fin w' (λ rf w'' evs',
      Q (match rf with Ok _ => r | Raise e => Raise e end) w'' (evs ++ evs'))) →
  wp (try_finally body fin) w Q.
Proof.
  unfold wp, result_of, world_after, new_events, try_finally.
  destruct (body w) as [[r w'] evs]; simpl.
  by destruct (fin w') as [[[[]|e] w''] evs'].
Qed.

Lemma wp_try_except {A} (body handler : M Host A) w Q :
  wp body w (λ r w' evs,
    match r with
    | Ok a => Q (Ok a) w' evs
    | Raise _ => wp handler w' (λ r' w'' evs', Q r' w'' (evs ++ evs'))
    end) →
  wp (try_except body handler) w Q.
Proof.
  unfold wp, result_of, world_after, new_events, try_except.
  destruct (body w) as [[[a|e] w'] evs]; simpl; [done|].
  by destruct (handler w') as [[r' w''] evs'].
Qed.

Lemma wp_ishold ax w Q :
  Q (Ok (default true (holds w !! ax))) w [] → wp (ax_ishold ax) w Q.
Proof. done. Qed.

Lemma wp_hold ax b w Q :
  Q (Ok ()) {| holds := <[ax := b]> (holds w); host := host w |} [] →
  wp (ax_hold ax b) w Q.
Proof. done. Qed.

Lemma wp_mono {A} (m : M Host A) w (Q Q' : result A → World Host → list Event → Prop) :
  wp m w Q → (∀ r w' evs, Q r w' evs → Q' r w' evs) → wp m w Q'.
Proof. unfold wp. auto. Qed.

Lemma new_events_bind {A B} (m : M Host A) (f : A → M Host B) w :
  new_events (m ≫= f) w =
  new_events m w ++ match result_of m w with
                    | Ok a => new_events (f a) (world_after m w)
                    | Raise _ => []
                    end.
Proof.
  unfold new_events, result_of, world_after, mbind, M_bind.
  destruct (m w) as [[[a|e] w'] evs]; simpl; [|by rewrite app_nil_r].
  by destruct (f a w') as [[r' w''] evs'].
Qed.

Lemma result_of_bind {A B} (m : M Host A) (f : A → M Host B) w :
  result_of (m ≫= f) w =
  match result_of m w with
  | Ok a => result_of (f a) (world_after m w)
  | Raise e => Raise e
  end.
Proof.
  unfold new_events, result_of, world_after, mbind, M_bind.
  destruct (m w) as [[[a|e] w'] evs]; simpl; [|done].
  by destruct (f a w') as [[r' w''] evs'].
Qed.

(** *** Exceptions that go through *)








(** *** Properties of every event *)

Lemma all_events_ret {A} P (a : A) : all_events (Host:=Host) P (mret a).
Proof. intros w. constructor. Qed.

Lemma all_events_lift {A} P (r : result A) : all_events (Host:=Host) P (lift r).
Proof. intros w. constructor. Qed.

Lemma all_events_call {A} (P : Event → Prop) c (r : result A) :
  P {| called := c; raised := exn_of r |} → all_events (Host:=Host) P (call c r).
Proof. intros HP w. by repeat constructor. Qed.

Lemma all_events_call_world {A} (P : Event → Prop) c
    (f : World Host → result A * World Host) :
  (∀ out, P {| called := c; raised := out |}) → all_events P (call_world c f).
Proof.
  intros HP w. unfold new_events, call_world. destruct (f w) as [r w'].
  by repeat constructor.
Qed.

Lemma all_events_bind {A B} P (m : M Host A) (f : A → M Host B) :
  all_events P m → (∀ a, all_events P (f a)) → all_events P (m ≫= f).
Proof.
  intros Hm Hf w. rewrite new_events_bind. apply Forall_app. split; [done|].
  destruct (result_of m w); [apply Hf|constructor].
Qed.

(** The continuation of a pure step may use what the step returned. *)
Lemma all_events_bind_lift {A B} P (r : result A) (f : A → M Host B) :
  (∀ a, r = Ok a → all_events P (f a)) → all_events P (lift r ≫= f).
Proof.
  intros Hf w. rewrite new_events_bind. simpl.
  unfold result_of, lift. simpl. destruct r as [a|e]; [by apply Hf|constructor].
Qed.

Lemma all_events_bind_call {A B} (P : Event → Prop) c (r : result A)
    (f : A → M Host B) :
  P {| called := c; raised := exn_of r |} →
  (∀ a, r = Ok a → all_events P (f a)) → all_events P (call c r ≫= f).
Proof.
  intros HP Hf w. rewrite new_events_bind. simpl. constructor; [done|].
  unfold result_of, call. simpl. destruct r as [a|e]; [by apply Hf|constructor].
Qed.

Lemma all_events_bind_ret {A B} P (a : A) (f : A → M Host B) :
  all_events P (f a) → all_events P (mret a ≫= f).
Proof. intros Hf. by apply all_events_bind_lift; intros ? [= <-]. Qed.

Lemma bind_assoc {A B C} (m : M Host A) (g : A → M Host B) (f : B → M Host C) w :
  ((m ≫= g) ≫= f) w = (m ≫= λ a, g a ≫= f) w.
Proof.
  unfold mbind, M_bind. destruct (m w) as [[[a|e] w'] evs]; [|done].
  destruct (g a w') as [[[b|e] w''] evs']; [|done].
  destruct (f b w'') as [[r w3] evs'']. by rewrite app_assoc.
Qed.

Lemma all_events_bind_assoc {A B C} P (m : M Host A) (g : A → M Host B)
    (f : B → M Host C) :
  all_events P (m ≫= λ a, g a ≫= f) → all_events P ((m ≫= g) ≫= f).
Proof. intros Hm w. unfold new_events. rewrite bind_assoc. apply Hm. Qed.

Lemma all_events_try_except {A} P (body handler : M Host A) :
  all_events P body → all_events P handler →
  all_events P (try_except body handler).
Proof.
  intros Hbody Hhandler w. specialize (Hbody w). revert Hbody.
  unfold new_events, try_except.
  destruct (body w) as [[[a|e'] w'] evs]; simpl; [done|].
  specialize (Hhandler w'). revert Hhandler. unfold new_events.
  destruct (handler w') as [[r' w''] evs']. simpl.
  intros. by apply Forall_app.
Qed.

Lemma all_events_weaken {A} (P P' : Event → Prop) (m : M Host A) :
  all_events P m → (∀ ev, P ev → P' ev) → all_events P' m.
Proof. intros Hm HP w. eapply list.Forall_impl; [apply Hm|done]. Qed.

End wp_facts.

(** One step through a computation. *)
Ltac wp_step :=
  lazymatch goal with
  | |- wp (mret _) _ _ => apply wp_ret
  | |- wp (lift _) _ _ => apply wp_lift
  | |- wp (_ ≫= _) _ _ => apply wp_bind
  | |- wp (call_world _ _) _ _ =>
      let r := fresh "r" in let w := fresh "w" in let Hcall := fresh "Hcall" in
      apply wp_call_world; intros r w Hcall
  | |- wp (call _ _) _ _ => apply wp_call
  | |- wp (try_finally _ _) _ _ => apply wp_try_finally
  | |- wp (try_except _ _) _ _ => apply wp_try_except
  | |- wp (ax_ishold _) _ _ => apply wp_ishold
  | |- wp (ax_hold _ _) _ _ => apply wp_hold
  | |- wp (if ?b then _ else _) _ _ => destruct b eqn:?
  | |- wp (match ?x with _ => _ end) _ _ => destruct x eqn:?
  | |- match ?r with Ok _ => _ | Raise _ => _ end => destruct r eqn:?
  | |- wp (let '(_, _) := ?p in _) _ _ => destruct p eqn:?
  end; cbn beta iota zeta.


(** One step through a computation all of whose events have a property. *)
Ltac all_events_step :=
  lazymatch goal with
  | |- all_events _ ((_ ≫= _) ≫= _) => apply all_events_bind_assoc
  | |- all_events _ (mret _ ≫= _) => apply all_events_bind_ret
  | |- all_events _ (mret _) => apply all_events_ret
  | |- all_events _ (lift _) => apply all_events_lift
  | |- all_events _ (call _ _) => apply all_events_call
  | |- all_events _ (call_world _ _) => apply all_events_call_world; intros ?
  | |- all_events _ (lift _ ≫= _) => apply all_events_bind_lift; intros ? ?
  | |- all_events _ (call _ _ ≫= _) => apply all_events_bind_call; [|intros ? ?]
  | |- all_events _ (_ ≫= _) => apply all_events_bind; [|intros ?]
  | |- all_events _ (try_except _ _) => apply all_events_try_except
  | |- all_events _ (if ?b then _ else _) => destruct b eqn:?
  | |- all_events _ (match ?x with _ => _ end) => destruct x eqn:?
  end; cbn beta iota zeta.

(** Splits the membership of an event in a log known by its entries. *)
Ltac split_events H :=
  repeat first
    [ apply elem_of_app in H as [H|H]
    | apply elem_of_cons in H as [H|H]
    | apply elem_of_nil in H; destruct H ].

(** ** [smooth_contour] and [smooth_contourf] *)

(** With a number for [smooth], integers for [k] and [int_number] and one
    point at least, [__init__] sets the attributes. *)
Lemma init_returns kwargs sm kk n :
  as_float (default (VInt 0) (kwargs !! "smooth")) = Ok sm →
  as_int (default (VInt 3) (kwargs !! "k")) = Ok kk →
  as_int (default (VInt 100) (kwargs !! "int_number")) = Ok n →
  (1 ≤ n)%Z →
  ∃ self, __init__ kwargs
            = Ok (self, delete "int_number" (delete "k" (delete "smooth" kwargs))) ∧
          smooth self = sm ∧ k self = kk ∧ int_number self = n.
Proof.
  intros Hsm Hk Hn Hpos. unfold __init__, pop.
  rewrite !lookup_delete_ne by done. rewrite Hsm, Hk, Hn. simpl.
  unfold np.ones, np.linspace. rewrite !bool_decide_eq_false_2 by lia. simpl.
  destruct (Z.to_nat n) as [|n'] eqn:Hn'; [lia|]. simpl.
  case_bool_decide; simpl; by eexists.
Qed.

Section smooth_contour_facts.
Context {Host : Type} `{!Matplotlib Host}.

(** C8. For every call of [smooth_contour] or [smooth_contourf], the hold
    flag of the axes it draws on (the keyword [ax], or the current axes)
    is after the call what it was before, whether the call returns or
    raises, also when the construction of the [SmoothContour] raises;
    [gca] and [sci] are taken not to touch hold flags. *)
Theorem smooth_contour_restores_hold `{!KeepsHolds}
    (fill : bool) args kwargs (w : World Host) ax :
  target_axes kwargs w = Ok ax →
  let run := smooth_contour_with fill args kwargs in
  default true (holds (world_after run w) !! ax) = default true (holds w !! ax).
Proof.
  intros Hax run. subst run. unfold target_axes in Hax.
  change (wp (smooth_contour_with fill args kwargs) w
            (λ _ w' _, default true (holds w' !! ax) = default true (holds w !! ax))).
  destruct fill; unfold smooth_contour_with, smooth_contour, smooth_contourf,
    SmoothContour_new, pop.
  all: repeat wp_step.
  all: pose proof (gca_holds w) as Hgca;
    match goal with Hc : gca _ = _ |- _ => rewrite Hc in Hgca, Hax end;
    simpl in Hgca, Hax.
  all: try match goal with
           | Hc : sci ?cs ?w' = (_, ?w'') |- _ =>
               let Hsci := fresh "Hsci" in
               pose proof (sci_holds cs w') as Hsci; rewrite Hc in Hsci;
               simpl in Hsci; rewrite Hsci
           end.
  all: try match goal with
           | Haxes : as_axes _ = Ok ?a |- _ =>
               rewrite lookup_insert_ne in Haxes by done;
               assert (a = ax) as -> by
                 (destruct (kwargs !! "ax"); simpl in *; congruence)
           end.
  all: simpl; by rewrite ?lookup_insert_eq, ?Hgca.
Qed.

(** The keywords left for the constructor. *)
Lemma init_keywords (fill : bool) kwargs self kwargs' :
  __init__ (delete "hold" (delete "ax" (<["filled" := VBool fill]> kwargs)))
    = Ok (self, kwargs') →
  as_float (default (VInt 0) (kwargs !! "smooth")) = Ok (smooth self) ∧
  as_int (default (VInt 3) (kwargs !! "k")) = Ok (k self) ∧
  as_int (default (VInt 100) (kwargs !! "int_number")) = Ok (int_number self) ∧
  kwargs' = delete "int_number" (delete "k" (delete "smooth" (delete "hold"
              (delete "ax" (<["filled" := VBool fill]> kwargs))))).
Proof.
  intros (Hsm & Hk & Hn & _ & _ & _ & ->)%init_Ok.
  rewrite !lookup_delete_ne, lookup_insert_ne in Hsm, Hk, Hn by done. done.
Qed.

(** Whenever the [ContourSet] constructor is called, it is on the axes
    given by [ax] (default: the current axes), with the positional
    arguments as they came, with all other keywords as they came except
    that [filled] is set, and with the attributes [smooth], [k] and
    [int_number] read from the keywords; when no [hold] is given the
    constructor runs in the world as [gca] left it. *)
Lemma smooth_contour_constructor_call (fill : bool) args kwargs (w : World Host)
    ev self ax args' kwargs' :
  ev ∈ new_events (smooth_contour_with fill args kwargs) w →
  called ev = call_ContourSet_init self ax args' kwargs' →
  args' = args ∧
  kwargs' = delete "int_number" (delete "k" (delete "smooth" (delete "hold"
              (delete "ax" (<["filled" := VBool fill]> kwargs))))) ∧
  target_axes kwargs w = Ok ax ∧
  as_float (default (VInt 0) (kwargs !! "smooth")) = Ok (smooth self) ∧
  as_int (default (VInt 3) (kwargs !! "k")) = Ok (k self) ∧
  as_int (default (VInt 100) (kwargs !! "int_number")) = Ok (int_number self) ∧
  (kwargs !! "hold" = None →
   raised ev = exn_of (ContourSet_init self ax args' kwargs' (gca w).2).1).
Proof.
  revert ev self ax args' kwargs'.
  change (wp (smooth_contour_with fill args kwargs) w
    (λ _ _ evs, ∀ ev self ax args' kwargs',
       ev ∈ evs → called ev = call_ContourSet_init self ax args' kwargs' →
       args' = args ∧
       kwargs' = delete "int_number" (delete "k" (delete "smooth" (delete "hold"
                   (delete "ax" (<["filled" := VBool fill]> kwargs))))) ∧
       target_axes kwargs w = Ok ax ∧
       as_float (default (VInt 0) (kwargs !! "smooth")) = Ok (smooth self) ∧
       as_int (default (VInt 3) (kwargs !! "k")) = Ok (k self) ∧
       as_int (default (VInt 100) (kwargs !! "int_number")) = Ok (int_number self) ∧
       (kwargs !! "hold" = None →
        raised ev = exn_of (ContourSet_init self ax args' kwargs' (gca w).2).1))).
  unfold target_axes.
  destruct fill; unfold smooth_contour_with, smooth_contour, smooth_contourf,
    SmoothContour_new, pop.
  all: repeat wp_step.
  all: intros ev self ax args' kwargs' Hev Hcalled.
  all: split_events Hev; subst ev; try discriminate Hcalled.
  all: simpl in Hcalled; injection Hcalled as <- <- <- <-.
  all: match goal with
       | Hinit : __init__ _ = Ok _ |- _ =>
           apply init_keywords in Hinit as (? & ? & ? & ?)
       end.
  all: match goal with
       | Haxes : as_axes _ = Ok _ |- _ =>
           rewrite lookup_insert_ne in Haxes by done
       end.
  all: match goal with Hc : gca _ = _ |- _ => rewrite Hc end; simpl.
  all: split_and!; try done.
  all: try (by destruct (kwargs !! "ax")).
  all: intros Hhold.
  all: repeat match goal with
       | Hb : bool_decide _ = _ |- _ =>
           rewrite lookup_delete_ne, lookup_insert_ne, Hhold in Hb by done;
           simpl in Hb; try discriminate Hb; clear Hb
       end.
  all: match goal with Hc : ContourSet_init _ _ _ _ _ = _ |- _ => by rewrite Hc end.
Qed.

(** With keywords of the documented types the constructor is called, once. *)
Lemma smooth_contour_constructs (fill : bool) args kwargs (w : World Host)
    current ax sm kk n :
  (gca w).1 = Ok current →
  as_axes (default (VAxes current) (kwargs !! "ax")) = Ok ax →
  as_float (default (VInt 0) (kwargs !! "smooth")) = Ok sm →
  as_int (default (VInt 3) (kwargs !! "k")) = Ok kk →
  as_int (default (VInt 100) (kwargs !! "int_number")) = Ok n →
  (1 ≤ n)%Z →
  (default VNone (kwargs !! "hold") = VNone ∨
   ∃ b, as_bool (default VNone (kwargs !! "hold")) = Ok b) →
  ∃ self out,
    smooth self = sm ∧ k self = kk ∧ int_number self = n ∧
    let ev := {| called := call_ContourSet_init self ax args
                   (delete "int_number" (delete "k" (delete "smooth"
                      (delete "hold" (delete "ax"
                         (<["filled" := VBool fill]> kwargs))))));
                 raised := out |} in
    new_events (smooth_contour_with fill args kwargs) w !! 1 = Some ev ∧
    filter (λ ev, is_constructor (called ev) = true)
           (new_events (smooth_contour_with fill args kwargs) w) = [ev].
Proof.
  intros Hgca Hax Hsm Hk Hn Hpos Hhold.
  destruct (init_returns
              (delete "hold" (delete "ax" (<["filled" := VBool fill]> kwargs)))
              sm kk n) as (self & Hinit & Hs1 & Hs2 & Hs3);
    [by rewrite ?lookup_delete_ne, ?lookup_insert_ne by done..|done|].
  exists self.
  change (wp (smooth_contour_with fill args kwargs) w
    (λ _ _ evs, ∃ out,
       smooth self = sm ∧ k self = kk ∧ int_number self = n ∧
       let ev := {| called := call_ContourSet_init self ax args
                      (delete "int_number" (delete "k" (delete "smooth"
                         (delete "hold" (delete "ax"
                            (<["filled" := VBool fill]> kwargs))))));
                    raised := out |} in
       evs !! 1 = Some ev ∧
       filter (λ ev, is_constructor (called ev) = true) evs = [ev])).
  destruct fill; unfold smooth_contour_with, smooth_contour, smooth_contourf,
    SmoothContour_new, pop.
  all: rewrite Hinit.
  all: rewrite (lookup_insert_ne _ "filled" "ax") by done.
  all: rewrite (lookup_delete_ne _ "ax" "hold"), (lookup_insert_ne _ "filled" "hold")
    by done.
  all: repeat wp_step.
  all: repeat match goal with
    | Hc : gca ?w0 = (_, _), Hg : (gca ?w0).1 = _ |- _ =>
        rewrite Hc in Hg; simpl in Hg
    | Hg : Raise _ = Ok _ |- _ => discriminate Hg
    | Hg : Ok _ = Ok _ |- _ => injection Hg as ->
    end.
  all: repeat match goal with
    | Ha : as_axes _ = _ |- _ => rewrite Hax in Ha; try discriminate Ha;
                                 injection Ha as ->
    end.
  all: try (eexists; split_and!; [done..|reflexivity|reflexivity]).
  all: exfalso; destruct Hhold as [Hnone|[? [=]]].
  all: match goal with
       | Hb : bool_decide (_ ≠ VNone) = true |- _ =>
           rewrite Hnone in Hb; discriminate Hb
       end.
Qed.

(** C9. [smooth_contour] and [smooth_contourf] consume the keywords
    [smooth], [k], [int_number], [ax] and [hold] alone. Whenever the
    [ContourSet] constructor is called, it is on the axes given by [ax]
    (default: the current axes), with the positional arguments as they
    came, with all other keywords as they came except that [filled] is
    set to [False] respectively [True], and with the attributes [smooth],
    [k] and [int_number] read from the keywords (defaults 0, 3 and 100);
    when no [hold] is given the constructor runs in the world as [gca]
    left it. And the constructor is called, once, right after
    [pyplot.gca], with just these arguments, whenever [gca] returns, [ax]
    (if given) is an axes, [smooth] a number, [k] an integer, [int_number]
    an integer that is at least 1 and [hold] missing, [None] or a flag. *)
Theorem smooth_contour_keywords (fill : bool) args kwargs (w : World Host) :
  let run := smooth_contour_with fill args kwargs in
  let left := delete "int_number" (delete "k" (delete "smooth" (delete "hold"
                (delete "ax" (<["filled" := VBool fill]> kwargs))))) in
  (∀ ev self ax args' kwargs',
     ev ∈ new_events run w →
     called ev = call_ContourSet_init self ax args' kwargs' →
     args' = args ∧ kwargs' = left ∧
     target_axes kwargs w = Ok ax ∧
     as_float (default (VInt 0) (kwargs !! "smooth")) = Ok (smooth self) ∧
     as_int (default (VInt 3) (kwargs !! "k")) = Ok (k self) ∧
     as_int (default (VInt 100) (kwargs !! "int_number")) = Ok (int_number self) ∧
     (kwargs !! "hold" = None →
      raised ev = exn_of (ContourSet_init self ax args' kwargs' (gca w).2).1)) ∧
  (∀ current ax sm kk n,
     (gca w).1 = Ok current →
     as_axes (default (VAxes current) (kwargs !! "ax")) = Ok ax →
     as_float (default (VInt 0) (kwargs !! "smooth")) = Ok sm →
     as_int (default (VInt 3) (kwargs !! "k")) = Ok kk →
     as_int (default (VInt 100) (kwargs !! "int_number")) = Ok n →
     (1 ≤ n)%Z →
     (default VNone (kwargs !! "hold") = VNone ∨
      ∃ b, as_bool (default VNone (kwargs !! "hold")) = Ok b) →
     ∃ self out,
       smooth self = sm ∧ k self = kk ∧ int_number self = n ∧
       let ev := {| called := call_ContourSet_init self ax args left;
                    raised := out |} in
       new_events run w !! 1 = Some ev ∧
       filter (λ ev, is_constructor (called ev) = true) (new_events run w) = [ev]).
Proof.
  intros run left. split.
  - intros ev self ax args' kwargs'. apply smooth_contour_constructor_call.
  - intros current ax sm kk n. apply smooth_contour_constructs.
Qed.



Lemma smooth_contour_calls (fill : bool) args kwargs :
  all_events (λ ev, smooth_contour_call args kwargs (called ev))
             (smooth_contour_with fill args kwargs).
Proof.
  intros w.
  change (wp (smooth_contour_with fill args kwargs) w
    (λ _ _ evs, Forall (λ ev, smooth_contour_call args kwargs (called ev)) evs)).
  destruct fill; unfold smooth_contour_with, smooth_contour, smooth_contourf,
    SmoothContour_new, pop.
  all: repeat wp_step.
  all: repeat first [apply Forall_app; split|apply Forall_cons
                    |apply Forall_nil]; try done.
  all: simpl; split; [done|].
  all: match goal with
       | Hinit : __init__ _ = Ok _ |- _ =>
           apply init_keywords in Hinit as (_ & _ & _ & ->)
       end.
  all: intros key Hkey; rewrite !not_elem_of_cons in Hkey.
  all: destruct Hkey as (? & ? & ? & ? & ? & ? & _).
  all: by rewrite !lookup_delete_ne, lookup_insert_ne by done.
Qed.

End smooth_contour_facts.

(** ** [scatter_contour] *)

Section scatter_contour_facts.
Context {numpy : Numpy} {Host : Type} `{!Matplotlib Host}.









Lemma keywords_lookup explicit kwargs kw key v :
  keywords explicit kwargs = Ok kw → explicit !! key = Some v →
  kw !! key = Some v.
Proof.
  unfold keywords. case_bool_decide; [|done]. intros [= <-] Hkey.
  by apply lookup_union_Some_l.
Qed.

(** The contour calls of [scatter_contour] are given the density. *)
Lemma scatter_contour_inputs x y levels threshold log_counts histogram2d_args
    plot_args contour_args filled_contour smooth ax :
  all_events
    (λ ev, ∀ H xbins ybins args kwargs,
       histogram2d x y (default ∅ histogram2d_args) = Ok (H, xbins, ybins) →
       contour_inputs (called ev) = Some (args, kwargs) →
       density_inputs log_counts threshold levels H xbins ybins args kwargs)
    (scatter_contour x y levels threshold log_counts histogram2d_args plot_args
       contour_args filled_contour smooth ax).
Proof.
  assert (∀ Hd xbins ybins (p : list (list Qc) * Qc) lv x0 x1 y0 y1 args kwargs,
            (if log_counts
             then ((λ row : list Qc, (λ h : Qc, log10 (1 + h)%Qc) <$> row) <$> Hd,
                   log10 (1 + threshold)%Qc)
             else (Hd, threshold)) = p →
            (∀ n, levels = LevelsInt n →
               ∃ top lvs, np.max p.1 = Ok top ∧ np.linspace p.2 top n = Ok lvs ∧
                          (lv = lvs ∨ ∃ i, lv = np.slice i (i + 1) lvs)) →
            index xbins 0 = Ok x0 → index xbins (length xbins - 1) = Ok x1 →
            index ybins 0 = Ok y0 → index ybins (length ybins - 1) = Ok y1 →
            args = [VArr2 (np.T p.1); VArr1 lv] →
            kwargs !! "extent" = Some (VList [x0; x1; y0; y1]) →
            density_inputs log_counts threshold levels Hd xbins ybins args kwargs)
    as Hintro.
  { intros Hd xbins ybins p lv x0 x1 y0 y1 args kwargs Hp Hlevels
      ?%index_Ok ?%index_Ok ?%index_Ok ?%index_Ok -> Hextent.
    assert (p = (density log_counts Hd, density_threshold log_counts threshold))
      as -> by (by destruct log_counts; subst p).
    split_and!; [done|by eexists _, _, _, _|].
    intros n Hn. destruct (Hlevels n Hn) as (top & lvs & ? & ? & [->|[i ->]]).
    - exists top, lvs, 0. auto.
    - exists top, lvs, i. auto. }
  unfold scatter_contour.
  destruct smooth as [sm|], filled_contour, ax as [ax|],
    levels as [n|[|v [|v' l]]].
  all: repeat all_events_step; try done.
  all: try match goal with
    | |- all_events _ (smooth_contour ?args ?kw) =>
        apply (all_events_weaken _ _ _ (smooth_contour_calls false args kw))
    | |- all_events _ (smooth_contourf ?args ?kw) =>
        apply (all_events_weaken _ _ _ (smooth_contour_calls true args kw))
    end.
  all: intros.
  all: repeat match goal with
    | ev : Event |- _ => destruct ev as [[] ?]; simpl in *; try done
    end.
  all: repeat match goal with
    | Hinp : contour_inputs (called {| called := _ |}) = Some _ |- _ =>
        simpl in Hinp
    | Hcall : _ ∧ _ |- _ => destruct Hcall as [-> Hcall]
    | Hinp : Some _ = Some _ |- _ => injection Hinp as <- <-
    | Heq : histogram2d ?x ?y ?a = Ok _, Hhist : histogram2d ?x ?y ?a = Ok _ |- _ =>
        rewrite Heq in Hhist; injection Hhist as <- <- <-
    end.
  all: eapply Hintro; [eassumption| |eassumption..|reflexivity|].
  all: try (intros ? [= <-]; eexists _, _; split_and!; [eassumption..|]; eauto).
  all: try (intros ? ?; discriminate).
  all: try match goal with
    | Hcall : ∀ key, _ → ?kw !! key = _ |- ?kw !! _ = _ =>
        rewrite Hcall by (by apply (bool_decide_unpack _))
    end.
  all: try reflexivity.
  all: eapply keywords_lookup; [eassumption|reflexivity].
Qed.

(** No other call of [scatter_contour] is a histogram call. *)
Lemma smooth_contour_no_histogram (fill : bool) args kwargs :
  all_events (Host:=Host) (λ ev, is_histogram2d (called ev) = false)
             (smooth_contour_with fill args kwargs).
Proof.
  apply (all_events_weaken _ _ _ (smooth_contour_calls fill args kwargs)).
  by intros [[] ?].
Qed.

(** Events that a computation never logs. *)
Lemma filter_new_events {A} (f : Event → bool) (m : M Host A) w :
  all_events (λ ev, f ev = false) m →
  filter (λ ev, f ev = true) (new_events m w) = [].
Proof.
  intros Hm. specialize (Hm w). induction Hm as [|ev evs Hev _ IH]; [done|].
  rewrite filter_cons_False; [done|]. by rewrite Hev.
Qed.

(** C3. The density that [scatter_contour] contours comes from a single
    call of the histogram function, [np.histogram2d(x, y, **histogram2d_args)]:
    the log holds at most that one histogram call, and every contour call
    ([ax.contour], [ax.contourf], or the constructor behind
    [smooth_contour] and [smooth_contourf]) is given as array the
    transpose of the counts [H] that call returned, or of [log10(1 + H)]
    when [log_counts] is set, as extent the first and last bin edges
    [[xbins[0], xbins[-1], ybins[0], ybins[-1]]] of that same call, and,
    when [levels] is a number, levels that run from the threshold, or from
    [log10(1 + threshold)] when [log_counts] is set, to the greatest
    density. *)
Theorem scatter_contour_density x y levels threshold log_counts histogram2d_args
    plot_args contour_args filled_contour smooth ax (w : World Host) :
  let run := scatter_contour x y levels threshold log_counts histogram2d_args
               plot_args contour_args filled_contour smooth ax in
  let hargs := default ∅ histogram2d_args in
  let hist := {| called := call_histogram2d x y hargs;
                 raised := exn_of (histogram2d x y hargs) |} in
  let hists := filter (λ ev, is_histogram2d (called ev) = true) (new_events run w) in
  (hists = [] ∨ hists = [hist]) ∧
  ∀ H xbins ybins ev args kwargs,
    histogram2d x y hargs = Ok (H, xbins, ybins) →
    ev ∈ new_events run w →
    contour_inputs (called ev) = Some (args, kwargs) →
    density_inputs log_counts threshold levels H xbins ybins args kwargs.
Proof.
  intros run hargs hist hists. split.
  - subst hists run. unfold scatter_contour. cbn zeta. fold hargs.
    rewrite new_events_bind, list.filter_app.
    rewrite (filter_new_events (λ ev, is_histogram2d (called ev)))
      by (destruct ax; repeat all_events_step; done).
    destruct (result_of _ w) as [ax'|e]; [|by left]. right.
    rewrite new_events_bind. simpl. rewrite filter_cons_True by done.
    fold hist. f_equal.
    destruct (result_of _ _) as [[[Hd xbins] ybins]|e]; [|done].
    apply (filter_new_events (λ ev, is_histogram2d (called ev))).
    destruct smooth as [sm|], filled_contour.
    all: repeat all_events_step; try done.
    all: lazymatch goal with
      | |- all_events _ (smooth_contour _ _) =>
          exact (smooth_contour_no_histogram false _ _)
      | |- all_events _ (smooth_contourf _ _) =>
          exact (smooth_contour_no_histogram true _ _)
      end.
  - intros Hd xbins ybins ev args kwargs Hhist Hev Hinputs.
    pose proof (scatter_contour_inputs x y levels threshold log_counts
                  histogram2d_args plot_args contour_args filled_contour smooth ax w)
      as Hall.
    rewrite list.Forall_forall in Hall. by eapply Hall.
Qed.

(** What a step returned may be used by the steps after it. *)
Lemma all_events_bind_post {A B} P (Q : A → Prop) (m : M Host A) (f : A → M Host B) :
  (∀ w, wp m w (λ r _ _, ∀ a, r = Ok a → Q a)) →
  all_events P m → (∀ a, Q a → all_events P (f a)) → all_events P (m ≫= f).
Proof.
  intros Hq Hm Hf w. rewrite new_events_bind. apply Forall_app. split; [done|].
  destruct (result_of m w) as [a|e] eqn:Hr; [|constructor].
  apply Hf, (Hq w). done.
Qed.

Lemma smooth_contour_no_plot (fill : bool) args kwargs :
  all_events (Host:=Host) (λ ev, is_plot (called ev) = false)
             (smooth_contour_with fill args kwargs).
Proof.
  apply (all_events_weaken _ _ _ (smooth_contour_calls fill args kwargs)).
  by intros [[] ?].
Qed.

(** A point on or beyond the last edge of the bins, in [x] or in [y], is in
    no bin of the mask: [x < xbins[i+1]] or [y < ybins[j+1]] fails for it. *)
Lemma mark_bin_last_edge x y xbins ybins po ij po' m xv yv :
  x !! m = Some xv → y !! m = Some yv →
  Forall (λ e, (e ≤ xv)%Qc) xbins ∨ Forall (λ e, (e ≤ yv)%Qc) ybins →
  mark_bin x y xbins ybins po ij = Ok po' → po' !! m = po !! m.
Proof.
  intros Hx Hy Hlast. destruct ij as [i j]. unfold mark_bin.
  destruct (index xbins i) as [xlo|] eqn:Hxlo; [|done].
  destruct (index xbins (i + 1)) as [xhi|] eqn:Hxhi; [|done].
  destruct (index ybins j) as [ylo|] eqn:Hylo; simpl.
  2: { unfold np.logical_and. case_bool_decide; done. }
  destruct (index ybins (j + 1)) as [yhi|] eqn:Hyhi; simpl.
  2: { unfold np.logical_and. repeat (case_bool_decide; simpl; try done). }
  unfold np.logical_and, np.logical_or.
  repeat (case_bool_decide; simpl; try done).
  intros [= <-]. rewrite !lookup_zip_with, !list_lookup_fmap, Hx, Hy. simpl.
  assert (bool_decide (xv < xhi)%Qc && bool_decide (yv < yhi)%Qc = false) as Hout.
  { apply index_Ok in Hxhi, Hyhi. destruct Hlast as [Hle|Hle].
    - rewrite (bool_decide_eq_false_2 (xv < xhi)%Qc); [done|].
      apply Qcle_not_lt. by eapply (Forall_lookup_1 _ _ _ _ Hle).
    - rewrite (bool_decide_eq_false_2 (yv < yhi)%Qc); [by rewrite andb_false_r|].
      apply Qcle_not_lt. by eapply (Forall_lookup_1 _ _ _ _ Hle). }
  destruct (po !! m) as [b|]; [simpl|done].
  destruct (bool_decide (xlo ≤ xv)%Qc), (bool_decide (xv < xhi)%Qc),
    (bool_decide (ylo ≤ yv)%Qc), (bool_decide (yv < yhi)%Qc); simpl in *;
    try done; by rewrite orb_false_r.
Qed.

Lemma mark_bins_last_edge x y xbins ybins po w po' m xv yv :
  x !! m = Some xv → y !! m = Some yv →
  Forall (λ e, (e ≤ xv)%Qc) xbins ∨ Forall (λ e, (e ≤ yv)%Qc) ybins →
  mark_bins x y xbins ybins po w = Ok po' → po' !! m = po !! m.
Proof.
  intros Hx Hy Hlast. revert po. induction w as [|ij w IH]; intros po; simpl.
  - by intros [= <-].
  - destruct (mark_bin x y xbins ybins po ij) as [po1|] eqn:Hbin; [|done].
    simpl. intros Hrest. rewrite (IH _ Hrest).
    exact (mark_bin_last_edge _ _ _ _ _ _ _ _ _ _ Hx Hy Hlast Hbin).
Qed.

(** No point on or beyond the last edge of the bins is handed to
    [ax.plot]. *)
Lemma scatter_contour_plot x y levels threshold log_counts histogram2d_args
    plot_args contour_args filled_contour smooth ax :
  all_events
    (λ ev, ∀ ax' xs ys kw Hd xbins ybins xv yv,
       called ev = call_plot ax' xs ys kw →
       histogram2d x y (default ∅ histogram2d_args) = Ok (Hd, xbins, ybins) →
       Forall (λ e, (e ≤ xv)%Qc) xbins ∨ Forall (λ e, (e ≤ yv)%Qc) ybins →
       (xv, yv) ∉ zip xs ys)
    (scatter_contour x y levels threshold log_counts histogram2d_args plot_args
       contour_args filled_contour smooth ax).
Proof.
  assert (∀ fill args kwargs,
            all_events
              (λ ev, ∀ ax' xs ys kw Hd xbins ybins xv yv,
                 called ev = call_plot ax' xs ys kw →
                 histogram2d x y (default ∅ histogram2d_args) = Ok (Hd, xbins, ybins) →
                 Forall (λ e, (e ≤ xv)%Qc) xbins ∨ Forall (λ e, (e ≤ yv)%Qc) ybins →
                 (xv, yv) ∉ zip xs ys)
              (smooth_contour_with fill args kwargs)) as Hsmooth.
  { intros. eapply all_events_weaken; [apply smooth_contour_no_plot|].
    intros [[] ?]; done. }
  unfold scatter_contour. destruct smooth as [sm|], filled_contour.
  all: repeat first
    [ lazymatch goal with
      | |- all_events _ (smooth_contour _ _) => exact (Hsmooth false _ _)
      | |- all_events _ (smooth_contourf _ _) => exact (Hsmooth true _ _)
      | |- all_events _ ((if bool_decide _ then _ else mret ?X) ≫= _) =>
          apply (all_events_bind_post _ (λ Xplot, Xplot ⊆ X));
          [|destruct (bool_decide _)|intros ? ?]
      end
    | all_events_step ]; try done.
  all: lazymatch goal with
    | |- ∀ w, wp _ w _ =>
        intros w; destruct (bool_decide _); [|by apply wp_ret; intros ? [= <-]];
        apply wp_bind, wp_lift;
        lazymatch goal with
        | |- context [index ?segs 0] => destruct (index segs 0) as [poly|]; [|done]
        end;
        apply wp_bind, wp_try_except, wp_call;
        (destruct (contains_points _ _) as [inside|];
         [|apply wp_call; destruct (points_inside_poly _ _) as [inside|]; [|done]]);
        apply wp_lift; intros ? ?; by eapply compress_subseteq
    | |- _ => idtac
    end.
  all: intros ax' xs ys kw Hd xbins ybins xv yv [= <- <- <- <-] Hhist Hlast Hin.
  all: match goal with
    | Heq : histogram2d _ _ _ = Ok _ |- _ =>
        rewrite Heq in Hhist; injection Hhist as <- <- <-
    end.
  all: match goal with
    | Hxs : np.compress ?po _ = Ok _, Hys : np.compress ?po _ = Ok _,
      HX : np.T <$> _ = Ok _, Hsub : _ ⊆ _,
      Hcol0 : np.column 0 _ = Ok _, Hcol1 : np.column 1 _ = Ok _,
      Hmask : mark_bins _ _ _ _ _ _ = Ok ?po |- _ =>
        destruct (scattered_points _ _ _ _ _ _ _ _ _ _ Hxs Hys HX Hsub Hcol0 Hcol1 Hin)
          as (m & Hm & Hxm & Hym);
        pose proof (mark_bins_last_edge _ _ _ _ _ _ _ m xv yv Hxm Hym Hlast Hmask)
          as Hout
    end.
  all: rewrite Hm in Hout; symmetry in Hout.
  all: by apply lookup_replicate in Hout as [? _].
Qed.

(** C1 (the code departs from it). [scatter_contour] never hands to
    [ax.plot] a data point that is on or beyond the last edge of the bins,
    in [x] or in [y]: the mask of the sparse bins asks for
    [x < xbins[i+1]] and [y < ybins[j+1]] in every bin, the last one too,
    while [np.histogram2d] counts the points on the last edge in the last
    bin. A point with the greatest [x] or the greatest [y] of the data is
    therefore never scattered, however sparse its bin. *)
Theorem scatter_contour_misses_last_edge x y levels threshold log_counts
    histogram2d_args plot_args contour_args filled_contour smooth ax
    (w : World Host) H xbins ybins ev ax' xs ys kw xv yv :
  let run := scatter_contour x y levels threshold log_counts histogram2d_args
               plot_args contour_args filled_contour smooth ax in
  histogram2d x y (default ∅ histogram2d_args) = Ok (H, xbins, ybins) →
  ev ∈ new_events run w →
  called ev = call_plot ax' xs ys kw →
  Forall (λ e, (e ≤ xv)%Qc) xbins ∨ Forall (λ e, (e ≤ yv)%Qc) ybins →
  (xv, yv) ∉ zip xs ys.
Proof.
  intros run Hhist Hev Hcall Hlast.
  pose proof (scatter_contour_plot x y levels threshold log_counts histogram2d_args
                plot_args contour_args filled_contour smooth ax w) as Hall.
  rewrite list.Forall_forall in Hall. by eapply Hall.
Qed.

End scatter_contour_facts.

Lemma failing_canvas_keeps_holds : @KeepsHolds () failing_canvas.
Proof. by split. Qed.

(** C8 where the construction fails after it switched the hold flag off:
    the flag of axes 0 is on again after the call. *)
Lemma smooth_contour_restores_hold_witness :
  let run := @smooth_contour_with () failing_canvas false []
               {[ "hold" := VBool false ]} in
  @target_axes () failing_canvas {[ "hold" := VBool false ]} start = Ok 0 ∧
  result_of run start = Raise (LibraryError "contour") ∧
  default true (holds (world_after run start) !! 0) = default true (holds start !! 0).
Proof.
  intros run. split_and!; [done|done|].
  apply (@smooth_contour_restores_hold () failing_canvas
           failing_canvas_keeps_holds false [] {[ "hold" := VBool false ]} start 0).
  done.
Defined.

(** C9 at [smooth_contourf(z, smooth=1, colors='k', filled=True)]: the
    constructor is called with [colors='k'] and [filled=True], and the
    attribute [smooth] is 1. *)
Lemma smooth_contour_keywords_witness :
  let run := @smooth_contour_with () (canvas no_contours false) true
               [VArr2 triangle] sample_keywords in
  let left := delete "int_number" (delete "k" (delete "smooth" (delete "hold"
                (delete "ax" (<["filled" := VBool true]> sample_keywords))))) in
  left = {[ "colors" := VStr "k"; "filled" := VBool true ]} ∧
  ∃ self out,
    smooth self = Qc_of_Z 1 ∧ k self = 3%Z ∧ int_number self = 100%Z ∧
    let ev := {| called := call_ContourSet_init self 0 [VArr2 triangle] left;
                 raised := out |} in
    new_events run start !! 1 = Some ev ∧
    filter (λ ev, is_constructor (called ev) = true) (new_events run start) = [ev].
Proof.
  intros run left. split.
  - apply (bool_decide_unpack _). by vm_compute.
  - exact (proj2 (@smooth_contour_keywords () (canvas no_contours false) true
                    [VArr2 triangle] sample_keywords start)
             0 0 (Qc_of_Z 1) 3%Z 100%Z eq_refl eq_refl eq_refl eq_refl eq_refl
             ltac:(lia) (or_introl eq_refl)).
Defined.

(** C3 at [scatter_contour([0, 0, 0, 1, 2], [0, 0, 0, 1, 2], threshold=2)]:
    the outline call [ax.contour]. *)
Lemma scatter_contour_density_witness :
  ∃ H xbins ybins args kwargs,
    @histogram2d numpy_no_log corner_data corner_data ∅ = Ok (H, xbins, ybins) ∧
    {| called := call_contour 0 false args kwargs; raised := None |}
      ∈ new_events (@scatter_corner_data (canvas no_contours false)) start ∧
    @density_inputs numpy_no_log false 2 (LevelsInt 10) H xbins ybins args kwargs.
Proof.
  eexists _, _, _, _, _.
  assert (∀ A B C : Prop, A → (A → B) → (A → B → C) → A ∧ B ∧ C) as Hsplit by tauto.
  apply Hsplit.
  - vm_compute. reflexivity.
  - intros _. vm_compute. do 2 right. left.
  - intros Hhist Hev.
    exact (proj2 (@scatter_contour_density numpy_no_log () (canvas no_contours false)
                    corner_data corner_data (LevelsInt 10) 2%Qc false None None None
                    true None None start)
             _ _ _ _ _ _ Hhist Hev eq_refl).
Defined.



(** C1 at [scatter_contour([0, 0, 0, 1, 2], [0, 0, 0, 1, 2], threshold=2)]
    on axes whose outline has no segment: [(2, 2)] is a point of the sparse
    regions, on the last edge of the bins, and is not among the points
    handed to [ax.plot]. *)
Lemma scatter_contour_misses_last_edge_witness :
  ∃ H xbins ybins kw,
    @histogram2d numpy_no_log corner_data corner_data ∅ = Ok (H, xbins, ybins) ∧
    (Qc_of_Z 2, Qc_of_Z 2) ∈ sparse_points H xbins ybins 2 corner_data corner_data ∧
    {| called := call_plot 0 [Qc_of_Z 1] [Qc_of_Z 1] kw; raised := None |}
      ∈ new_events (@scatter_corner_data (canvas no_contours false)) start ∧
    Forall (λ e, (e ≤ Qc_of_Z 2)%Qc) xbins ∧
    (Qc_of_Z 2, Qc_of_Z 2) ∉ zip [Qc_of_Z 1] [Qc_of_Z 1].
Proof.
  eexists _, _, _, _.
  assert (∀ A B C D E : Prop, A → B → C → D → (A → C → D → E) → A ∧ B ∧ C ∧ D ∧ E)
    as Hsplit by tauto.
  apply Hsplit.
  - vm_compute. reflexivity.
  - vm_compute. right. left.
  - vm_compute. do 4 right. left.
  - apply (bool_decide_unpack _). vm_compute. exact I.
  - intros Hhist Hev Hlast.
    exact (@scatter_contour_misses_last_edge numpy_no_log () (canvas no_contours false)
             corner_data corner_data (LevelsInt 10) 2%Qc false None None None true
             None None start _ _ _ _ 0 _ _ _ (Qc_of_Z 2) (Qc_of_Z 2)
             Hhist Hev eq_refl (or_introl Hlast)).
Defined.

(** C1 as stated fails at
    [scatter_contour([0, 0, 0, 1, 2], [0, 0, 0, 1, 2], threshold=2)] on axes
    whose outline has no segment. The bins have the edges [0, 0.2, ..., 2];
    the points [(1, 1)] and [(2, 2)] are each alone in a bin, and so are
    the points of the sparse regions; yet the one call of [ax.plot] is
    given [(1, 1)] alone. *)
Lemma scatter_corner_data_plot :
  let run := @scatter_corner_data (canvas no_contours false) in
  ∃ H xbins ybins,
    @histogram2d numpy_no_log corner_data corner_data ∅ = Ok (H, xbins, ybins) ∧
    sparse_points H xbins ybins 2 corner_data corner_data
      = [(Qc_of_Z 1, Qc_of_Z 1); (Qc_of_Z 2, Qc_of_Z 2)] ∧
    called <$> filter (λ ev, is_plot (called ev) = true) (new_events run start)
      = [call_plot 0 [Qc_of_Z 1] [Qc_of_Z 1]
           {[ "zorder" := VInt 1; "marker" := VStr "."; "linestyle" := VStr "none" ]}].
Proof.
  intros run. eexists _, _, _.
  assert (∀ A B C : Prop, A → (A → B) → C → A ∧ B ∧ C) as Hsplit by tauto.
  apply Hsplit.
  - vm_compute. reflexivity.
  - intros _. vm_compute. reflexivity.
  - vm_compute. reflexivity.
Qed.

(** * Further properties *)

Section unique_vec_more.
Context `{DictOrder}.

(** The sorted indices hold no index twice. *)
Lemma gdx_NoDup A : NoDup (np.sort (dict_values (unique_vec_loop A))).
Proof.
  unfold np.sort. rewrite merge_sort_Permutation, dict_values_perm.
  apply NoDup_fmap_2_strong; [|apply NoDup_map_to_list].
  intros [r i] [r' i'] Hin Hin' Heq. simpl in Heq. subst i'.
  apply elem_of_map_to_list in Hin, Hin'.
  apply unique_vec_loop_lookup in Hin as [Hr _], Hin' as [Hr' _]. congruence.
Qed.

Lemma Sorted_seq lo n : Sorted Nat.le (seq lo n).
Proof.
  revert lo. induction n as [|n IH]; intros lo; simpl; [constructor|].
  constructor; [apply IH|]. destruct n; simpl; constructor. unfold Nat.le. lia.
Qed.

(** Sorted indices that are the numbers from [lo] on. *)
Lemma gdx_seq A lo n :
  (∀ i, i ∈ np.sort (dict_values (unique_vec_loop A)) ↔ lo ≤ i < lo + n) →
  np.sort (dict_values (unique_vec_loop A)) = seq lo n.
Proof.
  intros Hin. apply (Sorted_unique Nat.le); [apply Sorted_sort|apply Sorted_seq|].
  apply NoDup_Permutation; [apply gdx_NoDup|apply NoDup_seq|].
  intros i. by rewrite Hin, elem_of_seq.
Qed.

Lemma take_rows_seq {X} (a : list X) : np.take_rows a (seq 0 (length a)) = Ok a.
Proof.
  destruct (take_rows_Ok a (seq 0 (length a))) as (rows & -> & Hlen & Hnth).
  { intros g Hg%elem_of_seq. lia. }
  f_equal. apply list_eq. intros n. rewrite length_seq in Hlen.
  destruct (decide (n < length a)) as [Hn|Hn].
  - apply Hnth. by rewrite lookup_seq_lt.
  - by rewrite !lookup_ge_None_2 by lia.
Qed.

(** Without a repeated point every index is a last one. *)
Lemma gdx_distinct A :
  NoDup A → np.sort (dict_values (unique_vec_loop A)) = seq 0 (length A).
Proof.
  intros Hnd. apply gdx_seq. intros i. rewrite elem_of_gdx. split.
  - intros (r & Hr & _). apply lookup_lt_Some in Hr. lia.
  - intros [_ Hi]. destruct (lookup_lt_is_Some_2 A i) as [r Hr]; [lia|].
    exists r. split; [done|]. intros j Hj Hr'.
    pose proof (NoDup_lookup _ _ _ _ Hnd Hr Hr'). lia.
Qed.

(** The first point and then distinct points among which it recurs: every
    index but 0 is a last one. *)
Lemma gdx_ring p t :
  NoDup t → p ∈ t →
  np.sort (dict_values (unique_vec_loop (p :: t))) = seq 1 (length t).
Proof.
  intros Hnd Hp. apply gdx_seq. intros i. rewrite elem_of_gdx. split.
  - intros (r & Hr & Hlast). destruct i as [|i].
    + injection Hr as <-. apply list_elem_of_lookup in Hp as [j Hj].
      destruct (Hlast (S j)); [lia|done].
    + apply lookup_lt_Some in Hr. simpl in Hr. lia.
  - intros [Hi Hlt]. destruct i as [|i]; [lia|].
    destruct (lookup_lt_is_Some_2 t i) as [r Hr]; [lia|].
    exists r. split; [done|]. intros [|j] Hj Hr'; [lia|]. simpl in Hr'.
    pose proof (NoDup_lookup _ _ _ _ Hnd Hr Hr'). lia.
Qed.

(** X2. A segment without a repeated point is returned as it is, open; a
    ring, whose first point recurs among otherwise distinct points, is
    returned as it is, closed. *)
Theorem unique_vec_unchanged A :
  A ≠ [] →
  NoDup A ∨ (∃ p t, A = p :: t ∧ NoDup t ∧ p ∈ t) →
  unique_vec A = Ok (A, if closed A then 1%Z else 0%Z).
Proof.
  intros HA Hcase.
  destruct (unique_vec_Ok A HA) as (useg & per & -> & Hrows).
  destruct Hcase as [Hnd|(p & t & -> & Hnd & Hp)].
  - rewrite (gdx_distinct A Hnd) in Hrows.
    assert (closed A = false) as ->.
    { destruct A as [|p t]; [done|]. simpl. apply bool_decide_eq_false_2.
      by apply list.NoDup_cons in Hnd as [? _]. }
    destruct Hrows as [(-> & _ & Hrows)|(_ & Hne & _)].
    + rewrite take_rows_seq in Hrows. by injection Hrows as <-.
    + destruct A; [done|]. by destruct Hne.
  - rewrite (gdx_ring p t Hnd Hp) in Hrows.
    assert (closed (p :: t) = true) as -> by (by apply bool_decide_eq_true_2).
    destruct Hrows as [(_ & Hz & _)|(-> & _ & Hrows)].
    + destruct t; [by apply elem_of_nil in Hp|done].
    + change (0 :: seq 1 (length t)) with (seq 0 (length (p :: t))) in Hrows.
      rewrite take_rows_seq in Hrows. by injection Hrows as <-.
Qed.

Lemma elem_of_keep_last l r : r ∈ keep_last l ↔ r ∈ l.
Proof.
  induction l as [|p l IH]; [done|]. simpl. case_bool_decide as Hp.
  - rewrite IH, elem_of_cons. split; [auto|]. by intros [->|?].
  - by rewrite !elem_of_cons, IH.
Qed.

Lemma NoDup_keep_last l : NoDup (keep_last l).
Proof.
  induction l as [|p l IH]; simpl; [constructor|]. case_bool_decide; [done|].
  apply list.NoDup_cons. by rewrite elem_of_keep_last.
Qed.

Lemma keep_last_sublist l : keep_last l `sublist_of` l.
Proof.
  induction l as [|p l IH]; simpl; [done|]. case_bool_decide.
  - by apply sublist_cons.
  - by apply sublist_skip.
Qed.

Lemma keep_last_NoDup l : NoDup l → keep_last l = l.
Proof.
  induction 1 as [|p l Hp _ IH]; simpl; [done|].
  by rewrite bool_decide_eq_false_2, IH.
Qed.

Lemma Sorted_fmap_S l : Sorted Nat.le l → Sorted Nat.le (S <$> l).
Proof.
  induction 1 as [|i l _ IH Hhd]; simpl; constructor; [done|].
  destruct Hhd; simpl; constructor. unfold Nat.le in *. lia.
Qed.

(** The sorted indices of a longer array. *)
Lemma gdx_cons p l :
  np.sort (dict_values (unique_vec_loop (p :: l))) =
  (if bool_decide (p ∈ l) then [] else [0]) ++
  (S <$> np.sort (dict_values (unique_vec_loop l))).
Proof.
  apply (Sorted_unique Nat.le); [apply Sorted_sort| |].
  - pose proof (Sorted_fmap_S _ (Sorted_sort (dict_values (unique_vec_loop l)))) as Hs.
    case_bool_decide; [done|]. simpl. constructor; [done|].
    destruct (np.sort _); simpl; constructor. unfold Nat.le. lia.
  - apply NoDup_Permutation; [apply gdx_NoDup| |].
    + assert (NoDup (S <$> np.sort (dict_values (unique_vec_loop l)))) as Hnd.
      { apply NoDup_fmap_2; [|apply gdx_NoDup]. intros ? ?. lia. }
      case_bool_decide; [done|]. simpl. apply list.NoDup_cons. split; [|done].
      intros (? & ? & ?)%list_elem_of_fmap. lia.
    + intros i. rewrite elem_of_gdx, elem_of_app, list_elem_of_fmap.
      setoid_rewrite elem_of_gdx. split.
      * intros (r & Hr & Hlast). destruct i as [|i].
        { left. injection Hr as <-. rewrite bool_decide_eq_false_2; [by left|].
          intros [j Hj]%list_elem_of_lookup. by apply (Hlast (S j)); [lia|]. }
        right. exists i. split; [done|]. exists r. split; [done|].
        intros j Hj. apply (Hlast (S j)). lia.
      * intros [Hz|(i' & -> & r & Hr & Hlast)].
        { case_bool_decide as Hp; [by apply elem_of_nil in Hz|].
          apply list_elem_of_singleton in Hz as ->. exists p. split; [done|].
          intros [|j] Hj Hr; [lia|]. apply Hp. by eapply list_elem_of_lookup_2. }
        exists r. split; [done|]. intros [|j] Hj; [lia|]. apply Hlast. lia.
Qed.

Lemma take_rows_S {X} (x : X) a gdx :
  np.take_rows (x :: a) (S <$> gdx) = np.take_rows a gdx.
Proof.
  unfold np.take_rows. induction gdx as [|g gdx IH]; [done|].
  change ((r ← index (x :: a) (S g);
           rows ← mapM (index (x :: a)) (S <$> gdx); mret (r :: rows)) =
          (r ← index a g; rows ← mapM (index a) gdx; mret (r :: rows))).
  by rewrite IH.
Qed.

(** The rows at the sorted indices: the last occurrences. *)
Lemma take_rows_gdx A :
  np.take_rows A (np.sort (dict_values (unique_vec_loop A))) = Ok (keep_last A).
Proof.
  induction A as [|p l IH].
  - unfold unique_vec_loop. simpl.
    assert (dict_values ∅ = []) as ->; [|done].
    apply Permutation_nil_r. by rewrite dict_values_perm, map_to_list_empty.
  - rewrite gdx_cons. cbn [keep_last]. case_bool_decide; cbn [app].
    + by rewrite take_rows_S.
    + change (np.take_rows (p :: l) (0 :: ?g))
        with (rows ← np.take_rows (p :: l) g; Ok (p :: rows)).
      by rewrite take_rows_S, IH.
Qed.

(** What [unique_vec] returns: the first point, then the last occurrence
    of each point after it. *)
Lemma unique_vec_cons p t :
  unique_vec (p :: t) = Ok (p :: keep_last t, if bool_decide (p ∈ t) then 1%Z else 0%Z).
Proof.
  destruct (unique_vec_Ok (p :: t)) as (useg & per & -> & Hrows); [done|].
  pose proof (take_rows_gdx (p :: t)) as Hkeep. cbn [keep_last] in Hkeep.
  cbv zeta in Hrows. rewrite gdx_cons in Hrows, Hkeep.
  destruct (bool_decide (p ∈ t)) eqn:Hp; cbn [app] in Hrows, Hkeep.
  - destruct Hrows as [(_ & Hz & _)|(-> & _ & Hrows)].
    + rewrite list_lookup_fmap in Hz. by destruct (np.sort _ !! 0).
    + change (np.take_rows (p :: t) (0 :: ?g))
        with (rows ← np.take_rows (p :: t) g; Ok (p :: rows)) in Hrows.
      rewrite Hkeep in Hrows. by injection Hrows as <-.
  - destruct Hrows as [(-> & _ & Hrows)|(_ & Hz & _)]; [|done].
    rewrite Hkeep in Hrows. by injection Hrows as <-.
Qed.

(** X1. [unique_vec] on every input: an empty array raises [IndexError]
    (from [gdx[0]]); otherwise the rows returned are the first row
    followed by the last occurrence of each row after it, in their order,
    and [per] is 1 exactly when the first row recurs. *)
Theorem unique_vec_last_occurrences A :
  unique_vec A =
  match A with
  | [] => Raise IndexError
  | p :: t => Ok (p :: keep_last t, if bool_decide (p ∈ t) then 1%Z else 0%Z)
  end.
Proof.
  destruct A as [|p t].
  - apply unique_vec_nil.
  - apply unique_vec_cons.
Qed.

(** X3. [unique_vec] is idempotent: applied to the rows it returned it
    returns them again, with the same flag. *)
Theorem unique_vec_idempotent A useg per :
  unique_vec A = Ok (useg, per) → unique_vec useg = Ok (useg, per).
Proof.
  destruct A as [|p t]; [by rewrite unique_vec_nil|].
  rewrite unique_vec_cons. intros [= <- <-]. rewrite unique_vec_cons.
  rewrite (keep_last_NoDup _ (NoDup_keep_last t)).
  by rewrite (bool_decide_ext _ _ (elem_of_keep_last t p)).
Qed.

(** X4. The rows [unique_vec] returns are the points of the array, each
    once but for the first, which is there twice when the flag is 1, in
    an order in which they occur in the array. *)
Theorem unique_vec_points_in_order A useg per :
  unique_vec A = Ok (useg, per) →
  (∀ r, r ∈ useg ↔ r ∈ A) ∧
  NoDup (drop (Z.to_nat per) useg) ∧
  useg `sublist_of` A.
Proof.
  destruct A as [|p t]; [by rewrite unique_vec_nil|].
  rewrite unique_vec_cons. intros [= <- <-]. split_and!.
  - intros r. rewrite !elem_of_cons. by rewrite elem_of_keep_last.
  - case_bool_decide as Hp; simpl.
    + apply NoDup_keep_last.
    + apply list.NoDup_cons. split; [|apply NoDup_keep_last].
      by rewrite elem_of_keep_last.
  - apply sublist_skip, keep_last_sublist.
Qed.
End unique_vec_more.

Lemma linspace_last n l :
  (2 ≤ n)%Z → np.linspace 0 1 n = Ok l → list.last l = Some 1%Qc.
Proof.
  intros Hn. unfold np.linspace.
  rewrite bool_decide_eq_false_2, bool_decide_eq_false_2 by lia.
  intros [= <-]. rewrite last_lookup, length_fmap, length_seq.
  rewrite list_lookup_fmap, lookup_seq_lt by lia. simpl. f_equal.
  replace (Z.of_nat (Init.Nat.pred (Z.to_nat n))) with (n - 1)%Z by lia.
  assert (Qc_of_Z (n - 1) ≠ 0%Qc) as Hne.
  { intros Heq. apply (f_equal (λ q : Qc, Qnum q)) in Heq. simpl in Heq. lia. }
  field. done.
Qed.

(** X5. When [__init__] has set the attributes, [int_number] is at least
    1, [unew] and [kinds_fill] hold [int_number] entries each, [unew]
    starts at 0 and, with two points or more, ends at 1. *)
Theorem init_parameters kwargs self kwargs' :
  __init__ kwargs = Ok (self, kwargs') →
  (1 ≤ int_number self)%Z ∧
  length (unew self) = Z.to_nat (int_number self) ∧
  length (kinds_fill self) = length (unew self) ∧
  unew self !! 0 = Some 0%Qc ∧
  ((2 ≤ int_number self)%Z → list.last (unew self) = Some 1%Qc).
Proof.
  intros Hinit. pose proof (init_length_unew _ _ _ Hinit) as Hlen.
  apply init_Ok in Hinit as (_ & _ & _ & Hn & Hfill & Hun & _).
  destruct (linspace_evenly_spaced _ _ Hun) as (_ & Hfirst & _).
  split_and!; [done|done| | |].
  - rewrite Hfill, Hlen. simpl. rewrite length_replicate. lia.
  - apply Hfirst. lia.
  - intros Hn2. by eapply linspace_last.
Qed.

(** X6. With numbers for [smooth] and [k], [int_number=0] raises
    [IndexError] (from [self.kinds_fill[0]=1]) and a negative [int_number]
    raises [ValueError] (from [np.ones]): [ContourSet.__init__] is not
    reached. *)
Theorem init_rejects_no_points kwargs sm kk n :
  as_float (default (VInt 0) (kwargs !! "smooth")) = Ok sm →
  as_int (default (VInt 3) (kwargs !! "k")) = Ok kk →
  kwargs !! "int_number" = Some (VInt n) →
  (n ≤ 0)%Z →
  __init__ kwargs = Raise (if bool_decide (n = 0)%Z then IndexError else ValueError).
Proof.
  intros Hsm Hk Hn Hle. unfold __init__, pop.
  rewrite !lookup_delete_ne by done. rewrite Hsm, Hk, Hn. simpl.
  unfold np.ones. destruct (decide (n = 0)%Z) as [->|Hne].
  - by rewrite bool_decide_eq_false_2 by lia.
  - rewrite (bool_decide_eq_true_2 (n < 0)%Z) by lia.
    by rewrite (bool_decide_eq_false_2 (n = 0)%Z).
Qed.

Section stops.
Context {Host : Type}.

Lemma stops_ret {A} (a : A) : stops_at_failure (Host:=Host) (mret a).
Proof. by intros w i ev e ?. Qed.

Lemma stops_lift {A} (r : result A) : stops_at_failure (Host:=Host) (lift r).
Proof. by intros w i ev e ?. Qed.

Lemma stops_call {A} c (r : result A) : stops_at_failure (Host:=Host) (call c r).
Proof.
  intros w [|i] ev e; [|done]. unfold new_events, result_of, call. simpl.
  intros [= <-]. simpl. intros Hr. split; [done|]. destruct r; by simplify_eq/=.
Qed.

Lemma stops_bind {A B} (m : M Host A) (f : A → M Host B) :
  stops_at_failure m → (∀ a, stops_at_failure (f a)) → stops_at_failure (m ≫= f).
Proof.
  intros Hm Hf w i ev e. rewrite new_events_bind, result_of_bind, length_app.
  intros [Hi|[Hlen Hi]]%lookup_app_Some Hraised.
  - destruct (Hm w i ev e Hi Hraised) as [Hlast ->]. simpl. split; [lia|done].
  - destruct (result_of m w) as [a|e']; [|done].
    destruct (Hf a _ _ ev e Hi Hraised) as [Hlast ->]. split; [lia|done].
Qed.

Lemma stops_for_each {A V} (body : V → A → M Host V) l vars :
  (∀ vars a, stops_at_failure (body vars a)) →
  stops_at_failure (for_each body l vars).
Proof.
  intros Hbody. revert vars. induction l as [|a l IH]; intros vars; simpl.
  - apply stops_ret.
  - apply stops_bind; [apply Hbody|apply IH].
Qed.
End stops.

Ltac stops_step :=
  lazymatch goal with
  | |- stops_at_failure (mret _) => apply stops_ret
  | |- stops_at_failure (lift _) => apply stops_lift
  | |- stops_at_failure (call _ _) => apply stops_call
  | |- stops_at_failure (for_each _ _ _) => apply stops_for_each; intros ? ?
  | |- stops_at_failure (_ ≫= _) => apply stops_bind; [|intros ?]
  | |- stops_at_failure (if ?b then _ else _) => destruct b
  | |- stops_at_failure (match ?x with _ => _ end) => destruct x
  | |- stops_at_failure (match ?x with _ => _ end _) => destruct x
  end; cbn beta iota zeta.

Section stops_smoothing.
Context `{DictOrder} `{!Scipy} {Host : Type}.

Lemma smooth_segs_stops self seg kind avg :
  stops_at_failure (Host:=Host) (_smooth_segs self seg kind avg).
Proof. unfold _smooth_segs. repeat stops_step. Qed.

(** X7. [_get_allsegs_and_allkinds] handles no exception: a call of the
    host library, of the tracer or of scipy that raises is the last call
    the method makes, and the method raises what the call raised. *)
Theorem smoothing_stops_at_failure (self : SmoothContour.t) (w : World Host)
    i ev e :
  let run := _get_allsegs_and_allkinds self in
  new_events run w !! i = Some ev → raised ev = Some e →
  S i = length (new_events run w) ∧ result_of run w = Raise e.
Proof.
  intros run. revert w i ev e.
  change (stops_at_failure run). subst run.
  unfold _get_allsegs_and_allkinds, smooth_filled, smooth_lines, smooth_pieces,
    smooth_piece.
  repeat first [apply smooth_segs_stops|stops_step].
Qed.
End stops_smoothing.

Section loops.
Context {Host : Type}.

Lemma all_events_for_each {A V} P (body : V → A → M Host V) l vars :
  (∀ vars a, all_events P (body vars a)) → all_events P (for_each body l vars).
Proof.
  intros Hbody. revert vars. induction l as [|a l IH]; intros vars; simpl.
  - apply all_events_ret.
  - apply all_events_bind; [apply Hbody|apply IH].
Qed.

(** A loop whose every pass makes one call of its own and then others. *)
Lemma for_each_calls {A V} (own : Call → bool) (c : A → Call)
    (body : V → A → M Host V) l vars w :
  (∀ vars a w, filter (λ c, own c = true) (called <$> new_events (body vars a) w)
               = [c a]) →
  let calls := filter (λ c, own c = true)
                      (called <$> new_events (for_each body l vars) w) in
  calls `prefix_of` (c <$> l) ∧
  (∀ vars', result_of (for_each body l vars) w = Ok vars' → calls = c <$> l).
Proof.
  intros Hbody. revert vars w. induction l as [|a l IH]; intros vars w; simpl.
  - split; [done|]. done.
  - rewrite new_events_bind, result_of_bind, fmap_app, list.filter_app, Hbody.
    destruct (result_of (body vars a) w) as [vars1|e]; simpl.
    + destruct (IH vars1 (world_after (body vars a) w)) as [Hpre Heq].
      split; [by apply prefix_cons|]. intros vars' Hok. f_equal. by eapply Heq.
    + split; [|done]. apply prefix_cons, prefix_nil.
Qed.

Lemma filter_called_none {A} (own : Call → bool) (m : M Host A) w :
  all_events (λ ev, own (called ev) = false) m →
  filter (λ c, own c = true) (called <$> new_events m w) = [].
Proof.
  intros Hm. specialize (Hm w). induction Hm as [|ev evs Hev _ IH]; [done|].
  simpl. rewrite filter_cons_False; [done|]. by rewrite Hev.
Qed.
Lemma new_events_call_bind {A B} c (r : result A) (f : A → M Host B) w :
  new_events (call c r ≫= f) w =
  {| called := c; raised := exn_of r |} ::
  match r with Ok a => new_events (f a) w | Raise _ => [] end.
Proof.
  rewrite new_events_bind. unfold new_events at 1, result_of, world_after, call.
  simpl. by destruct r.
Qed.

Lemma result_of_call_bind {A B} c (r : result A) (f : A → M Host B) w :
  result_of (call c r ≫= f) w =
  match r with Ok a => result_of (f a) w | Raise e => Raise e end.
Proof.
  rewrite result_of_bind. unfold result_of at 1, world_after, call. simpl.
  by destruct r.
Qed.

(** A last step that calls nothing. *)
Lemma new_events_bind_silent {A B} (m : M Host A) (f : A → M Host B) w :
  (∀ a w, new_events (f a) w = []) → new_events (m ≫= f) w = new_events m w.
Proof.
  intros Hf. rewrite new_events_bind.
  destruct (result_of m w); by rewrite ?Hf, app_nil_r.
Qed.

Lemma result_of_bind_Ok {A B} (m : M Host A) (f : A → M Host B) w b :
  result_of (m ≫= f) w = Ok b →
  ∃ a, result_of m w = Ok a ∧ result_of (f a) (world_after m w) = Ok b.
Proof. rewrite result_of_bind. destruct (result_of m w); [eauto|done]. Qed.
End loops.

Section trace.
Context `{DictOrder} `{!Scipy} {Host : Type}.

Lemma smooth_segs_no_trace self seg kind avg :
  all_events (Host:=Host) (λ ev, is_trace (called ev) = false)
             (_smooth_segs self seg kind avg).
Proof. unfold _smooth_segs. repeat all_events_step; done. Qed.

Lemma smooth_lines_no_trace (self : Smoothing) l vars :
  all_events (Host:=Host) (λ ev, is_trace (called ev) = false)
             (for_each (smooth_lines self) l vars).
Proof.
  apply all_events_for_each. intros [segs kinds] i. unfold smooth_lines.
  repeat first [apply smooth_segs_no_trace|all_events_step]; done.
Qed.

Lemma smooth_filled_no_trace (self : Smoothing) l vars :
  all_events (Host:=Host) (λ ev, is_trace (called ev) = false)
             (for_each (smooth_filled self) l vars).
Proof.
  apply all_events_for_each. intros [segs kinds] i.
  unfold smooth_filled, smooth_pieces, smooth_piece.
  repeat first [apply smooth_segs_no_trace
               |apply all_events_for_each; intros ? ?
               |all_events_step]; done.
Qed.

(** X8. [_get_allsegs_and_allkinds] calls the tracer for the levels in
    their order, once each: with the upper level and [nchunk] when filled,
    with the level alone otherwise. The tracer calls made are a prefix of
    that list, and all of it when the method returns. *)
Theorem tracer_called_level_by_level (self : SmoothContour.t) (w : World Host) :
  let run := _get_allsegs_and_allkinds self in
  let calls := filter (λ c, is_trace c = true) (called <$> new_events run w) in
  calls `prefix_of` trace_calls self ∧
  (∀ r, result_of run w = Ok r → calls = trace_calls self).
Proof.
  intros run calls. subst run calls.
  unfold _get_allsegs_and_allkinds, trace_calls.
  destruct (filled self).
  - rewrite new_events_call_bind, result_of_call_bind.
    destruct (_get_lowers_and_uppers self) as [[lowers uppers]|e];
      cbn beta iota; rewrite fmap_cons, filter_cons_False by done; [|by split].
    rewrite new_events_bind_silent by (by intros [? ?] ?).
    match goal with
    | |- context [new_events (for_each ?body ?l ?vars) ?w'] =>
        destruct (for_each_calls is_trace
                    (λ lu : Qc * Qc, call_trace lu.1 (Some lu.2) (Some (nchunk self)))
                    body l vars w') as [Hpre Heq]
    end.
    { intros [allsegs allkinds] [level upper] w'.
      rewrite new_events_call_bind, fmap_cons, filter_cons_True by done.
      f_equal. destruct (Cntr_trace self level _ _) as [nlist|e]; [|done].
      apply filter_called_none.
      apply all_events_bind; [apply smooth_filled_no_trace|].
      intros [segs kinds]. apply all_events_ret. }
    split; [done|]. intros r (vars' & Hok & _)%result_of_bind_Ok. by eapply Heq.
  - rewrite new_events_bind_silent by done.
    match goal with
    | |- context [new_events (for_each ?body ?l ?vars) ?w'] =>
        destruct (for_each_calls is_trace (λ level, call_trace level None None)
                    body l vars w') as [Hpre Heq]
    end.
    { intros allsegs level w'.
      rewrite new_events_call_bind, fmap_cons, filter_cons_True by done.
      f_equal. destruct (Cntr_trace self level _ _) as [nlist|e]; [|done].
      apply filter_called_none.
      apply all_events_bind; [apply smooth_lines_no_trace|].
      intros [segs kinds]. apply all_events_ret. }
    split; [done|]. intros r (vars' & Hok & _)%result_of_bind_Ok. by eapply Heq.
Qed.
End trace.

Section loop_invariants.
Context {Host : Type}.

(** What every pass of a loop keeps, the loop keeps. *)
Lemma for_each_keeps {A V} (I : V → Prop) (body : V → A → M Host V) l vars w vars' :
  (∀ vars a w vars1, I vars → result_of (body vars a) w = Ok vars1 → I vars1) →
  I vars → result_of (for_each body l vars) w = Ok vars' → I vars'.
Proof.
  intros Hbody. revert vars w. induction l as [|a l IH]; intros vars w HI; simpl.
  - by intros [= <-].
  - intros (vars1 & Hok & Hrest)%result_of_bind_Ok. eauto.
Qed.

(** A loop whose every pass adds one entry. *)
Lemma for_each_adds {A B V} (R : A → B → Prop) (ext : V → list B → V)
    (body : V → A → M Host V) l vars w vars' :
  (∀ vars, ext vars [] = vars) →
  (∀ vars l1 l2, ext (ext vars l1) l2 = ext vars (l1 ++ l2)) →
  (∀ vars a w vars1, result_of (body vars a) w = Ok vars1 →
                     ∃ b, vars1 = ext vars [b] ∧ R a b) →
  result_of (for_each body l vars) w = Ok vars' →
  ∃ bs, vars' = ext vars bs ∧ Forall2 R l bs.
Proof.
  intros Hnil Happ Hbody. revert vars w.
  induction l as [|a l IH]; intros vars w; simpl.
  - intros [= <-]. exists []. by rewrite Hnil.
  - intros (vars1 & Hok & Hrest)%result_of_bind_Ok.
    destruct (Hbody _ _ _ _ Hok) as (b & -> & Hb).
    destruct (IH _ _ Hrest) as (bs & -> & Hbs).
    exists (b :: bs). rewrite Happ. by split; [|constructor].
Qed.
End loop_invariants.

Section shape.
Context `{DictOrder} `{!Scipy} {Host : Type}.

Lemma smooth_lines_length (self : Smoothing) l segs kinds segs' kinds' (w : World Host) :
  result_of (for_each (smooth_lines self) l (segs, kinds)) w = Ok (segs', kinds') →
  length segs' = length segs.
Proof.
  apply (for_each_keeps (λ vars, length vars.1 = length segs)); [|done].
  clear. intros [segs1 kinds1] i w [segs2 kinds2] Hlen. simpl in *.
  unfold smooth_lines.
  intros (seg & _ & Hrest)%result_of_bind_Ok.
  apply result_of_bind_Ok in Hrest as ([s k] & _ & Hrest).
  injection Hrest as <- <-. by rewrite length_insert.
Qed.

Lemma smooth_filled_length (self : Smoothing) l segs kinds segs' kinds' (w : World Host) :
  result_of (for_each (smooth_filled self) l (segs, kinds)) w = Ok (segs', kinds') →
  length segs' = length segs ∧ length kinds' = length kinds.
Proof.
  apply (for_each_keeps (λ vars, length vars.1 = length segs ∧
                                 length vars.2 = length kinds)); [|done].
  clear. intros [segs1 kinds1] i w [segs2 kinds2] [Hs Hk]. simpl in *.
  unfold smooth_filled.
  intros (kind & _ & Hrest)%result_of_bind_Ok. revert Hrest.
  case_bool_decide.
  - intros (seg & _ & Hrest)%result_of_bind_Ok.
    apply result_of_bind_Ok in Hrest as (tmp & _ & Hrest).
    destruct tmp as [[segs_tmp [kinds_tmp|]]|]; try done.
    injection Hrest as <- <-. by rewrite !length_insert.
  - intros (seg & _ & Hrest)%result_of_bind_Ok.
    apply result_of_bind_Ok in Hrest as ([s [k|]] & _ & Hrest); [|done].
    injection Hrest as <- <-. by rewrite !length_insert.
Qed.

(** X9. When [_get_allsegs_and_allkinds] returns, [allsegs] has one entry
    for each level (when filled, for each pair of a lower and an upper
    level), with as many segments as the first half of what the tracer
    returned for it holds; when filled, [allkinds] has as many entries as
    [allsegs], each as long as the other half; otherwise [allkinds] is
    [None]. *)
Theorem allsegs_one_entry_per_level (self : SmoothContour.t) (w : World Host)
    allsegs allkinds :
  result_of (_get_allsegs_and_allkinds self) w = Ok (allsegs, allkinds) →
  if filled self then
    ∃ lowers uppers ak,
      _get_lowers_and_uppers self = Ok (lowers, uppers) ∧
      allkinds = Some ak ∧ length ak = length allsegs ∧
      Forall2 (λ (lu : Qc * Qc) (sk : list ndarray * list ndarray),
                 ∃ nlist,
                   Cntr_trace self lu.1 (Some lu.2) (Some (nchunk self)) = Ok nlist ∧
                   length sk.1 = length nlist / 2 ∧
                   length sk.2 = length nlist - length nlist / 2)
              (zip lowers uppers) (zip allsegs ak)
  else
    allkinds = None ∧
    Forall2 (λ level segs,
               ∃ nlist, Cntr_trace self level None None = Ok nlist ∧
                        length segs = length nlist / 2)
            (levels self) allsegs.
Proof.
  unfold _get_allsegs_and_allkinds. destruct (filled self).
  - rewrite result_of_call_bind.
    destruct (_get_lowers_and_uppers self) as [[lowers uppers]|e]; [|done].
    intros ([allsegs' allkinds'] & Hloop & [= <- <-])%result_of_bind_Ok.
    apply (for_each_adds
             (λ (lu : Qc * Qc) (sk : list ndarray * list ndarray),
                ∃ nlist,
                  Cntr_trace self lu.1 (Some lu.2) (Some (nchunk self)) = Ok nlist ∧
                  length sk.1 = length nlist / 2 ∧
                  length sk.2 = length nlist - length nlist / 2)
             (λ (vars : list (list ndarray) * list (list ndarray)) bs,
                (vars.1 ++ bs.*1, vars.2 ++ bs.*2))) in Hloop
      as (bs & [= -> ->] & Hall).
    + exists lowers, uppers, bs.*2. split_and!; [done..|by rewrite !length_fmap|].
      by rewrite zip_fst_snd.
    + intros [? ?]. simpl. by rewrite !app_nil_r.
    + intros [? ?] l1 l2. simpl. by rewrite !fmap_app, !app_assoc.
    + intros [allsegs1 allkinds1] [level upper] w1 vars1.
      rewrite result_of_call_bind.
      destruct (Cntr_trace self level _ _) as [nlist|e] eqn:Htrace; [|done].
      intros ([segs kinds] & Hinner & [= <-])%result_of_bind_Ok.
      apply smooth_filled_length in Hinner as [Hs Hk].
      exists (segs, kinds). split; [done|]. exists nlist. cbn [fst snd].
      split; [done|]. rewrite Hs, Hk, length_take, length_drop.
      split; [|done]. apply Nat.min_l, Nat.Div0.div_le_upper_bound. lia.
  - intros (allsegs' & Hloop & [= <- <-])%result_of_bind_Ok. split; [done|].
    apply (for_each_adds
             (λ level segs,
                ∃ nlist, Cntr_trace self level None None = Ok nlist ∧
                         length segs = length nlist / 2)
             (λ (vars : list (list ndarray)) bs, vars ++ bs)) in Hloop
      as (bs & -> & Hall); [done|apply app_nil_r|intros; by rewrite app_assoc|].
    intros allsegs1 level w1 vars1.
    rewrite result_of_call_bind.
    destruct (Cntr_trace self level _ _) as [nlist|e] eqn:Htrace; [|done].
    intros ([segs kinds] & Hinner & [= <-])%result_of_bind_Ok.
    apply smooth_lines_length in Hinner.
    exists segs. split; [done|]. exists nlist. split; [done|].
    rewrite Hinner, length_take. apply Nat.min_l, Nat.Div0.div_le_upper_bound. lia.
Qed.
End shape.

Section more_smooth_contour.
Context {Host : Type} `{!Matplotlib Host}.

(** X10. The calls of pyplot functions and of the constructor that a
    returning call of [smooth_contour] or [smooth_contourf] made are
    these, in this order, and none of them raised: [pyplot.gca],
    [ContourSet.__init__] with the positional arguments as given,
    [pyplot.draw_if_interactive], and then [pyplot.sci] exactly when the
    contour set returned has an array [_A].  (The log holds these calls;
    [ax.ishold] and [ax.hold] act on the hold flag and are not in it.) *)
Theorem smooth_contour_call_sequence (fill : bool) args kwargs (w : World Host) ret :
  let run := smooth_contour_with fill args kwargs in
  result_of run w = Ok ret →
  ∃ self ax kwargs',
    called <$> new_events run w =
      [call_gca; call_ContourSet_init self ax args kwargs'; call_draw_if_interactive]
      ++ (if _A ret is Some _ then [call_sci ret] else []) ∧
    Forall (λ ev, raised ev = None) (new_events run w).
Proof.
  intros run. subst run. revert ret.
  change (wp (smooth_contour_with fill args kwargs) w
    (λ r _ evs, ∀ ret, r = Ok ret →
       ∃ self ax kwargs',
         called <$> evs =
           [call_gca; call_ContourSet_init self ax args kwargs';
            call_draw_if_interactive]
           ++ (if _A ret is Some _ then [call_sci ret] else []) ∧
         Forall (λ ev, raised ev = None) evs)).
  destruct fill; unfold smooth_contour_with, smooth_contour, smooth_contourf,
    SmoothContour_new, pop.
  all: repeat wp_step.
  all: try (intros ret Hret; discriminate Hret).
  all: intros ret [= <-]; eexists _, _, _; simpl.
  all: match goal with Heq : _A _ = _ |- _ => rewrite Heq end.
  all: split; [reflexivity|repeat constructor].
Qed.

(** X11. With [hold=b] given, the constructor runs with the hold flag of
    the axes at [b]: what the call of [ContourSet.__init__] raised is what
    the constructor raises in the world [pyplot.gca] left, with the flag of
    the axes set to [b]. *)
Theorem smooth_contour_hold_keyword (fill : bool) args kwargs (w : World Host)
    b ev self ax args' kwargs' :
  kwargs !! "hold" = Some (VBool b) →
  ev ∈ new_events (smooth_contour_with fill args kwargs) w →
  called ev = call_ContourSet_init self ax args' kwargs' →
  let w' := (gca w).2 in
  raised ev = exn_of (ContourSet_init self ax args' kwargs'
                        {| holds := <[ax := b]> (holds w'); host := host w' |}).1.
Proof.
  intros Hhold. revert ev self ax args' kwargs'.
  change (wp (smooth_contour_with fill args kwargs) w
    (λ _ _ evs, ∀ ev self ax args' kwargs',
       ev ∈ evs → called ev = call_ContourSet_init self ax args' kwargs' →
       let w' := (gca w).2 in
       raised ev = exn_of (ContourSet_init self ax args' kwargs'
                             {| holds := <[ax := b]> (holds w');
                                host := host w' |}).1)).
  destruct fill; unfold smooth_contour_with, smooth_contour, smooth_contourf,
    SmoothContour_new, pop.
  all: rewrite lookup_delete_ne, lookup_insert_ne, Hhold by done; simpl.
  all: repeat wp_step.
  all: intros ev self ax args' kwargs' Hev Hcalled.
  all: split_events Hev; subst ev; try discriminate Hcalled.
  all: simpl in Hcalled; injection Hcalled as <- <- <- <-.
  all: match goal with Hc : gca _ = _ |- _ => rewrite Hc end; simpl.
  all: match goal with Hc : ContourSet_init _ _ _ _ _ = _ |- _ => by rewrite Hc end.
Qed.

Lemma new_events_call_world_bind {A B} c (f : World Host → result A * World Host)
    (k : A → M Host B) w :
  new_events (call_world c f ≫= k) w =
  {| called := c; raised := exn_of (f w).1 |} ::
  match (f w).1 with Ok a => new_events (k a) (f w).2 | Raise _ => [] end.
Proof.
  rewrite new_events_bind. unfold new_events at 1, result_of, world_after, call_world.
  by destruct (f w) as [[a|e] w'].
Qed.

Lemma result_of_call_world_bind {A B} c (f : World Host → result A * World Host)
    (k : A → M Host B) w :
  result_of (call_world c f ≫= k) w =
  match (f w).1 with Ok a => result_of (k a) (f w).2 | Raise e => Raise e end.
Proof.
  rewrite result_of_bind. unfold result_of at 1, world_after, call_world.
  by destruct (f w) as [[a|e] w'].
Qed.

(** X12. [smooth_contour] and [smooth_contourf] call [pyplot.gca] first,
    whether or not [ax] is given (the default of
    [kwargs.pop('ax', pyp.gca())] is evaluated before the lookup); when that
    call raises, the function raises the same and calls nothing else. *)
Theorem smooth_contour_asks_for_current_axes (fill : bool) args kwargs
    (w : World Host) :
  let run := smooth_contour_with fill args kwargs in
  new_events run w !! 0 = Some {| called := call_gca; raised := exn_of (gca w).1 |} ∧
  ∀ e, (gca w).1 = Raise e →
       result_of run w = Raise e ∧ length (new_events run w) = 1.
Proof.
  intros run. subst run.
  destruct fill; unfold smooth_contour_with, smooth_contour, smooth_contourf.
  all: cbv zeta; rewrite new_events_call_world_bind, result_of_call_world_bind.
  all: split; [done|]; by intros e ->.
Qed.

(** X13. With an [int_number] below 1, [smooth_contour] and
    [smooth_contourf] never return, and never reach [ContourSet.__init__],
    [pyplot.draw_if_interactive] or [pyplot.sci]: of the pyplot functions
    and the constructor, which are the calls in the log, [pyplot.gca] is
    the one they call. *)
Theorem smooth_contour_needs_points (fill : bool) args kwargs (w : World Host) n :
  kwargs !! "int_number" = Some (VInt n) → (n ≤ 0)%Z →
  let run := smooth_contour_with fill args kwargs in
  (∀ ret, result_of run w ≠ Ok ret) ∧
  Forall (λ ev, called ev = call_gca) (new_events run w).
Proof.
  intros Hn Hle run. subst run.
  change (wp (smooth_contour_with fill args kwargs) w
    (λ r _ evs, (∀ ret, r ≠ Ok ret) ∧ Forall (λ ev, called ev = call_gca) evs)).
  destruct fill; unfold smooth_contour_with, smooth_contour, smooth_contourf,
    SmoothContour_new, pop.
  all: repeat wp_step.
  all: try match goal with
    | Hinit : __init__ _ = Ok _ |- _ =>
        apply init_Ok in Hinit as (_ & _ & Hint & Hpos & _);
        rewrite !lookup_delete_ne, lookup_insert_ne, Hn in Hint by done;
        simpl in Hint; injection Hint as ->; lia
    end.
  all: split; [done|repeat constructor].
Qed.
End more_smooth_contour.

Lemma zip_with_and_bins (f1 f2 g1 g2 : Qc → bool) (x y : list Qc) :
  zip_with andb (zip_with andb (zip_with andb (f1 <$> x) (f2 <$> x)) (g1 <$> y))
           (g2 <$> y)
  = (λ p : Qc * Qc, f1 p.1 && f2 p.1 && g1 p.2 && g2 p.2) <$> zip x y.
Proof.
  revert y. induction x as [|a x IH]; intros [|b y]; simpl; try done.
  by rewrite IH.
Qed.

Lemma bind_Ok_inv {A B} (m : result A) (f : A → result B) b :
  m ≫= f = Ok b → ∃ a, m = Ok a ∧ f a = Ok b.
Proof. destruct m as [a|e]; [eauto|done]. Qed.

Lemma logical_and_Ok a b c :
  np.logical_and a b = Ok c → length a = length b ∧ c = zip_with andb a b.
Proof. unfold np.logical_and. case_bool_decide; [|done]. by intros [= <-]. Qed.

Lemma mark_bin_Ok x y xbins ybins po ij po' :
  mark_bin x y xbins ybins po ij = Ok po' →
  length po = length x ∧ length y = length x ∧
  po' = zip_with orb po ((λ p, in_mask_bin xbins ybins p ij) <$> zip x y).
Proof.
  destruct ij as [i j]. unfold mark_bin, in_mask_bin. cbn [fst snd].
  intros (xlo & Hxlo%index_Ok & Hm)%bind_Ok_inv.
  apply bind_Ok_inv in Hm as (xhi & Hxhi%index_Ok & Hm).
  apply bind_Ok_inv in Hm as (idx1 & [_ ->]%logical_and_Ok & Hm).
  apply bind_Ok_inv in Hm as (ylo & Hylo%index_Ok & Hm).
  apply bind_Ok_inv in Hm as (idx2 & [Hl1 ->]%logical_and_Ok & Hm).
  apply bind_Ok_inv in Hm as (yhi & Hyhi%index_Ok & Hm).
  apply bind_Ok_inv in Hm as (idx3 & [Hl2 ->]%logical_and_Ok & Hm).
  revert Hm. unfold np.logical_or. case_bool_decide as Hl3; [|done]. intros [= <-].
  rewrite Hxlo, Hxhi, Hylo, Hyhi.
  rewrite length_zip_with, !length_fmap in Hl1.
  rewrite zip_with_and_bins in Hl3 |- *.
  rewrite length_fmap, length_zip in Hl3. split_and!; [lia|lia|done].
Qed.

Lemma zip_with_orb_false (po : list bool) {A} (l : list A) :
  length po = length l → zip_with orb po ((λ _, false) <$> l) = po.
Proof.
  revert l. induction po as [|b po IH]; intros [|a l] Hlen; simpl in *; try done.
  rewrite orb_false_r, IH; [done|lia].
Qed.

Lemma mark_bins_Ok x y xbins ybins po w po' :
  length po = length x → length y = length x →
  mark_bins x y xbins ybins po w = Ok po' →
  po' = zip_with orb po ((λ p, existsb (in_mask_bin xbins ybins p) w) <$> zip x y).
Proof.
  intros Hpo Hy. revert po Hpo. induction w as [|ij w IH]; intros po Hpo; simpl.
  - intros [= <-]. rewrite zip_with_orb_false; [done|]. rewrite length_zip. lia.
  - destruct (mark_bin x y xbins ybins po ij) as [po1|] eqn:Hbin; [|done]. simpl.
    apply mark_bin_Ok in Hbin as (_ & _ & ->). intros Hrest.
    apply IH in Hrest as ->.
    2: { rewrite length_zip_with, length_fmap, length_zip. lia. }
    clear. revert po. induction (zip x y) as [|p l IH]; intros [|b po]; simpl;
      try done. by rewrite IH, orb_assoc.
Qed.

(** The masked entries of two arrays, paired. *)
Lemma compress_zip (f : Qc * Qc → bool) (x y xs ys : list Qc) :
  length y = length x →
  np.compress (f <$> zip x y) x = Ok xs → np.compress (f <$> zip x y) y = Ok ys →
  zip xs ys = filter (λ p, f p = true) (zip x y).
Proof.
  intros Hlen. unfold np.compress.
  rewrite !bool_decide_eq_true_2 by (rewrite length_fmap, length_zip; lia).
  intros [= <-] [= <-]. revert y Hlen.
  induction x as [|a x IH]; intros [|b y] Hlen; simpl in *; try done.
  destruct (f (a, b)) eqn:Hf.
  - rewrite !filter_cons_True by done. simpl. rewrite IH by lia. done.
  - rewrite !filter_cons_False by (simpl; congruence). apply IH. lia.
Qed.

Lemma compress_sublist {A} mask (a a' : list A) :
  np.compress mask a = Ok a' → a' `sublist_of` a.
Proof.
  unfold np.compress. case_bool_decide as Hlen; [|done]. intros [= <-].
  revert a Hlen. induction mask as [|b mask IH]; intros [|v a] Hlen; simpl in *;
    try done.
  destruct b.
  - rewrite filter_cons_True by done. simpl. apply sublist_skip, IH. lia.
  - rewrite filter_cons_False by done. apply sublist_cons, IH. lia.
Qed.

(** The two columns of an array of rows, paired. *)
Lemma columns_zip (a : list (list Qc)) col0 col1 :
  np.column 0 a = Ok col0 → np.column 1 a = Ok col1 →
  length col0 = length col1 ∧
  zip col0 col1 = (λ row, (default 0%Qc (row !! 0), default 0%Qc (row !! 1))) <$> a.
Proof.
  intros H0%column_Ok H1%column_Ok.
  pose proof (list.Forall2_length _ _ _ H0) as Hl0.
  pose proof (list.Forall2_length _ _ _ H1) as Hl1.
  split; [congruence|]. revert col1 H1 Hl0 Hl1.
  induction H0 as [|row c0 a col0 Hc0 _ IH]; intros col1 H1 Hl0 Hl1.
  - by destruct col1.
  - apply Forall2_cons_inv_l in H1 as (c1 & col1' & Hc1 & Hrest & ->).
    rename col1' into col1. simpl in Hl0, Hl1.
    rewrite fmap_cons, Hc0, Hc1.
    change (zip (c0 :: col0) (c1 :: col1)) with ((c0, c1) :: zip col0 col1).
    cbn [default]. f_equal. apply IH; [done|lia|lia].
Qed.

Lemma zip_with_orb_replicate (l : list bool) :
  zip_with orb (replicate (length l) false) l = l.
Proof. induction l as [|b l IH]; simpl; [done|]. by rewrite IH. Qed.

Lemma rows_back (xs ys : list Qc) :
  (λ row : list Qc, (default 0%Qc (row !! 0), default 0%Qc (row !! 1)))
    <$> zip_with (λ u v, [u; v]) xs ys = zip xs ys.
Proof.
  revert ys. induction xs as [|a xs IH]; intros [|b ys]; simpl; try done.
  f_equal. apply IH.
Qed.

(** The points handed to [ax.plot], from the mask on. *)
Lemma plotted_points (f : Qc * Qc → bool) (x y : list Qc) xs ys X Xplot col0 col1 :
  np.compress (f <$> zip x y) x = Ok xs → np.compress (f <$> zip x y) y = Ok ys →
  np.T <$> np.vstack [xs; ys] = Ok X → Xplot `sublist_of` X →
  np.column 0 Xplot = Ok col0 → np.column 1 Xplot = Ok col1 →
  length col0 = length col1 ∧
  zip col0 col1 `sublist_of` filter (λ p, f p = true) (zip x y).
Proof.
  intros Hxs Hys HX Hsub Hcol0 Hcol1.
  pose proof (compress_length _ _ _ Hxs) as Hlx.
  pose proof (compress_length _ _ _ Hys) as Hly.
  destruct (np.vstack [xs; ys]) as [a|] eqn:Hstack; [|done].
  apply vstack_inv in Hstack as [-> _].
  assert (X = np.T [xs; ys]) as -> by (by injection HX).
  rewrite T_two in Hsub by (by eapply compress_same_length).
  destruct (columns_zip _ _ _ Hcol0 Hcol1) as [Hlen ->]. split; [done|].
  rewrite <- (compress_zip f x y xs ys) by (done || congruence).
  rewrite <- rows_back. by apply fmap_sublist.
Qed.

Lemma keywords_Ok explicit kwargs kw :
  keywords explicit kwargs = Ok kw → kw = explicit ∪ kwargs.
Proof. unfold keywords. case_bool_decide; [|done]. by intros [= <-]. Qed.

Section plot_call.
Context {numpy : Numpy} {Host : Type} `{!Matplotlib Host}.

Lemma scatter_contour_plot_inputs x y levels threshold log_counts histogram2d_args
    plot_args contour_args filled_contour smooth ax :
  all_events
    (λ ev, ∀ ax' xs ys kw H xbins ybins,
       called ev = call_plot ax' xs ys kw →
       histogram2d x y (default ∅ histogram2d_args) = Ok (H, xbins, ybins) →
       length xs = length ys ∧
       zip xs ys `sublist_of`
         masked_points (density log_counts H)
                       (density_threshold log_counts threshold) xbins ybins x y ∧
       kw = {[ "zorder" := VInt 1 ]} ∪
            (default ∅ plot_args ∪
             {[ "marker" := VStr "."; "linestyle" := VStr "none" ]}) ∧
       (∀ a, ax = Some a → ax' = a))
    (scatter_contour x y levels threshold log_counts histogram2d_args plot_args
       contour_args filled_contour smooth ax).
Proof.
  set (P := λ ev : Event, ∀ ax' xs ys kw H xbins ybins,
       called ev = call_plot ax' xs ys kw →
       histogram2d x y (default ∅ histogram2d_args) = Ok (H, xbins, ybins) →
       length xs = length ys ∧
       zip xs ys `sublist_of`
         masked_points (density log_counts H)
                       (density_threshold log_counts threshold) xbins ybins x y ∧
       kw = {[ "zorder" := VInt 1 ]} ∪
            (default ∅ plot_args ∪
             {[ "marker" := VStr "."; "linestyle" := VStr "none" ]}) ∧
       (∀ a, ax = Some a → ax' = a)).
  assert (∀ fill args kwargs, all_events P (smooth_contour_with fill args kwargs))
    as Hsmooth.
  { intros. eapply all_events_weaken; [apply smooth_contour_no_plot|].
    intros [[] ?]; done. }
  unfold scatter_contour. destruct smooth as [sm|], filled_contour, ax as [a|].
  all: repeat first
    [ lazymatch goal with
      | |- all_events _ (smooth_contour _ _) => exact (Hsmooth false _ _)
      | |- all_events _ (smooth_contourf _ _) => exact (Hsmooth true _ _)
      | |- all_events _ ((if bool_decide _ then _ else mret ?X) ≫= _) =>
          apply (all_events_bind_post _ (λ Xplot, Xplot `sublist_of` X));
          [|destruct (bool_decide _)|intros ? ?]
      end
    | all_events_step ]; try done.
  all: lazymatch goal with
    | |- ∀ w, wp _ w _ =>
        intros w; destruct (bool_decide _); [|by apply wp_ret; intros ? [= <-]];
        apply wp_bind, wp_lift;
        lazymatch goal with
        | |- context [index ?segs 0] => destruct (index segs 0) as [poly|]; [|done]
        end;
        apply wp_bind, wp_try_except, wp_call;
        (destruct (contains_points _ _) as [inside|];
         [|apply wp_call; destruct (points_inside_poly _ _) as [inside|]; [|done]]);
        apply wp_lift; intros ? ?; by eapply compress_sublist
    | |- _ => idtac
    end.
  all: intros ax' xs ys kw Hd xbins ybins [= <- <- <- <-] Hhist.
  all: match goal with
    | Heq : histogram2d _ _ _ = Ok _ |- _ =>
        rewrite Heq in Hhist; injection Hhist as <- <- <-
    end.
  all: match goal with
    | Hp : (if ?lc then _ else (?H0, ?thr)) = (?D, ?q) |- _ =>
        assert (D = density lc H0 ∧ q = density_threshold lc thr) as [-> ->]
          by (destruct lc; by injection Hp as <- <-)
    end.
  all: match goal with
    | Hmask : mark_bins ?x ?y ?xb ?yb _ _ = Ok ?po,
      Hxs : np.compress ?po ?x = Ok _, Hys : np.compress ?po ?y = Ok _,
      HX : np.T <$> _ = Ok _, Hsub : _ `sublist_of` _,
      Hcol0 : np.column 0 _ = Ok _, Hcol1 : np.column 1 _ = Ok _,
      Hkw : keywords {[ "zorder" := _ ]} _ = Ok _ |- _ =>
        pose proof (compress_length _ _ _ Hxs) as Hlx;
        pose proof (compress_length _ _ _ Hys) as Hly;
        apply mark_bins_Ok in Hmask;
          [|by rewrite length_replicate|congruence];
        match type of Hmask with
        | _ = zip_with orb _ ?l =>
            replace (length x) with (length l) in Hmask
              by (rewrite length_fmap, length_zip; lia)
        end;
        rewrite zip_with_orb_replicate in Hmask;
        subst po;
        destruct (plotted_points _ _ _ _ _ _ _ _ _ Hxs Hys HX Hsub Hcol0 Hcol1)
          as [Hlen Hpts];
        apply keywords_Ok in Hkw as ->
    end.
  all: split_and!; [done|done| |by intros ? [= <-]].
  all: match goal with |- context [default ∅ ?pa] => destruct pa end; simpl.
  all: done || by rewrite (left_id_L ∅ (∪)).
Qed.

(** X14. Every call of [ax.plot] that [scatter_contour] makes gets as many
    x as y values; they are points of the mask (the data points in a bin
    whose density is above 0 and below the threshold), in the order of the
    data; the keywords are [zorder=1] and [plot_args] over the defaults
    [marker='.'] and [linestyle='none']; and the call is made on [ax] when
    [ax] is given. *)
Theorem scatter_contour_plot_call x y levels threshold log_counts histogram2d_args
    plot_args contour_args filled_contour smooth ax (w : World Host)
    H xbins ybins ev ax' xs ys kw :
  let run := scatter_contour x y levels threshold log_counts histogram2d_args
               plot_args contour_args filled_contour smooth ax in
  histogram2d x y (default ∅ histogram2d_args) = Ok (H, xbins, ybins) →
  ev ∈ new_events run w →
  called ev = call_plot ax' xs ys kw →
  length xs = length ys ∧
  zip xs ys `sublist_of`
    masked_points (density log_counts H)
                  (density_threshold log_counts threshold) xbins ybins x y ∧
  kw = {[ "zorder" := VInt 1 ]} ∪
       (default ∅ plot_args ∪ {[ "marker" := VStr "."; "linestyle" := VStr "none" ]}) ∧
  (∀ a, ax = Some a → ax' = a).
Proof.
  intros run Hhist Hev Hcall.
  pose proof (scatter_contour_plot_inputs x y levels threshold log_counts
                histogram2d_args plot_args contour_args filled_contour smooth ax w)
    as Hall.
  rewrite list.Forall_forall in Hall. by eapply Hall.
Qed.
End plot_call.

Section never.
Context {Host : Type}.

Lemma never_returns_bind_r {A B} (m : M Host A) (f : A → M Host B) :
  (∀ a, never_returns (f a)) → never_returns (m ≫= f).
Proof.
  intros Hf w b. rewrite result_of_bind. destruct (result_of m w); [apply Hf|done].
Qed.

Lemma never_returns_bind_lift {A B} (r : result A) (f : A → M Host B) :
  (∀ a, r = Ok a → never_returns (f a)) → never_returns (lift r ≫= f).
Proof.
  intros Hf w b. rewrite result_of_bind. unfold result_of at 1, lift. simpl.
  destruct r as [a|e]; [by apply Hf|done].
Qed.

Lemma never_returns_bind_call {A B} c (r : result A) (f : A → M Host B) :
  (∀ a, r = Ok a → never_returns (f a)) → never_returns (call c r ≫= f).
Proof.
  intros Hf w b. rewrite result_of_bind. unfold result_of at 1, call. simpl.
  destruct r as [a|e]; [by apply Hf|done].
Qed.

Lemma never_returns_bind_ret {A B} (a : A) (f : A → M Host B) :
  never_returns (f a) → never_returns (mret a ≫= f).
Proof. intros Hf w b. rewrite result_of_bind. apply Hf. Qed.

Lemma never_returns_bind_assoc {A B C} (m : M Host A) (g : A → M Host B)
    (f : B → M Host C) :
  never_returns (m ≫= λ a, g a ≫= f) → never_returns ((m ≫= g) ≫= f).
Proof. intros Hm w c. unfold result_of. rewrite bind_assoc. apply Hm. Qed.
End never.

Ltac never_step :=
  lazymatch goal with
  | |- never_returns ((_ ≫= _) ≫= _) => apply never_returns_bind_assoc
  | |- never_returns (mret _ ≫= _) => apply never_returns_bind_ret
  | |- never_returns (lift _ ≫= _) => apply never_returns_bind_lift; intros ? ?
  | |- never_returns (call _ _ ≫= _) => apply never_returns_bind_call; intros ? ?
  | |- never_returns (_ ≫= _) => apply never_returns_bind_r; intros ?
  | |- never_returns (if ?b then _ else _) => destruct b eqn:?
  | |- never_returns (match ?x with _ => _ end) => destruct x eqn:?
  end; cbn beta iota zeta.

Lemma keywords_clash explicit kwargs key kw :
  is_Some (explicit !! key) → is_Some (kwargs !! key) →
  keywords explicit kwargs = Ok kw → False.
Proof.
  intros [v Hv] [v' Hv']. unfold keywords. case_bool_decide as Hdisj; [|done].
  intros _. by apply (map_disjoint_spec explicit kwargs) with key v v'.
Qed.

Lemma linspace_no_points a b n l : np.linspace a b n = Ok l → (n ≤ 0)%Z → l = [].
Proof.
  unfold np.linspace. case_bool_decide; [done|].
  case_bool_decide; [lia|]. intros [= <-] Hn.
  replace n with 0%Z by lia. done.
Qed.

Section clashes.
Context {numpy : Numpy} {Host : Type} `{!Matplotlib Host}.

Lemma smooth_contour_only_draws (fill : bool) args kwargs :
  all_events (Host:=Host)
    (λ ev, is_plot (called ev) = false ∧ is_histogram2d (called ev) = false)
    (smooth_contour_with fill args kwargs).
Proof.
  apply (all_events_weaken _ _ _ (smooth_contour_calls fill args kwargs)).
  by intros [[] ?].
Qed.

Ltac clash_done :=
  solve
    [ exfalso;
      match goal with
      | Hclash : is_Some _ ∨ is_Some _ |- _ =>
          destruct Hclash as [Hc|Hp];
          [ match goal with
            | Hk : keywords {[ "extent" := _ ]} _ = Ok _ |- _ =>
                apply (keywords_clash _ _ "extent") in Hk;
                [done|by rewrite lookup_singleton_eq|];
                by rewrite ?lookup_insert_ne by done
            end
          | match goal with
            | Hk : keywords {[ "zorder" := _ ]} _ = Ok _ |- _ =>
                apply (keywords_clash _ _ "zorder") in Hk;
                [done|by rewrite lookup_singleton_eq|];
                match goal with
                | |- context [match ?pa with Some _ => _ | None => _ end] =>
                    destruct pa; simpl in Hp;
                    [by apply lookup_union_is_Some; left
                    |by destruct Hp]
                end
            end ]
      end ].

(** X15. With [extent] among [contour_args], or [zorder] among
    [plot_args], [scatter_contour] never returns (the keyword would be
    given twice in one call), and [ax.plot] is not called. *)
Theorem scatter_contour_keyword_clash x y levels threshold log_counts
    histogram2d_args plot_args contour_args filled_contour smooth ax
    (w : World Host) :
  is_Some (default ∅ contour_args !! "extent") ∨
  is_Some (default ∅ plot_args !! "zorder") →
  let run := scatter_contour x y levels threshold log_counts histogram2d_args
               plot_args contour_args filled_contour smooth ax in
  (∀ r, result_of run w ≠ Ok r) ∧
  Forall (λ ev, is_plot (called ev) = false) (new_events run w).
Proof.
  intros Hclash run.
  assert (∀ fill args kwargs,
            all_events (Host:=Host) (λ ev, is_plot (called ev) = false)
              (smooth_contour_with fill args kwargs)) as Hsmooth.
  { intros. eapply all_events_weaken; [apply smooth_contour_only_draws|].
    by intros ? [? _]. }
  split.
  - revert w. change (never_returns run). subst run. unfold scatter_contour.
    destruct smooth as [sm|].
    all: repeat first [clash_done|never_step].
  - revert w. change (all_events (λ ev, is_plot (called ev) = false) run).
    subst run. unfold scatter_contour. destruct smooth as [sm|], filled_contour.
    all: repeat first
      [ clash_done
      | lazymatch goal with
        | |- all_events _ (smooth_contour _ _) => exact (Hsmooth false _ _)
        | |- all_events _ (smooth_contourf _ _) => exact (Hsmooth true _ _)
        end
      | all_events_step ]; done.
Qed.

(** X16. With [levels] an integer below 1, or an empty array,
    [scatter_contour] never returns (there is no least level), and
    nothing is drawn: of the calls in the log, it makes those of
    [pyplot.gca] and [np.histogram2d] alone, none of a contour function,
    of a constructor, of a point-in-polygon test or of [ax.plot]. *)
Theorem scatter_contour_no_levels x y levels threshold log_counts
    histogram2d_args plot_args contour_args filled_contour smooth ax
    (w : World Host) :
  (∃ n, levels = LevelsInt n ∧ (n ≤ 0)%Z) ∨ levels = LevelsArr [] →
  let run := scatter_contour x y levels threshold log_counts histogram2d_args
               plot_args contour_args filled_contour smooth ax in
  (∀ r, result_of run w ≠ Ok r) ∧
  Forall (λ ev, is_gca (called ev) || is_histogram2d (called ev) = true)
         (new_events run w).
Proof.
  intros Hlevels run. split.
  - revert w. change (never_returns run). subst run. unfold scatter_contour.
    destruct Hlevels as [(n & -> & Hn)| ->].
    all: repeat first
      [ match goal with
        | Hlin : np.linspace _ _ _ = Ok _ |- _ =>
            apply linspace_no_points in Hlin as ->; [|done]
        | Hmin : np.argmin [] = Ok _ |- _ => discriminate Hmin
        end
      | never_step ].
  - revert w.
    change (all_events (λ ev, is_gca (called ev) || is_histogram2d (called ev) = true)
              run).
    subst run. unfold scatter_contour.
    destruct Hlevels as [(n & -> & Hn)| ->].
    all: repeat first
      [ match goal with
        | Hlin : np.linspace _ _ _ = Ok _ |- _ =>
            apply linspace_no_points in Hlin as ->; [|done]
        | Hmin : np.argmin [] = Ok _ |- _ => discriminate Hmin
        end
      | all_events_step ]; done.
Qed.
End clashes.



Section outline.
Context {numpy : Numpy} {Host : Type} `{!Matplotlib Host}.




End outline.

Section axes.
Context {numpy : Numpy} {Host : Type} `{!Matplotlib Host}.

(** X18. Without [smooth] and with [ax] given, [scatter_contour] draws on
    those axes alone: [pyplot.gca] is not called, no [SmoothContour] is
    made, and every contour call and every plot call is made on [ax]. *)
Theorem scatter_contour_on_given_axes x y levels threshold log_counts
    histogram2d_args plot_args contour_args filled_contour a (w : World Host) :
  let run := scatter_contour x y levels threshold log_counts histogram2d_args
               plot_args contour_args filled_contour None (Some a) in
  Forall (λ ev, draws_on a (called ev)) (new_events run w).
Proof.
  intros run. revert w. change (all_events (λ ev, draws_on a (called ev)) run).
  subst run. unfold scatter_contour. destruct filled_contour.
  all: repeat all_events_step; done.
Qed.

Lemma wp_all_events {A} (P : Event → Prop) (m : M Host A) w
    (Q : result A → World Host → list Event → Prop) :
  all_events P m → (∀ r w' evs, Forall P evs → Q r w' evs) → wp m w Q.
Proof. intros Hm HQ. apply HQ, Hm. Qed.

Lemma filter_no_constructor (evs : list Event) :
  Forall (λ ev, is_constructor (called ev) = false) evs →
  filter (λ ev, is_constructor (called ev) = true) evs = [].
Proof.
  induction 1 as [|ev evs Hev _ IH]; [done|].
  rewrite filter_cons_False; [done|]. by rewrite Hev.
Qed.

(** [smooth_contour] makes one [SmoothContour] at most, and none only when
    it raises; the axes and the attributes are read from the keywords. *)
Lemma wp_smooth_contour (c : nat) (fill : bool) args kwargs (w : World Host) Q :
  (∀ w : World Host, (gca w).1 = Ok c) →
  (∀ r w' evs,
     ((filter (λ ev, is_constructor (called ev) = true) evs = [] ∧
       ∀ ret, r ≠ Ok ret) ∨
      (∃ ev self ax kwargs',
         filter (λ ev, is_constructor (called ev) = true) evs = [ev] ∧
         called ev = call_ContourSet_init self ax args kwargs' ∧
         as_axes (default (VAxes c) (kwargs !! "ax")) = Ok ax ∧
         as_float (default (VInt 0) (kwargs !! "smooth")) = Ok (smooth self) ∧
         as_int (default (VInt 3) (kwargs !! "k")) = Ok (k self) ∧
         as_int (default (VInt 100) (kwargs !! "int_number"))
           = Ok (int_number self) ∧
         kwargs' !! "linewidths" = kwargs !! "linewidths")) →
     Q r w' evs) →
  wp (smooth_contour_with fill args kwargs) w Q.
Proof.
  intros Hgca HQ. eapply wp_mono; [|exact HQ].
  destruct fill; unfold smooth_contour_with, smooth_contour, smooth_contourf,
    SmoothContour_new, pop.
  all: repeat wp_step.
  all: simpl.
  all: try (left; split; [reflexivity|intros ? [=]]; fail).
  all: right; eexists _, _, _, _; split; [reflexivity|]; split; [reflexivity|].
  all: match goal with
       | Hinit : __init__ _ = Ok _ |- _ =>
           apply init_keywords in Hinit as (? & ? & ? & ->)
       end.
  all: match goal with
       | Haxes : as_axes _ = Ok _ |- _ =>
           rewrite lookup_insert_ne in Haxes by done
       end.
  all: match goal with
       | Hc : gca ?w0 = (Ok ?a, _) |- _ =>
           pose proof (Hgca w0) as Hcur; rewrite Hc in Hcur;
           injection Hcur as ->
       end.
  all: split_and!; try done.
  all: by rewrite !lookup_delete_ne, lookup_insert_ne by done.
Qed.

(** X19. With [smooth] and [ax] both given, the first [SmoothContour]
    that [scatter_contour] makes is the outline, and it is not made on
    [ax]: it is made on the current axes of pyplot, with [linewidths=0] and
    the defaults [smooth=0], [k=3] and [int_number=100] ([contour_args],
    where [ax] and [smooth] are put, goes to the main call only). Any
    later one is made on [ax] with the [smooth] given. *)
Theorem scatter_contour_smooth_outline x y levels threshold log_counts
    histogram2d_args plot_args contour_args filled_contour sm a c
    (w : World Host) :
  (∀ w : World Host, (gca w).1 = Ok c) →
  let run := scatter_contour x y levels threshold log_counts histogram2d_args
               plot_args contour_args filled_contour (Some sm) (Some a) in
  match filter (λ ev, is_constructor (called ev) = true) (new_events run w) with
  | [] => True
  | outline :: rest =>
      (∃ self args kwargs,
         called outline = call_ContourSet_init self c args kwargs ∧
         kwargs !! "linewidths" = Some (VInt 0) ∧
         smooth self = Qc_of_Z 0 ∧ k self = 3%Z ∧ int_number self = 100%Z) ∧
      Forall (λ ev, ∃ self args kwargs,
                called ev = call_ContourSet_init self a args kwargs ∧
                smooth self = sm) rest
  end.
Proof.
  intros Hgca run. subst run.
  change (wp (scatter_contour x y levels threshold log_counts histogram2d_args
               plot_args contour_args filled_contour (Some sm) (Some a)) w
    (λ _ _ evs,
  match filter (λ ev, is_constructor (called ev) = true) evs with
  | [] => True
  | outline :: rest =>
      (∃ self args kwargs,
         called outline = call_ContourSet_init self c args kwargs ∧
         kwargs !! "linewidths" = Some (VInt 0) ∧
         smooth self = Qc_of_Z 0 ∧ k self = 3%Z ∧ int_number self = 100%Z) ∧
      Forall (λ ev, ∃ self args kwargs,
                called ev = call_ContourSet_init self a args kwargs ∧
                smooth self = sm) rest
  end)).
  destruct filled_contour.
  all: unfold scatter_contour.
  all: repeat lazymatch goal with
    | |- wp (lift (mark_bins _ _ _ _ _ _) ≫= _) _ _ =>
        apply (wp_all_events (λ ev, is_constructor (called ev) = false));
        [repeat all_events_step; done
        |let Hevs := fresh "Hevs" in
         intros ? ? ? Hevs; rewrite !list.filter_app, (filter_no_constructor _ Hevs)]
    | |- wp (smooth_contour ?args ?kw) _ _ =>
        let Hc := fresh "Hcons" in
        apply (wp_smooth_contour c false args kw); [exact Hgca|];
        intros ? ? ? Hc
    | |- wp (smooth_contourf ?args ?kw) _ _ =>
        let Hc := fresh "Hcons" in
        apply (wp_smooth_contour c true args kw); [exact Hgca|];
        intros ? ? ? Hc
    | |- _ => wp_step
    end.
  all: rewrite ?list.filter_app; simpl.
  all: repeat match goal with
    | Hc : _ ∨ _ |- _ =>
        destruct Hc as [[-> Hne]|(? & ? & ? & ? & -> & ? & ? & ? & ? & ? & ?)];
        [try (by destruct (Hne _ eq_refl)); clear Hne|]
    | Hkw : keywords _ _ = Ok _ |- _ => apply keywords_Ok in Hkw as ->
    end.
  all: simpl; try done.
  all: repeat match goal with
    | Hax : as_axes (default _ (({[ "extent" := _ ]} ∪ _) !! "ax")) = _ |- _ =>
        rewrite lookup_union_r, lookup_insert_eq in Hax
          by (by rewrite lookup_singleton_ne);
        injection Hax as <-
    | Hsm : as_float (default _ (({[ "extent" := _ ]} ∪ _) !! "smooth")) = _ |- _ =>
        rewrite lookup_union_r, lookup_insert_ne, lookup_insert_eq in Hsm
          by (done || by rewrite lookup_singleton_ne);
        injection Hsm as Hsm
    | Hax : as_axes (default _ ({[ "linewidths" := _; "extent" := _ ]} !! _)) = _
      |- _ => rewrite lookup_insert_ne, lookup_singleton_ne in Hax by done;
              simpl in Hax; injection Hax as <-
    | Hsm : as_float (default _ ({[ "linewidths" := _; "extent" := _ ]} !! _)) = _
      |- _ => rewrite lookup_insert_ne, lookup_singleton_ne in Hsm by done;
              simpl in Hsm; injection Hsm as Hsm
    | Hk : as_int (default _ ({[ "linewidths" := _; "extent" := _ ]} !! _)) = _
      |- _ => rewrite lookup_insert_ne, lookup_singleton_ne in Hk by done;
              simpl in Hk; injection Hk as Hk
    | Hlw : _ = {[ "linewidths" := _; "extent" := _ ]} !! "linewidths" |- _ =>
        rewrite lookup_insert_eq in Hlw
    end.
  all: split; [eexists _, _, _; split; [eassumption|done]|].
  all: repeat constructor.
  all: eexists _, _, _; split; [eassumption|done].
Qed.
End axes.

(** ** What takes the place of the traced segments *)

Section replaced_facts.
Context `{DictOrder} `{!Scipy} {Host : Type}.
Implicit Types (self : Smoothing) (w : World Host).

Lemma logs_only_result {A} (m : M Host A) w0 w a :
  logs_only m → result_of m w0 = Ok a →
  result_of m w = Ok a ∧ world_after m w0 = w0.
Proof.
  intros (r & evs & Hm). unfold result_of, world_after. rewrite !Hm. simpl.
  by intros ->.
Qed.

Lemma lift_bind_Ok {A B} (r : result A) (f : A → M Host B) w b :
  result_of (lift r ≫= f) w = Ok b → ∃ a, r = Ok a ∧ result_of (f a) w = Ok b.
Proof.
  intros (a & Hr & Hf)%result_of_bind_Ok. exists a. by destruct r.
Qed.

Lemma logs_bind_Ok {A B} (m : M Host A) (f : A → M Host B) w b :
  logs_only m → result_of (m ≫= f) w = Ok b →
  ∃ a, (∀ w', result_of m w' = Ok a) ∧ result_of (f a) w = Ok b.
Proof.
  intros Hlogs (a & Hr & Hf)%result_of_bind_Ok. exists a.
  destruct (logs_only_result _ w w _ Hlogs Hr) as [_ Hw]. rewrite Hw in Hf.
  split; [|done]. intros w'. by apply (logs_only_result _ w w' _ Hlogs Hr).
Qed.

Lemma smooth_segs_bind_Ok self seg kind avg {B}
    (f : list (list Qc) * option (list Qc) → M Host B) w b :
  result_of (_smooth_segs self seg kind avg ≫= f) w = Ok b →
  ∃ seg' kind', smooth_segs_returns (Host:=Host) self avg seg kind seg' kind' ∧
                result_of (f (seg', kind')) w = Ok b.
Proof.
  intros ([seg' kind'] & Hr & Hf)%logs_bind_Ok; [|apply smooth_segs_runs].
  by exists seg', kind'.
Qed.

(** What a returning [_smooth_segs] did. *)
Lemma smooth_segs_Ok self seg kind avg seg' kind' :
  smooth_segs_returns (Host:=Host) self avg seg kind seg' kind' →
  World Host →
  seg ≠ [] ∧
  ∃ useg, unique_vec seg = Ok (useg, if closed seg then 1%Z else 0%Z) ∧
          length useg = useg_length seg ∧
          if bool_decide (k self < Z.of_nat (useg_length seg))%Z
          then kind' = (λ _, kinds_fill self) <$> kind ∧
               smoothed self useg (if closed seg then 1%Z else 0%Z) avg seg'
          else seg' = seg ∧ kind' = kind.
Proof.
  intros Hret w. specialize (Hret w).
  assert (seg ≠ []) as Hne.
  { intros ->. destruct (runs_to_new_events _ _ _ w (smooth_segs_empty self kind avg))
      as [Hr _]. congruence. }
  split; [done|]. destruct (unique_vec_spec seg Hne) as (useg & Huv & Hlen & _).
  exists useg. split; [done|]. split; [done|]. rewrite <- Hlen.
  case_bool_decide as Hk.
  - destruct (smooth_segs_long (Host:=Host) self seg kind avg _ _ Huv Hk)
      as (r & evs & Hrun & _ & _ & Hr).
    destruct (runs_to_new_events _ _ _ w Hrun) as [Hres _].
    rewrite Hret in Hres. subst r. done.
  - destruct (runs_to_new_events _ _ _ w
                (smooth_segs_short self seg kind avg _ _ Huv ltac:(lia)))
      as [Hres _].
    rewrite Hret in Hres. by injection Hres as <- <-.
Qed.

Lemma smooth_segs_returns_kind self avg seg kind seg' kind' :
  smooth_segs_returns (Host:=Host) self avg seg kind seg' kind' → World Host →
  is_Some kind' ↔ is_Some kind.
Proof.
  intros Hret w. destruct (smooth_segs_Ok _ _ _ _ _ _ Hret w) as (_ & useg & _ & _ & Hcase).
  case_bool_decide; [destruct Hcase as [-> _]|by destruct Hcase as [_ ->]].
  destruct kind; simpl; split; intros [? ?]; done || by eexists.
Qed.

(** One pass of the line loop. *)
Lemma smooth_lines_Ok self segs kinds i w segs' kinds' :
  result_of (smooth_lines self (segs, kinds) i) w = Ok (segs', kinds') →
  ∃ seg seg',
    segs !! i = Some (Arr2 seg) ∧
    smooth_segs_returns (Host:=Host) self true seg kinds seg' kinds' ∧
    segs' = <[i := Arr2 seg']> segs.
Proof.
  unfold smooth_lines. intros (seg & Hseg & Hrest)%lift_bind_Ok.
  apply smooth_segs_bind_Ok in Hrest as (seg' & kind' & Hret & Hrest).
  injection Hrest as <- <-. exists seg, seg'. split; [|done].
  unfold index in Hseg. destruct (segs !! i) as [[|a]|]; try done.
  simpl in Hseg. by injection Hseg as ->.
Qed.

Lemma smooth_lines_loop self w rest :
  ∀ done segs' kinds',
    result_of (for_each (smooth_lines self) (seq (length done) (length rest))
                        (done ++ rest, None)) w = Ok (segs', kinds') →
    kinds' = None ∧
    ∃ news, segs' = done ++ news ∧
            Forall2 (line_replaced (smooth_segs_returns (Host:=Host) self))
                    rest news.
Proof.
  induction rest as [|a rest IH]; intros done segs' kinds';
    cbn [length seq for_each].
  - rewrite app_nil_r. intros [= <- <-]. split; [done|]. exists [].
    by rewrite app_nil_r.
  - intros ([segs1 kinds1] & Hstep & Hrest)%logs_bind_Ok;
      [|apply smooth_lines_logs_only].
    specialize (Hstep w).
    apply smooth_lines_Ok in Hstep as (seg & seg' & Hseg & Hret & ->).
    rewrite list_lookup_middle in Hseg by done. injection Hseg as ->.
    assert (kinds1 = None) as ->.
    { destruct kinds1 as [k1|]; [|done].
      by destruct (proj1 (smooth_segs_returns_kind _ _ _ _ _ _ Hret w)
                     ltac:(by eexists)). }
    rewrite insert_app_r_alt, Nat.sub_diag in Hrest by done. cbn [insert list_insert] in Hrest.
    rewrite cons_middle, app_assoc in Hrest.
    replace (S (length done)) with (length (done ++ [Arr2 seg'])) in Hrest
      by (rewrite length_app; simpl; lia).
    apply IH in Hrest as (-> & news & -> & Hall). split; [done|].
    exists (Arr2 seg' :: news). rewrite <- app_assoc. split; [done|].
    constructor; [|done]. by exists seg, seg'.
Qed.

Lemma smooth_piece_logs_only self seg kind ndx tmp j :
  logs_only (Host:=Host) (smooth_piece self seg kind ndx tmp j).
Proof.
  unfold smooth_piece.
  repeat (apply logs_only_bind; [apply logs_only_lift|]; intros ?).
  apply logs_only_bind; [apply smooth_segs_runs|]. intros [s' k'].
  case_bool_decide; [apply logs_only_ret|].
  destruct tmp as [[segs_tmp [kinds_tmp|]]|]; try apply logs_only_lift.
  repeat (apply logs_only_bind; [apply logs_only_lift|]; intros ?).
  apply logs_only_ret.
Qed.

(** One pass of the loop over the pieces of a filled path. *)
Lemma smooth_piece_Ok self seg kind ndx tmp j w res :
  result_of (smooth_piece self seg kind ndx tmp j) w = Ok res →
  ∃ lo hi s k,
    ndx !! (j - 1) = Some lo ∧ ndx !! j = Some hi ∧
    smooth_segs_returns (Host:=Host) self true (np.slice lo hi seg)
                        (Some (np.slice lo hi kind)) s (Some k) ∧
    if bool_decide (j = 1) then res = Some (s, Some k)
    else ∃ st kt, tmp = Some (st, Some kt) ∧ res = Some (st ++ s, Some (kt ++ k)).
Proof.
  unfold smooth_piece. intros (lo & Hlo & Hrest)%lift_bind_Ok.
  apply lift_bind_Ok in Hrest as (hi & Hhi & Hrest).
  apply smooth_segs_bind_Ok in Hrest as (s & k & Hret & Hrest).
  destruct (proj2 (smooth_segs_returns_kind _ _ _ _ _ _ Hret w) ltac:(by eexists))
    as [k' ->].
  exists lo, hi, s, k'. unfold index in Hlo, Hhi.
  destruct (ndx !! (j - 1)) as [?|]; [injection Hlo as ->|done].
  destruct (ndx !! j) as [?|]; [injection Hhi as ->|done].
  split_and!; [done..|]. revert Hrest. case_bool_decide.
  - by intros [= <-].
  - destruct tmp as [[st [kt|]]|]; try done.
    intros (st' & Hst & Hrest)%lift_bind_Ok.
    apply lift_bind_Ok in Hrest as (k'' & [= <-] & [= <-]).
    exists st, kt. split; [done|].
    unfold np.vstack2 in Hst.
    destruct st as [|? ?], s as [|? ?]; try (by injection Hst as <-).
    case_bool_decide; [by injection Hst as <-|done].
Qed.

Lemma smooth_pieces_rest self seg kind ndx w m :
  ∀ j0 st kt res,
    2 ≤ j0 →
    result_of (for_each (smooth_piece self seg kind ndx) (seq j0 m)
                        (Some (st, Some kt))) w = Ok res →
    ∃ outs : list (list (list Qc) * list Qc),
      Forall2 (λ j out, ∃ lo hi,
                 ndx !! (j - 1) = Some lo ∧ ndx !! j = Some hi ∧
                 smooth_segs_returns (Host:=Host) self true (np.slice lo hi seg)
                   (Some (np.slice lo hi kind)) out.1 (Some out.2))
              (seq j0 m) outs ∧
      res = Some (st ++ concat outs.*1, Some (kt ++ concat outs.*2)).
Proof.
  induction m as [|m IH]; intros j0 st kt res Hj0; cbn [seq for_each].
  - intros [= <-]. exists []. split; [constructor|]. simpl. by rewrite !app_nil_r.
  - intros (res1 & Hstep & Hrest)%logs_bind_Ok;
      [|apply smooth_piece_logs_only].
    specialize (Hstep w).
    apply smooth_piece_Ok in Hstep as (lo & hi & s & k & Hlo & Hhi & Hret & Hres).
    rewrite bool_decide_eq_false_2 in Hres by lia.
    destruct Hres as (st' & kt' & [= <- <-] & ->).
    apply IH in Hrest as (outs & Hall & ->); [|lia].
    exists ((s, k) :: outs). split.
    + constructor; [|done]. by exists lo, hi.
    + simpl. by rewrite <- !app_assoc.
Qed.

Lemma piece_indices {A B} (P : A → B → Prop) (f : nat → nat → A)
    (ndx : list nat) (outs : list B) :
  Forall2 (λ j out, ∃ lo hi, ndx !! (j - 1) = Some lo ∧ ndx !! j = Some hi ∧
                             P (f lo hi) out)
          (seq 1 (length ndx - 1)) outs →
  Forall2 P (zip_with f ndx (tail ndx)) outs.
Proof.
  intros Hall. apply Forall2_same_length_lookup_2.
  - apply list.Forall2_length in Hall. rewrite length_seq in Hall.
    rewrite length_zip_with, length_tl. lia.
  - intros i x out Hx Hout.
    apply lookup_zip_with_Some in Hx as (lo & hi & -> & Hlo & Hhi).
    rewrite lookup_tail in Hhi.
    assert (seq 1 (length ndx - 1) !! i = Some (1 + i)) as Hi.
    { apply lookup_seq_lt. apply lookup_lt_Some in Hhi. lia. }
    destruct (Forall2_lookup_lr _ _ _ _ _ _ Hall Hi Hout)
      as (lo' & hi' & Hlo' & Hhi' & HP).
    replace (1 + i - 1) with i in Hlo' by lia. change (1 + i) with (S i) in Hhi'.
    congruence.
Qed.

(** The loop over the pieces of a filled path. *)
Lemma smooth_pieces_Ok self seg kind w st kt :
  let ndx := np.where_eq kind 1 ++ [length kind] in
  result_of (smooth_pieces self seg kind ndx) w = Ok (Some (st, Some kt)) →
  ∃ outs : list (list (list Qc) * list Qc),
    Forall2 (λ piece out,
               smooth_segs_returns (Host:=Host) self true piece.1 (Some piece.2)
                                   out.1 (Some out.2))
            (path_pieces seg kind) outs ∧
    st = concat outs.*1 ∧ kt = concat outs.*2.
Proof.
  intros ndx. unfold smooth_pieces, path_pieces. fold ndx.
  destruct (length ndx - 1) as [|m] eqn:Hm; cbn [seq for_each]; [done|].
  intros (res1 & Hstep & Hrest)%logs_bind_Ok; [|apply smooth_piece_logs_only].
  specialize (Hstep w).
  apply smooth_piece_Ok in Hstep as (lo & hi & s & k & Hlo & Hhi & Hret & ->).
  apply smooth_pieces_rest in Hrest as (outs & Hall & [= -> ->]); [|lia].
  exists ((s, k) :: outs). split; [|done].
  apply (piece_indices
           (λ piece out,
              smooth_segs_returns (Host:=Host) self true piece.1 (Some piece.2)
                                  out.1 (Some out.2))
           (λ lo hi, (np.slice lo hi seg, np.slice lo hi kind))).
  rewrite Hm. cbn [seq]. constructor; [|done]. by exists lo, hi.
Qed.

(** One pass of the loop over the filled paths. *)
Lemma smooth_filled_Ok self segs kinds i w segs' kinds' :
  result_of (smooth_filled self (segs, kinds) i) w = Ok (segs', kinds') →
  ∃ a b a' b',
    segs !! i = Some a ∧ kinds !! i = Some b ∧
    path_replaced (smooth_segs_returns (Host:=Host) self) (a, b) (a', b') ∧
    segs' = <[i := a']> segs ∧ kinds' = <[i := b']> kinds.
Proof.
  unfold smooth_filled. intros (kind & Hkind & Hrest)%lift_bind_Ok.
  assert (kinds !! i = Some (Arr1 kind)) as Hk.
  { unfold index in Hkind. destruct (kinds !! i) as [[|]|]; try done.
    simpl in Hkind. by injection Hkind as ->. }
  assert (∀ seg, index segs i ≫= as_seg = Ok seg → segs !! i = Some (Arr2 seg))
    as Hs.
  { intros seg Hseg. unfold index in Hseg. destruct (segs !! i) as [[|]|]; try done.
    simpl in Hseg. by injection Hseg as ->. }
  revert Hrest. unfold path_replaced. case_bool_decide as Hcount.
  - intros (seg & Hseg%Hs & Hrest)%lift_bind_Ok.
    apply logs_bind_Ok in Hrest as (tmp & Hpieces & Hrest);
      [|apply smooth_pieces_logs_only].
    destruct tmp as [[st [kt|]]|]; try done. injection Hrest as <- <-.
    specialize (Hpieces w).
    apply smooth_pieces_Ok in Hpieces as (outs & Hall & -> & ->).
    eexists _, _, _, _. split_and!; [done..| |done|done].
    eexists _, _, _, _. split_and!; [done..|].
    rewrite bool_decide_eq_true_2 by done. by exists outs.
  - intros (seg & Hseg%Hs & Hrest)%lift_bind_Ok.
    apply smooth_segs_bind_Ok in Hrest as (s & k & Hret & Hrest).
    destruct k as [k|]; [|done]. injection Hrest as <- <-.
    eexists _, _, _, _. split_and!; [done..| |done|done].
    eexists _, _, _, _. split_and!; [done..|].
    by rewrite bool_decide_eq_false_2 by done.
Qed.

Lemma smooth_filled_loop self w rest_s :
  ∀ done_s done_k rest_k segs' kinds',
    length done_k = length done_s → length rest_s ≤ length rest_k →
    result_of (for_each (smooth_filled self) (seq (length done_s) (length rest_s))
                        (done_s ++ rest_s, done_k ++ rest_k)) w
      = Ok (segs', kinds') →
    ∃ news_s news_k,
      segs' = done_s ++ news_s ∧
      kinds' = done_k ++ news_k ++ drop (length rest_s) rest_k ∧
      length news_s = length rest_s ∧ length news_k = length rest_s ∧
      Forall2 (path_replaced (smooth_segs_returns (Host:=Host) self))
              (zip rest_s rest_k) (zip news_s news_k).
Proof.
  induction rest_s as [|a rest_s IH];
    intros done_s done_k rest_k segs' kinds' Hlen Hle; cbn [length seq for_each].
  - intros [= <- <-]. exists [], []. rewrite drop_0. by split_and!.
  - destruct rest_k as [|b rest_k]; [simpl in Hle; lia|].
    intros ([segs1 kinds1] & Hstep & Hrest)%logs_bind_Ok;
      [|apply smooth_filled_logs_only].
    specialize (Hstep w).
    apply smooth_filled_Ok in Hstep
      as (a0 & b0 & a' & b' & Ha & Hb & Hpath & -> & ->).
    rewrite list_lookup_middle in Ha by done.
    rewrite <- Hlen, list_lookup_middle in Hb by done.
    injection Ha as <-. injection Hb as <-.
    rewrite insert_app_r_alt, Nat.sub_diag in Hrest by done.
    rewrite (insert_app_r_alt done_k), Hlen, Nat.sub_diag in Hrest by lia.
    cbn [insert list_insert] in Hrest.
    rewrite (cons_middle a'), (cons_middle b'), !app_assoc in Hrest.
    replace (S (length done_s)) with (length (done_s ++ [a'])) in Hrest
      by (rewrite length_app; simpl; lia).
    apply IH in Hrest as (news_s & news_k & -> & -> & Hls & Hlk & Hall).
    + exists (a' :: news_s), (b' :: news_k). rewrite <- !app_assoc. simpl.
      split_and!; [done|done|lia|lia|]. by constructor.
    + rewrite !length_app. simpl. lia.
    + simpl in Hle. lia.
Qed.

(** What [_get_allsegs_and_allkinds] returns: every segment of the first
    half of each traced list, put through [_smooth_segs]. *)
Lemma get_allsegs_and_allkinds_Ok (self : SmoothContour.t) w allsegs allkinds :
  result_of (_get_allsegs_and_allkinds self) w = Ok (allsegs, allkinds) →
  segments_replaced (smooth_segs_returns (Host:=Host) self) self allsegs allkinds.
Proof.
  unfold _get_allsegs_and_allkinds, segments_replaced. destruct (filled self).
  - rewrite result_of_call_bind.
    destruct (_get_lowers_and_uppers self) as [[lowers uppers]|e]; [|done].
    intros ([allsegs' allkinds'] & Hloop & [= <- <-])%result_of_bind_Ok.
    apply (for_each_adds
             (λ (lu : Qc * Qc) (sk : list ndarray * list ndarray),
                ∃ nlist,
                  Cntr_trace self lu.1 (Some lu.2) (Some (nchunk self)) = Ok nlist ∧
                  length sk.1 = length nlist / 2 ∧
                  length sk.2 = length nlist - length nlist / 2 ∧
                  drop (length nlist / 2) sk.2
                    = drop (length nlist / 2) (drop (length nlist / 2) nlist) ∧
                  Forall2 (path_replaced (smooth_segs_returns (Host:=Host) self))
                    (zip (take (length nlist / 2) nlist)
                         (drop (length nlist / 2) nlist))
                    (zip sk.1 sk.2))
             (λ (vars : list (list ndarray) * list (list ndarray)) bs,
                (vars.1 ++ bs.*1, vars.2 ++ bs.*2))) in Hloop
      as (bs & [= -> ->] & Hall).
    + exists lowers, uppers, bs.*2. split_and!; [done..|by rewrite !length_fmap|].
      by rewrite zip_fst_snd.
    + intros [? ?]. simpl. by rewrite !app_nil_r.
    + intros [? ?] l1 l2. simpl. by rewrite !fmap_app, !app_assoc.
    + intros [allsegs1 allkinds1] [level upper] w1 vars1.
      rewrite result_of_call_bind.
      destruct (Cntr_trace self level _ _) as [nlist|e] eqn:Htrace; [|done].
      intros ([segs kinds] & Hinner & [= <-])%result_of_bind_Ok.
      assert (length (take (length nlist / 2) nlist) = length nlist / 2) as Htake.
      { rewrite length_take. apply Nat.min_l, Nat.Div0.div_le_upper_bound. lia. }
      assert (length nlist / 2 ≤ length (drop (length nlist / 2) nlist)) as Hdrop.
      { rewrite length_drop.
        pose proof (Nat.Div0.mul_div_le (length nlist) 2). lia. }
      apply (smooth_filled_loop self w1 _ [] []) in Hinner
        as (news_s & news_k & -> & -> & Hls & Hlk & Hpaths); [|done|lia].
      exists (news_s, news_k ++ drop (length (take (length nlist / 2) nlist))
                                   (drop (length nlist / 2) nlist)).
      split; [done|]. exists nlist. cbn [fst snd]. split; [done|].
      split; [lia|]. split.
      { rewrite length_drop in Hdrop. rewrite length_app, !length_drop. lia. }
      split.
      { rewrite Htake. rewrite drop_app_length'; [done|lia]. }
      rewrite <- (app_nil_r news_s) at 1. rewrite zip_with_app by lia.
      simpl. by rewrite app_nil_r.
  - intros (allsegs' & Hloop & [= <- <-])%result_of_bind_Ok. split; [done|].
    apply (for_each_adds
             (λ level segs',
                ∃ nlist, Cntr_trace self level None None = Ok nlist ∧
                         Forall2 (line_replaced (smooth_segs_returns (Host:=Host) self))
                                 (take (length nlist / 2) nlist) segs')
             (λ (vars : list (list ndarray)) bs, vars ++ bs)) in Hloop
      as (bs & -> & Hall); [done|apply app_nil_r|intros; by rewrite app_assoc|].
    intros allsegs1 level w1 vars1.
    rewrite result_of_call_bind.
    destruct (Cntr_trace self level _ _) as [nlist|e] eqn:Htrace; [|done].
    intros ([segs kinds] & Hinner & [= <-])%result_of_bind_Ok.
    apply (smooth_lines_loop self w1 _ []) in Hinner as (_ & news & -> & Hlines).
    exists news. split; [done|]. by exists nlist.
Qed.

Lemma segments_replaced_impl
    (R1 R2 : bool → list (list Qc) → option (list Qc) →
             list (list Qc) → option (list Qc) → Prop)
    (self : SmoothContour.t) allsegs allkinds :
  (∀ avg seg kind seg' kind', R1 avg seg kind seg' kind' → R2 avg seg kind seg' kind') →
  segments_replaced R1 self allsegs allkinds →
  segments_replaced R2 self allsegs allkinds.
Proof.
  intros HR. unfold segments_replaced. destruct (filled self).
  - intros (lowers & uppers & ak & Hlu & -> & Hlen & Hall).
    exists lowers, uppers, ak. split_and!; [done..|].
    eapply list.Forall2_impl; [exact Hall|]. simpl.
    intros lu sk (nlist & Htrace & Hl1 & Hl2 & Hrest & Hpaths).
    exists nlist. split_and!; [done..|].
    eapply list.Forall2_impl; [exact Hpaths|].
    intros ab ab' (seg & kind & seg' & kind' & -> & -> & Hcase).
    exists seg, kind, seg', kind'. split_and!; [done..|].
    case_bool_decide; [|by apply HR].
    destruct Hcase as (outs & Houts & -> & ->). exists outs. split; [|done].
    eapply list.Forall2_impl; [exact Houts|]. intros ? ?. apply HR.
  - intros [-> Hall]. split; [done|].
    eapply list.Forall2_impl; [exact Hall|]. simpl.
    intros level segs' (nlist & Htrace & Hlines). exists nlist. split; [done|].
    eapply list.Forall2_impl; [exact Hlines|].
    intros a a' (seg & seg' & -> & -> & HR1). exists seg, seg'. auto.
Qed.

(** C4 (amended). For every level the segments [SmoothContour] smooths
    are the tracer's, in the tracer's order: when
    [_get_allsegs_and_allkinds] returns, its output holds, level by level,
    one entry for each segment of the first half of the list the tracer
    returned, in that order, and the entry is what [_smooth_segs] returns
    for the segment (for a filled path with more than one path code 1,
    what it returns for the pieces from one code 1 to the next, put
    together again). And when every list the tracer hands out is one to
    which no smoothing applies -- segments of points in the plane with
    their path codes, none empty, each line (each piece of a filled path)
    with at most [k] distinct points, its first point counted twice when
    the line or piece is closed -- the method makes the calls and returns
    the segments and kinds of the method of [QuadContourSet] it
    overrides. *)
Theorem get_allsegs_and_allkinds_traced (self : SmoothContour.t) (w : World Host) :
  (∀ allsegs allkinds,
     result_of (_get_allsegs_and_allkinds self) w = Ok (allsegs, allkinds) →
     segments_replaced (smooth_segs_returns (Host:=Host) self) self
                       allsegs allkinds) ∧
  ((∀ level upper nchunk nlist,
      Cntr_trace self level upper nchunk = Ok nlist → short_trace self nlist) →
   _get_allsegs_and_allkinds self w =
   QuadContourSet_get_allsegs_and_allkinds self w).
Proof.
  split.
  - intros allsegs allkinds. apply get_allsegs_and_allkinds_Ok.
  - intros Hshort. by apply get_allsegs_and_allkinds_unsmoothed.
Qed.

(** C2 (amended). For an object set up by [__init__]: the parameters
    [unew] are [int_number] evenly spaced values from 0; when
    [_get_allsegs_and_allkinds] returns, every segment the tracer produced
    has been replaced, in its place, as [spline_of] says: one long enough
    to smooth by the spline fitted with the periodic flag set exactly
    when the segment is closed, a shorter one not at all, a line with
    averaging, a filled path without, and a filled path with more than
    one path code 1 piece by piece, with averaging, the results put
    together; and in every call of [_smooth_segs] for a segment long
    enough the first library call is that fit, with [s = smooth] and
    [k = k], every fit has these [s], [k] and flag, and what the call
    returns is the fitted spline evaluated at [unew] or, when [smooth > 0]
    and averaging is asked for, the mean of that and of the fit of the
    reversed points evaluated at the reversed parameters. *)
Theorem smoothing_replaces_segments kwargs kwargs' (self : SmoothContour.t)
    (w : World Host) :
  __init__ kwargs = Ok (smoothing self, kwargs') →
  evenly_spaced (unew self) (int_number self) ∧
  (∀ allsegs allkinds,
     result_of (_get_allsegs_and_allkinds self) w = Ok (allsegs, allkinds) →
     segments_replaced (spline_of self) self allsegs allkinds) ∧
  (∀ seg kind avg,
     seg ≠ [] → (k self < Z.of_nat (useg_length seg))%Z →
     let per := if closed seg then 1%Z else 0%Z in
     let run := _smooth_segs self seg kind avg in
     ∃ useg,
       unique_vec seg = Ok (useg, per) ∧
       (∃ out, new_events run w !! 0 =
               Some {| called := call_splprep (np.T useg) (smooth self) (k self) per;
                       raised := out |}) ∧
       Forall (λ ev, fit_of self useg per (called ev)) (new_events run w) ∧
       ∀ seg' kind', result_of run w = Ok (seg', kind') →
                     smoothed self useg per avg seg').
Proof.
  intros Hinit. split_and!.
  - apply init_Ok in Hinit as (_ & _ & _ & _ & _ & Hun & _).
    by apply linspace_evenly_spaced.
  - intros allsegs allkinds Hrun%get_allsegs_and_allkinds_Ok.
    eapply segments_replaced_impl; [|exact Hrun].
    intros avg seg kind seg' kind' Hret.
    destruct (smooth_segs_Ok _ _ _ _ _ _ Hret w) as (Hne & useg & Huv & _ & Hcase).
    split; [done|]. exists useg. split; [done|].
    case_bool_decide; by destruct Hcase.
  - intros seg kind avg Hne Hk per run.
    destruct (smooth_segs_spline_fit kwargs kwargs' self seg kind avg w
                Hinit Hne Hk) as (useg & Huv & Hfirst & Hfits & _ & Hres).
    by exists useg.
Qed.
End replaced_facts.

(** ** Examples *)

(** C4 at a level with two lines, both smoothed, and at a filled path of
    two closed triangles, with [k = 4], to which no smoothing applies. *)
Lemma get_allsegs_and_allkinds_traced_witness :
  let lines := sample_contour (smoothing_of ∅) false two_lines in
  let paths := sample_contour (smoothing_of {[ "k" := VInt 4 ]}) true
                 two_triangles in
  (∃ allsegs,
     result_of (@_get_allsegs_and_allkinds map_order constant_spline () lines) start
       = Ok (allsegs, None) ∧
     segments_replaced (@smooth_segs_returns map_order constant_spline () lines)
                       lines allsegs None) ∧
  @_get_allsegs_and_allkinds map_order constant_spline () paths start =
  QuadContourSet_get_allsegs_and_allkinds paths start.
Proof.
  intros lines paths. split.
  - eexists.
    assert (∀ A B : Prop, A → (A → B) → A ∧ B) as Hsplit by tauto.
    apply Hsplit.
    + vm_compute. reflexivity.
    + apply (proj1 (@get_allsegs_and_allkinds_traced map_order constant_spline ()
                      lines start)).
  - apply (proj2 (@get_allsegs_and_allkinds_traced map_order constant_spline ()
                    paths start)).
    intros level upper nchunk nlist Hnlist. subst paths. simpl in Hnlist.
    injection Hnlist as <-.
    eexists [_], [_]. split; [reflexivity|].
    repeat constructor; done.
Defined.

(** C2 at a level with two lines, the closed triangle and the open path,
    with the default keywords. *)
Lemma smoothing_replaces_segments_witness :
  let self := sample_contour (smoothing_of ∅) false two_lines in
  let run := @_get_allsegs_and_allkinds map_order constant_spline () self in
  __init__ ∅ = Ok (smoothing self, ∅) ∧
  evenly_spaced (unew self) (int_number self) ∧
  ∃ allsegs,
    result_of run start = Ok (allsegs, None) ∧
    segments_replaced (@spline_of map_order constant_spline self) self allsegs None.
Proof.
  intros self run.
  assert (__init__ ∅ = Ok (smoothing self, ∅)) as Hinit
    by (vm_compute; reflexivity).
  destruct (@smoothing_replaces_segments map_order constant_spline () ∅ ∅ self start
              Hinit) as (Hun & Hall & _).
  split; [exact Hinit|]. split; [exact Hun|]. eexists.
  assert (∀ A B : Prop, A → (A → B) → A ∧ B) as Hsplit by tauto.
  apply Hsplit.
  - vm_compute. reflexivity.
  - apply Hall.
Defined.

(** C2, as stated, fails: a tracer hands out the open path, of five
    distinct points, more than the default [k] of 3; its spline is fitted,
    and with the periodic flag 0. *)
Lemma traced_open_path_not_periodic :
  let self := sample_contour (smoothing_of ∅) false [Arr2 open_path; Arr1 []] in
  let evs := new_events
               (@_get_allsegs_and_allkinds map_order constant_spline () self)
               start in
  (k self < Z.of_nat (unique_points open_path))%Z ∧
  (∃ x s k', {| called := call_splprep x s k' 0; raised := None |} ∈ evs) ∧
  ∀ ev x s k' per, ev ∈ evs → called ev = call_splprep x s k' per → per = 0%Z.
Proof.
  intros self evs. split_and!.
  - vm_compute. reflexivity.
  - eexists _, _, _. vm_compute. right. left.
  - intros ev x s k' per Hev Hcall. vm_compute in Hev.
    repeat (apply elem_of_cons in Hev as [->|Hev]; [simpl in Hcall; congruence|]).
    by apply elem_of_nil in Hev.
Qed.

(** X2 at the closed triangle. *)
Lemma unique_vec_unchanged_witness :
  @unique_vec map_order triangle = Ok (triangle, if closed triangle then 1%Z else 0%Z).
Proof.
  apply (@unique_vec_unchanged map_order triangle); [done|].
  right. eexists _, _. split; [reflexivity|].
  split; by apply (bool_decide_unpack _).
Defined.

(** X3 at a path that goes back over its second point. *)
Lemma unique_vec_idempotent_witness :
  let useg := [point 0 0; point 2 0; point 1 0] in
  @unique_vec map_order retraced_path = Ok (useg, 0%Z) ∧
  @unique_vec map_order useg = Ok (useg, 0%Z).
Proof.
  intros useg.
  assert (@unique_vec map_order retraced_path = Ok (useg, 0%Z)) as Huv
    by (vm_compute; reflexivity).
  split; [exact Huv|].
  exact (@unique_vec_idempotent map_order retraced_path useg 0%Z Huv).
Defined.

(** X4 at the closed triangle with its second point retraced. *)
Lemma unique_vec_points_in_order_witness :
  let A := triangle ++ [point 1 0] in
  let useg := [point 0 0; point 0 1; point 0 0; point 1 0] in
  @unique_vec map_order A = Ok (useg, 1%Z) ∧
  (∀ r, r ∈ useg ↔ r ∈ A) ∧
  NoDup (drop (Z.to_nat 1) useg) ∧
  useg `sublist_of` A.
Proof.
  intros A useg.
  assert (@unique_vec map_order A = Ok (useg, 1%Z)) as Huv
    by (vm_compute; reflexivity).
  split; [exact Huv|].
  exact (@unique_vec_points_in_order map_order A useg 1%Z Huv).
Defined.

(** X5 at [int_number=5]. *)
Lemma init_parameters_witness :
  ∃ self kwargs',
    __init__ {[ "int_number" := VInt 5 ]} = Ok (self, kwargs') ∧
    (1 ≤ int_number self)%Z ∧
    length (unew self) = Z.to_nat (int_number self) ∧
    length (kinds_fill self) = length (unew self) ∧
    unew self !! 0 = Some 0%Qc ∧
    ((2 ≤ int_number self)%Z → list.last (unew self) = Some 1%Qc).
Proof.
  eexists _, _.
  assert (∀ A B : Prop, A → (A → B) → A ∧ B) as Hsplit by tauto.
  apply Hsplit.
  - vm_compute. reflexivity.
  - intros Hinit. exact (init_parameters _ _ _ Hinit).
Defined.

(** X6 at [int_number=0] and at [int_number=-1]. *)
Lemma init_rejects_no_points_witness :
  __init__ {[ "int_number" := VInt 0 ]} = Raise IndexError ∧
  __init__ {[ "int_number" := VInt (-1) ]} = Raise ValueError.
Proof.
  split.
  - apply (init_rejects_no_points {[ "int_number" := VInt 0 ]} (Qc_of_Z 0) 3 0);
      [reflexivity|reflexivity|reflexivity|lia].
  - apply (init_rejects_no_points {[ "int_number" := VInt (-1) ]} (Qc_of_Z 0) 3 (-1));
      [reflexivity|reflexivity|reflexivity|lia].
Defined.

(** X7 with a scipy whose fit fails, on an open path of five points: the
    fit is the second call and the last. *)
Lemma smoothing_stops_at_failure_witness :
  let self := sample_contour (smoothing_of ∅) false [Arr2 open_path; Arr1 []] in
  let run := @_get_allsegs_and_allkinds map_order failing_spline () self in
  ∃ ev, new_events run start !! 1 = Some ev ∧
        raised ev = Some (LibraryError "splprep") ∧
        2 = length (new_events run start) ∧
        result_of run start = Raise (LibraryError "splprep").
Proof.
  intros self run. eexists.
  assert (∀ A B C : Prop, A → B → (A → B → C) → A ∧ B ∧ C) as Hsplit by tauto.
  apply Hsplit.
  - vm_compute. reflexivity.
  - reflexivity.
  - intros Hev Hraised.
    exact (@smoothing_stops_at_failure map_order failing_spline () self start 1 _ _
             Hev Hraised).
Defined.

(** X9 at a filled contour set whose tracer returns one path of two
    triangles. *)
Lemma allsegs_one_entry_per_level_witness :
  let self := sample_contour (smoothing_of {[ "int_number" := VInt 4 ]}) true
                two_triangles in
  ∃ allsegs allkinds,
    result_of (@_get_allsegs_and_allkinds map_order constant_spline () self) start
      = Ok (allsegs, allkinds) ∧
    ∃ lowers uppers ak,
      _get_lowers_and_uppers self = Ok (lowers, uppers) ∧
      allkinds = Some ak ∧ length ak = length allsegs ∧
      Forall2 (λ (lu : Qc * Qc) (sk : list ndarray * list ndarray),
                 ∃ nlist,
                   Cntr_trace self lu.1 (Some lu.2) (Some (nchunk self)) = Ok nlist ∧
                   length sk.1 = length nlist / 2 ∧
                   length sk.2 = length nlist - length nlist / 2)
              (zip lowers uppers) (zip allsegs ak).
Proof.
  intros self. eexists _, _.
  assert (∀ A B : Prop, A → (A → B) → A ∧ B) as Hsplit by tauto.
  apply Hsplit.
  - vm_compute. reflexivity.
  - intros Hrun.
    exact (@allsegs_one_entry_per_level map_order constant_spline () self start
             _ _ Hrun).
Defined.

(** X10 at [smooth_contour(z, smooth=1, colors='k', filled=True)] on axes
    whose contour set has an array. *)
Lemma smooth_contour_call_sequence_witness :
  let run := @smooth_contour_with () (canvas triangle_contours false) false
               [VArr2 triangle] sample_keywords in
  result_of run start = Ok triangle_contours ∧
  ∃ self ax kwargs',
    called <$> new_events run start =
      [call_gca; call_ContourSet_init self ax [VArr2 triangle] kwargs';
       call_draw_if_interactive]
      ++ (if _A triangle_contours is Some _ then [call_sci triangle_contours] else []) ∧
    Forall (λ ev, raised ev = None) (new_events run start).
Proof.
  intros run.
  assert (result_of run start = Ok triangle_contours) as Hrun
    by (vm_compute; reflexivity).
  split; [exact Hrun|].
  exact (@smooth_contour_call_sequence () (canvas triangle_contours false) false
           [VArr2 triangle] sample_keywords start triangle_contours Hrun).
Defined.

(** X11 at [smooth_contour(z, hold=False)]. *)
Lemma smooth_contour_hold_keyword_witness :
  let kwargs : gmap string Value := {[ "hold" := VBool false ]} in
  let self := smoothing_of ∅ in
  let kwargs' : gmap string Value := {[ "filled" := VBool false ]} in
  let ev := {| called := call_ContourSet_init self 0 [VArr2 triangle] kwargs';
               raised := None |} in
  kwargs !! "hold" = Some (VBool false) ∧
  ev ∈ new_events (@smooth_contour_with () (canvas no_contours false) false
                     [VArr2 triangle] kwargs) start ∧
  raised ev =
    exn_of (@ContourSet_init () (canvas no_contours false) self 0 [VArr2 triangle]
              kwargs'
              {| holds := <[0 := false]>
                            (holds (@gca () (canvas no_contours false) start).2);
                 host := host (@gca () (canvas no_contours false) start).2 |}).1.
Proof.
  intros kwargs self kwargs' ev.
  assert (ev ∈ new_events (@smooth_contour_with () (canvas no_contours false) false
                             [VArr2 triangle] kwargs) start) as Hev.
  { vm_compute. right. left. }
  split; [reflexivity|]. split; [exact Hev|].
  exact (@smooth_contour_hold_keyword () (canvas no_contours false) false
           [VArr2 triangle] kwargs start false ev self 0 [VArr2 triangle] kwargs'
           eq_refl Hev eq_refl).
Defined.

(** X13 at [smooth_contour(z, int_number=0)]. *)
Lemma smooth_contour_needs_points_witness :
  let run := @smooth_contour_with () (canvas no_contours false) false
               [VArr2 triangle] {[ "int_number" := VInt 0 ]} in
  (∀ ret, result_of run start ≠ Ok ret) ∧
  Forall (λ ev, called ev = call_gca) (new_events run start).
Proof.
  apply (@smooth_contour_needs_points () (canvas no_contours false) false
           [VArr2 triangle] {[ "int_number" := VInt 0 ]} start 0);
    [reflexivity|lia].
Defined.

(** X14 at [scatter_contour([0, 0, 0, 1, 2], [0, 0, 0, 1, 2], threshold=2)]
    on axes whose outline has no segment. *)
Lemma scatter_contour_plot_call_witness :
  ∃ H xbins ybins kw,
    @histogram2d numpy_no_log corner_data corner_data ∅ = Ok (H, xbins, ybins) ∧
    {| called := call_plot 0 [Qc_of_Z 1] [Qc_of_Z 1] kw; raised := None |}
      ∈ new_events (@scatter_corner_data (canvas no_contours false)) start ∧
    length [Qc_of_Z 1] = length [Qc_of_Z 1] ∧
    zip [Qc_of_Z 1] [Qc_of_Z 1] `sublist_of`
      masked_points (@density numpy_no_log false H)
                    (@density_threshold numpy_no_log false 2)
                    xbins ybins corner_data corner_data ∧
    kw = {[ "zorder" := VInt 1 ]} ∪
         (default ∅ None ∪ {[ "marker" := VStr "."; "linestyle" := VStr "none" ]}) ∧
    (∀ a, None = Some a → 0 = a).
Proof.
  eexists _, _, _, _.
  assert (∀ A B C : Prop, A → B → (A → B → C) → A ∧ B ∧ C) as Hsplit by tauto.
  apply Hsplit.
  - vm_compute. reflexivity.
  - vm_compute. do 4 right. left.
  - intros Hhist Hev.
    exact (@scatter_contour_plot_call numpy_no_log () (canvas no_contours false)
             corner_data corner_data (LevelsInt 10) 2%Qc false None None None true
             None None start _ _ _ _ 0 _ _ _ Hhist Hev eq_refl).
Defined.

(** X15 at [scatter_contour(x, y, contour_args=dict(extent=None))]. *)
Lemma scatter_contour_keyword_clash_witness :
  let run := @scatter_contour numpy_no_log () (canvas no_contours false)
               corner_data corner_data (LevelsInt 10) 2%Qc false None None
               (Some {[ "extent" := VNone ]}) true None None in
  (∀ r, result_of run start ≠ Ok r) ∧
  Forall (λ ev, is_plot (called ev) = false) (new_events run start).
Proof.
  apply (@scatter_contour_keyword_clash numpy_no_log () (canvas no_contours false)
           corner_data corner_data (LevelsInt 10) 2%Qc false None None
           (Some {[ "extent" := VNone ]}) true None None start).
  left. by exists VNone.
Defined.

(** X16 at [scatter_contour(x, y, levels=0)]. *)
Lemma scatter_contour_no_levels_witness :
  let run := @scatter_contour numpy_no_log () (canvas no_contours false)
               corner_data corner_data (LevelsInt 0) 2%Qc false None None None
               true None None in
  (∀ r, result_of run start ≠ Ok r) ∧
  Forall (λ ev, is_gca (called ev) || is_histogram2d (called ev) = true)
         (new_events run start).
Proof.
  apply (@scatter_contour_no_levels numpy_no_log () (canvas no_contours false)
           corner_data corner_data (LevelsInt 0) 2%Qc false None None None
           true None None start).
  left. exists 0%Z. split; [reflexivity|lia].
Defined.


(** X19 at [scatter_contour(x, y, threshold=2, smooth=1, ax=1)] when the
    current axes are the axes 0: the outline is made on the axes 0. *)
Lemma scatter_contour_smooth_outline_witness :
  (∀ w : World (), (@gca () (canvas no_contours false) w).1 = Ok 0) ∧
  length (filter (λ ev, is_constructor (called ev) = true)
                 (new_events (@scatter_corner_data_smooth (canvas no_contours false))
                             start)) = 2 ∧
  match filter (λ ev, is_constructor (called ev) = true)
               (new_events (@scatter_corner_data_smooth (canvas no_contours false))
                           start)
  with
  | [] => True
  | outline :: rest =>
      (∃ self args kwargs,
         called outline = call_ContourSet_init self 0 args kwargs ∧
         kwargs !! "linewidths" = Some (VInt 0) ∧
         smooth self = Qc_of_Z 0 ∧ k self = 3%Z ∧ int_number self = 100%Z) ∧
      Forall (λ ev, ∃ self args kwargs,
                called ev = call_ContourSet_init self 1 args kwargs ∧
                smooth self = 1%Qc) rest
  end.
Proof.
  split; [done|]. split; [vm_compute; reflexivity|].
  apply (@scatter_contour_smooth_outline numpy_no_log () (canvas no_contours false)
           corner_data corner_data (LevelsInt 10) 2%Qc false None None None true
           1%Qc 1 0 start).
  done.
Defined.
